(** * Text-repair engine of chat_server_demo: code fences and LaTeX delimiters

    A shallow embedding of
      - [helper_functionality/code_fences.py] (validator, repairer, language
        guesser) and
      - [helper_functionality/latex.py] (protected spans, the math-delimiter
        scan, the align normaliser),
    followed by the properties proved about them.

    Conventions of the embedding.
      - A Python [str] is a [list ascii]; one [ascii] is one code point, so the
        texts covered are those whose code points lie below 256.  Character
        classes ([\s], [\w], [\d], [str.isspace], [str.lower], the line
        boundaries of [str.splitlines]) are the ones CPython uses on that
        range.
      - Regular expressions are kept as syntax trees and run by a backtracking
        matcher with the priorities of Python's [re] (leftmost alternative
        first, greedy or lazy repetition, numbered groups, back-references).
      - Operations that can raise in Python ([x[i]], [max] of an empty list,
        a dictionary lookup, using [None] as a string) return a [result];
        loops written with [while] take fuel and return [Diverge] when it runs
        out. *)

From Stdlib Require Import String Ascii Arith Bool Lia PeanoNat List Sorted.
Import ListNotations.

Set Warnings "-comment-terminator-in-string".

Local Open Scope nat_scope.
Local Open Scope list_scope.

(* ================================================================== *)
(** ** Strings                                                         *)
(* ================================================================== *)

Definition str : Type := list ascii.

Definition lit (s : string) : str := list_ascii_of_string s.

Definition code (c : ascii) : nat := nat_of_ascii c.

Definition chr (n : nat) : ascii := ascii_of_nat n.

Definition NL : str := [chr 10].

Definition in_range (lo hi : nat) (c : ascii) : bool :=
  (lo <=? code c) && (code c <=? hi).

Definition ch_eqb (a b : ascii) : bool := Ascii.eqb a b.

Fixpoint str_eqb (a b : str) : bool :=
  match a, b with
  | [], [] => true
  | x :: a', y :: b' => ch_eqb x y && str_eqb a' b'
  | _, _ => false
  end.

(** [c in chars] for a one-character [c]. *)
Definition one_of (chars : string) (c : ascii) : bool :=
  existsb (ch_eqb c) (lit chars).

(** [str.isspace] and the regex class [\s] below code point 256. *)
Definition is_space (c : ascii) : bool :=
  in_range 9 13 c || in_range 28 32 c || (code c =? 133) || (code c =? 160).

(** The regex class [\d]: the decimal digits (category Nd) below 256. *)
Definition is_digit (c : ascii) : bool := in_range 48 57 c.

Definition is_ascii_alpha (c : ascii) : bool :=
  in_range 65 90 c || in_range 97 122 c.

(** [str.isalnum] below code point 256: letters, digits and the
    numeric characters of Latin-1. *)
Definition is_alnum (c : ascii) : bool :=
  is_ascii_alpha c || is_digit c
  || (code c =? 170) || (code c =? 178) || (code c =? 179) || (code c =? 181)
  || (code c =? 185) || (code c =? 186) || in_range 188 190 c
  || in_range 192 214 c || in_range 216 246 c || in_range 248 255 c.

(** The regex class [\w]. *)
Definition is_word (c : ascii) : bool := is_alnum c || (code c =? 95).

(** The line boundaries of [str.splitlines] below code point 256
    (["\r\n"] is handled by [splitlines] itself). *)
Definition is_linebreak (c : ascii) : bool :=
  in_range 10 13 c || in_range 28 30 c || (code c =? 133).

(** [s[a:b]] for [0 <= a], [0 <= b]. *)
Definition slice (s : str) (a b : nat) : str := firstn (b - a) (skipn a s).

(** [s.startswith(t, i)]. *)
Definition startswith (s t : str) (i : nat) : bool :=
  str_eqb (slice s i (i + length t)) t.

(** [t in s]. *)
Fixpoint contains (s t : str) : bool :=
  startswith s t 0 || match s with [] => false | _ :: s' => contains s' t end.

Fixpoint lstrip (s : str) : str :=
  match s with
  | c :: s' => if is_space c then lstrip s' else s
  | [] => []
  end.

Definition rstrip (s : str) : str := rev (lstrip (rev s)).

Definition strip (s : str) : str := rstrip (lstrip s).

Definition lower_char (c : ascii) : ascii :=
  if in_range 65 90 c || in_range 192 214 c || in_range 216 222 c
  then chr (code c + 32) else c.

Definition lower (s : str) : str := map lower_char s.

(** [sep.join(parts)]. *)
Fixpoint join (sep : str) (parts : list str) : str :=
  match parts with
  | [] => []
  | [p] => p
  | p :: rest => p ++ sep ++ join sep rest
  end.

(** [ch * n]. *)
Definition repeat_char (c : ascii) (n : nat) : str := repeat c n.

(** [text.splitlines()]: [cur] is the line being read. *)
Fixpoint splitlines_from (cur : str) (s : str) : list str :=
  match s with
  | [] => match cur with [] => [] | _ => [cur] end
  | c :: s' =>
      if code c =? 13 then
        match s' with
        | c' :: s'' =>
            if code c' =? 10 then cur :: splitlines_from [] s''
            else cur :: splitlines_from [] s'
        | [] => cur :: splitlines_from [] s'
        end
      else if is_linebreak c then cur :: splitlines_from [] s'
      else splitlines_from (cur ++ [c]) s'
  end.

Definition splitlines (s : str) : list str := splitlines_from [] s.

(** [old] replaced by [new] from left to right, as [str.replace] does for a
    non-empty [old]. *)
Fixpoint replace_from (fuel : nat) (s old new : str) : str :=
  match fuel with
  | 0 => s
  | S fuel' =>
      match s with
      | [] => []
      | c :: s' =>
          if startswith s old 0
          then new ++ replace_from fuel' (skipn (length old) s) old new
          else c :: replace_from fuel' s' old new
      end
  end.

Definition replace (s old new : str) : str := replace_from (length s) s old new.

(** Decimal digits of a number, as [str(n)] and the f-string [{n}] give. *)
Fixpoint digits_from (fuel n : nat) (acc : str) : str :=
  let acc' := chr (48 + n mod 10) :: acc in
  match fuel with
  | 0 => acc'
  | S fuel' => if n <? 10 then acc' else digits_from fuel' (n / 10) acc'
  end.

Definition str_of_int (n : nat) : str := digits_from n n [].

(* ================================================================== *)
(** ** Outcomes of a call                                              *)
(* ================================================================== *)

Inductive exn : Type :=
| IndexError | KeyError | TypeError | ValueError | AttributeError.

Inductive result (A : Type) : Type :=
| Ok (a : A)
| Raise (e : exn)
| Diverge.

Arguments Ok {A} a.
Arguments Raise {A} e.
Arguments Diverge {A}.

Definition bind {A B : Type} (r : result A) (f : A -> result B) : result B :=
  match r with
  | Ok a => f a
  | Raise e => Raise e
  | Diverge => Diverge
  end.

Notation "x <- e ;; k" := (bind e (fun x => k))
  (at level 61, e at next level, right associativity).
Notation "' p <- e ;; k" := (bind e (fun p => k))
  (at level 61, p pattern, e at next level, right associativity).

(** [xs[i]] on a list. *)
Definition list_get {A : Type} (xs : list A) (i : nat) : result A :=
  match nth_error xs i with
  | Some x => Ok x
  | None => Raise IndexError
  end.

(** [x[i]] where [x] is a string or [None]. *)
Definition getitem (x : option str) (i : nat) : result ascii :=
  match x with
  | None => Raise TypeError
  | Some t => list_get t i
  end.

(** [len(x)] where [x] is a string or [None]. *)
Definition len (x : option str) : result nat :=
  match x with
  | None => Raise TypeError
  | Some t => Ok (length t)
  end.

(** [max(xs)]. *)
Definition py_max (xs : list nat) : result nat :=
  match xs with
  | [] => Raise ValueError
  | x :: rest => Ok (fold_left Nat.max rest x)
  end.

(* ================================================================== *)
(** ** Regular expressions                                             *)
(* ================================================================== *)

Inductive regex : Type :=
| Empty
| Chr (c : ascii)
| Cls (p : ascii -> bool)
| Cat (r1 r2 : regex)
| Alt (r1 r2 : regex)
| Rep (greedy : bool) (lo : nat) (hi : option nat) (r : regex)
| Grp (n : nat) (r : regex)
| Backref (n : nat)
| Bol (multiline : bool)
| Eol (multiline : bool)
| WordB.

(** Group bindings, the latest first. *)
Definition groups : Type := list (nat * (nat * nat)).

Fixpoint group_span (g : groups) (n : nat) : option (nat * nat) :=
  match g with
  | [] => None
  | (m, sp) :: g' => if m =? n then Some sp else group_span g' n
  end.

Definition cont : Type := nat -> groups -> option (nat * groups).

Definition dec_bound (hi : option nat) : option nat :=
  match hi with
  | Some h => Some (pred h)
  | None => None
  end.

Definition bound_reached (hi : option nat) : bool :=
  match hi with
  | Some 0 => true
  | _ => false
  end.

(** The optional iterations of a repetition.  An iteration that consumes
    nothing is cut off, as the matcher of [re] does; none of the patterns
    below repeats a body that can match the empty string. *)
Fixpoint rep_opt (step : cont -> cont) (greedy : bool) (fuel : nat)
    (hi : option nat) (k : cont) (i : nat) (g : groups) : option (nat * groups) :=
  match fuel with
  | 0 => k i g
  | S fuel' =>
      if bound_reached hi then k i g
      else
        let more :=
          step (fun j g' =>
                  if i <? j then rep_opt step greedy fuel' (dec_bound hi) k j g'
                  else None) i g in
        if greedy then
          match more with
          | Some r => Some r
          | None => k i g
          end
        else
          match k i g with
          | Some r => Some r
          | None => more
          end
  end.

(** The mandatory iterations of a repetition, then [tail]. *)
Fixpoint rep_min (step : cont -> cont) (lo : nat) (tail : cont -> cont)
    (k : cont) (i : nat) (g : groups) : option (nat * groups) :=
  match lo with
  | 0 => tail k i g
  | S lo' => step (fun j g' => rep_min step lo' tail k j g') i g
  end.

Definition bound_minus (hi : option nat) (lo : nat) : option nat :=
  match hi with
  | Some h => Some (h - lo)
  | None => None
  end.

Section Matcher.

(** The subject string. *)
Variable s : str.

Definition char_at (i : nat) : option ascii := nth_error s i.

Definition newline_at (i : nat) : bool :=
  match char_at i with
  | Some c => code c =? 10
  | None => false
  end.

Definition word_at (i : nat) : bool :=
  match char_at i with
  | Some c => is_word c
  | None => false
  end.

Definition at_bol (multiline : bool) (i : nat) : bool :=
  (i =? 0) || (multiline && newline_at (i - 1)).

Definition at_eol (multiline : bool) (i : nat) : bool :=
  (length s <=? i)
  || (newline_at i && (multiline || (S i =? length s))).

Definition at_word_boundary (i : nat) : bool :=
  xorb (if i =? 0 then false else word_at (i - 1)) (word_at i).

(** [mtch r k i g]: match [r] at index [i] with bindings [g], then go on
    with [k]; the first success in priority order. *)
Fixpoint mtch (r : regex) (k : cont) (i : nat) (g : groups)
    {struct r} : option (nat * groups) :=
  match r with
  | Empty => k i g
  | Chr c =>
      match char_at i with
      | Some c' => if ch_eqb c c' then k (S i) g else None
      | None => None
      end
  | Cls p =>
      match char_at i with
      | Some c' => if p c' then k (S i) g else None
      | None => None
      end
  | Cat r1 r2 => mtch r1 (mtch r2 k) i g
  | Alt r1 r2 =>
      match mtch r1 k i g with
      | Some res => Some res
      | None => mtch r2 k i g
      end
  | Rep greedy lo hi r' =>
      rep_min (mtch r') lo
        (rep_opt (mtch r') greedy (S (length s)) (bound_minus hi lo)) k i g
  | Grp n r' => mtch r' (fun j g' => k j ((n, (i, j)) :: g')) i g
  | Backref n =>
      match group_span g n with
      | Some (a, b) =>
          let t := slice s a b in
          if startswith s t i then k (i + length t) g else None
      | None => None
      end
  | Bol m => if at_bol m i then k i g else None
  | Eol m => if at_eol m i then k i g else None
  | WordB => if at_word_boundary i then k i g else None
  end.

(** A match object: where the match starts and ends, and its groups. *)
Record Match : Type := mkMatch {
  m_start : nat;
  m_end : nat;
  m_groups : groups
}.

Definition match_at (r : regex) (i : nat) : option Match :=
  match mtch r (fun j g => Some (j, g)) i [] with
  | Some (j, g) => Some (mkMatch i j g)
  | None => None
  end.

Fixpoint search_from (r : regex) (fuel i : nat) : option Match :=
  match match_at r i with
  | Some m => Some m
  | None =>
      match fuel with
      | 0 => None
      | S fuel' => search_from r fuel' (S i)
      end
  end.

(** [pattern.match(s)]. *)
Definition re_match (r : regex) : option Match := match_at r 0.

(** [pattern.search(s, pos)]. *)
Definition re_search (r : regex) (pos : nat) : option Match :=
  search_from r (length s - pos) pos.

(** [pattern.fullmatch(s)], as a truth value. *)
Definition re_fullmatch (r : regex) : bool :=
  match mtch r (fun j g => if j =? length s then Some (j, g) else None) 0 [] with
  | Some _ => true
  | None => false
  end.

(** The scan goes on after a match at its end, one further when the match
    was empty (the patterns used with [finditer] and [sub] never match the
    empty string). *)
Definition next_pos (m : Match) : nat :=
  if m_start m <? m_end m then m_end m else S (m_end m).

Fixpoint finditer_from (r : regex) (fuel pos : nat) : list Match :=
  match fuel with
  | 0 => []
  | S fuel' =>
      match re_search r pos with
      | Some m => m :: finditer_from r fuel' (next_pos m)
      | None => []
      end
  end.

(** [pattern.finditer(s)]. *)
Definition finditer (r : regex) : list Match :=
  finditer_from r (S (length s)) 0.

(** [m.group(n)]: [None] when the group took no part in the match. *)
Definition group (m : Match) (n : nat) : option str :=
  match n with
  | 0 => Some (slice s (m_start m) (m_end m))
  | _ =>
      match group_span (m_groups m) n with
      | Some (a, b) => Some (slice s a b)
      | None => None
      end
  end.

Fixpoint sub_from (r : regex) (repl : Match -> result str) (fuel pos : nat)
    : result str :=
  match fuel with
  | 0 => Ok (skipn pos s)
  | S fuel' =>
      match re_search r pos with
      | Some m =>
          new <- repl m;;
          rest <- sub_from r repl fuel' (next_pos m);;
          Ok (slice s pos (m_start m) ++ new
              ++ slice s (m_end m) (next_pos m) ++ rest)
      | None => Ok (skipn pos s)
      end
  end.

(** [pattern.sub(repl, s)] with a function [repl], which may raise. *)
Definition re_sub (r : regex) (repl : Match -> result str) : result str :=
  sub_from r repl (S (length s)) 0.

End Matcher.

(** Pattern shorthands. *)
Definition Star (r : regex) : regex := Rep true 0 None r.
Definition Plus (r : regex) : regex := Rep true 1 None r.
Definition Opt (r : regex) : regex := Rep true 0 (Some 1) r.
Definition LazyStar (r : regex) : regex := Rep false 0 None r.

Fixpoint Str_of (t : str) : regex :=
  match t with
  | [] => Empty
  | [c] => Chr c
  | c :: t' => Cat (Chr c) (Str_of t')
  end.

Definition Str (t : string) : regex := Str_of (lit t).

Fixpoint Seq (rs : list regex) : regex :=
  match rs with
  | [] => Empty
  | [r] => r
  | r :: rs' => Cat r (Seq rs')
  end.

Fixpoint Any_of (rs : list regex) : regex :=
  match rs with
  | [] => Cls (fun _ => false)
  | [r] => r
  | r :: rs' => Alt r (Any_of rs')
  end.

(** [.] without and with [re.DOTALL]. *)
Definition Dot : regex := Cls (fun c => negb (code c =? 10)).
Definition DotAll : regex := Cls (fun _ => true).

(** Truth value of a match result, as in [if pattern.search(s):]. *)
Definition found (s : str) (r : regex) : bool :=
  match re_search s r 0 with
  | Some _ => true
  | None => false
  end.

Definition matches (s : str) (r : regex) : bool :=
  match re_match s r with
  | Some _ => true
  | None => false
  end.

(** [m.group(0)], which is always a string. *)
Definition group0 (s : str) (m : Match) : str := slice s (m_start m) (m_end m).

Definition Space : regex := Cls is_space.
Definition Word : regex := Cls is_word.
Definition Digit : regex := Cls is_digit.

(* ================================================================== *)
(** ** code_fences.py                                                  *)
(* ================================================================== *)

Definition fence_ch (c : ascii) : bool := one_of "`~" c.

(** The class [[A-Za-z0-9.+#_\-]]. *)
Definition tag_ch (c : ascii) : bool :=
  is_ascii_alpha c || in_range 48 57 c || one_of ".+#_-" c.

(** The class [[ \t]]. *)
Definition blank_ch (c : ascii) : bool := (code c =? 32) || (code c =? 9).

(** The pattern "^\s*([`~]{3,})\s*([A-Za-z0-9.+#_\-]*)\s*$". *)
Definition OPEN_FENCE_RE : regex :=
  Seq [Bol false; Star Space; Grp 1 (Rep true 3 None (Cls fence_ch));
       Star Space; Grp 2 (Star (Cls tag_ch)); Star Space; Eol false].

(** The pattern "^\s*([`~]{3,})\s*$". *)
Definition CLOSE_FENCE_RE : regex :=
  Seq [Bol false; Star Space; Grp 1 (Rep true 3 None (Cls fence_ch));
       Star Space; Eol false].

(** [re.escape(ch) + "+"] *)
Definition BACKTICKS_RUN_RE (ch : ascii) : regex := Plus (Chr ch).

Definition SECTION_MARKERS : list str :=
  [lit "### Improvements"; lit "### Revised Answer"; lit "### Comments"].

(** The pattern "^[ \t]{0,3}#{3,6}[ \t]+". *)
Definition ATX_HEADER_RE : regex :=
  Seq [Bol false; Rep true 0 (Some 3) (Cls blank_ch);
       Rep true 3 (Some 6) (Chr "#"); Plus (Cls blank_ch)].

Definition is_empty (s : str) : bool :=
  match s with
  | [] => true
  | _ => false
  end.

Definition is_empty_list {A : Type} (l : list A) : bool :=
  match l with
  | [] => true
  | _ => false
  end.

Definition _prev_nonblank_is_blank (lines : list str) (idx : nat) : result bool :=
  if 0 <? idx then
    prev <- list_get lines (idx - 1);;
    Ok (is_empty (strip prev))
  else Ok false.

Definition looks_like_section_boundary (lines : list str) (idx : nat) : result bool :=
  cur <- list_get lines idx;;
  let line := lstrip cur in
  if existsb (fun m => startswith line m 0) SECTION_MARKERS then Ok true
  else
    cur' <- list_get lines idx;;
    if matches cur' ATX_HEADER_RE then
      blank_before <- _prev_nonblank_is_blank lines idx;;
      if blank_before then Ok true else Ok false
    else Ok false.

Definition shell_words : list string :=
  ["cd"; "ls"; "echo"; "export"; "pip"; "apt"; "yum"; "curl"; "wget"; "git"]%string.

(** [guess_lang(code)]; the patterns are, in order of appearance,
    "^\s*def\s+\w+\s*\(" (re.M), "function\s+\w+\s*\(",
    "\bimport\s+.*\s+from\s+",
    "^\s*\$?\s*(cd|ls|echo|export|pip|apt|yum|curl|wget|git)\b" (re.M),
    "\bselect\b.*\bfrom\b", "\bcreate\s+table\b", "^\s*<html\b" (re.M),
    "\s*\{[\s\S]*\}\s*" (fullmatch), "^\s*[\w\-]+\s*:\s*.+" (re.M),
    "\bint\s+main\s*\(", "\bpublic\s+class\b",
    "\bSystem\.out\.println\(". *)
Definition guess_lang (code_text : str) : option str :=
  let s := strip code_text in
  let low := lower s in
  if found s (Seq [Bol true; Star Space; Str "def"; Plus Space; Plus Word;
                   Star Space; Chr "("])
     || contains low (lit "import ") || contains s (lit "print(")
  then Some (lit "python")
  else if contains s (lit "console.log(")
     || found s (Seq [Str "function"; Plus Space; Plus Word; Star Space; Chr "("])
     || contains s (lit "=> ")
     || found low (Seq [WordB; Str "import"; Plus Space; Star Dot; Plus Space;
                        Str "from"; Plus Space])
  then Some (lit "javascript")
  else if found low (Seq [Bol true; Star Space; Opt (Chr "$"); Star Space;
                          Grp 1 (Any_of (map Str shell_words)); WordB])
  then Some (lit "bash")
  else if found low (Seq [WordB; Str "select"; WordB; Star Dot; WordB;
                          Str "from"; WordB])
     || found low (Seq [WordB; Str "create"; Plus Space; Str "table"; WordB])
  then Some (lit "sql")
  else if startswith low (lit "<!doctype html") 0
     || found low (Seq [Bol true; Star Space; Str "<html"; WordB])
     || startswith low (lit "<?xml") 0
  then Some (lit "html")
  else if re_fullmatch s (Seq [Star Space; Chr "{"; Star DotAll; Chr "}"; Star Space])
          && contains s (lit ":")
  then Some (lit "json")
  else if found s (Seq [Bol true; Star Space;
                        Plus (Cls (fun c => is_word c || (code c =? 45)));
                        Star Space; Chr ":"; Star Space; Plus Dot])
          && negb (contains s (lit ";") || contains s (lit "{"))
  then Some (lit "yaml")
  else if contains s (lit "#include")
     || found s (Seq [WordB; Str "int"; Plus Space; Str "main"; Star Space; Chr "("])
  then Some (lit "c")
  else if found s (Seq [WordB; Str "public"; Plus Space; Str "class"; WordB])
     || found s (Seq [WordB; Str "System.out.println("])
  then Some (lit "java")
  else if contains s (lit "fn main()") || contains s (lit "let mut ")
  then Some (lit "rust")
  else None.

(** The variables of the first sweep of [validate_code_fences]. *)
Record fence_state : Type := mkFenceState {
  in_block : bool;
  fence_char : option ascii;
  fence_len : nat;
  open_line : nat
}.

Definition opt_ch_eqb (c : ascii) (o : option ascii) : bool :=
  match o with
  | Some c' => ch_eqb c c'
  | None => false
  end.

(** One turn of the loop that detects unclosed fences. *)
Definition track_line (st : fence_state) (i : nat) (line : str) : result fence_state :=
  if negb (in_block st) then
    match re_match line OPEN_FENCE_RE with
    | Some m =>
        c <- getitem (group line m 1) 0;;
        n <- len (group line m 1);;
        Ok (mkFenceState true (Some c) n i)
    | None => Ok st
    end
  else
    match re_match line CLOSE_FENCE_RE with
    | Some m2 =>
        c <- getitem (group line m2 1) 0;;
        if opt_ch_eqb c (fence_char st) then
          n <- len (group line m2 1);;
          if fence_len st <=? n
          then Ok (mkFenceState false None 0 (open_line st))
          else Ok st
        else Ok st
    | None => Ok st
    end.

(** [for i, line in enumerate(lines, i): ...] of the first sweep. *)
Fixpoint track_lines (st : fence_state) (i : nat) (lines : list str) : result fence_state :=
  match lines with
  | [] => Ok st
  | line :: rest =>
      st' <- track_line st i line;;
      track_lines st' (S i) rest
  end.

(** One turn of the loop that detects stray closing fences. *)
Definition count_line (acc : nat * list str) (i : nat) (line : str) : nat * list str :=
  let '(depth, issues) := acc in
  if matches line OPEN_FENCE_RE then (depth + 1, issues)
  else if matches line CLOSE_FENCE_RE then
    if depth =? 0
    then (depth, issues ++ [lit "Closing fence without opening on line " ++ str_of_int i])
    else (depth - 1, issues)
  else (depth, issues).

Fixpoint count_lines (acc : nat * list str) (i : nat) (lines : list str) : nat * list str :=
  match lines with
  | [] => acc
  | line :: rest => count_lines (count_line acc i line) (S i) rest
  end.

Definition validate_code_fences (text : str) : result (bool * list str) :=
  let lines := splitlines text in
  st <- track_lines (mkFenceState false None 0 0) 1 lines;;
  let issues :=
    if in_block st
    then [lit "Unclosed code fence started on line " ++ str_of_int (open_line st)]
    else [] in
  let '(_, issues') := count_lines (0, issues) 1 lines in
  Ok (length issues' =? 0, issues').

(** The test of the inner loop of [fix_code_fences]:
    [m2 and m2.group(1)[0] == orig_series[0] and len(m2.group(1)) >= fence_len]. *)
Definition closes_block (line : str) (orig_series : option str) (flen : nat) : result bool :=
  match re_match line CLOSE_FENCE_RE with
  | None => Ok false
  | Some m2 =>
      c <- getitem (group line m2 1) 0;;
      c0 <- getitem orig_series 0;;
      if ch_eqb c c0 then
        n <- len (group line m2 1);;
        Ok (flen <=? n)
      else Ok false
  end.

(** The inner loop of [fix_code_fences]: collects the lines of a block from
    line [i] on; returns [closed], the next [i], [code_buf] and [changes]. *)
Fixpoint collect_block (fuel : nat) (lines : list str) (orig_series : option str)
    (flen i : nat) (code_buf changes : list str)
    : result (bool * nat * list str * list str) :=
  if i <? length lines then
    match fuel with
    | 0 => Diverge
    | S fuel' =>
        line <- list_get lines i;;
        closes <- closes_block line orig_series flen;;
        if closes then Ok (true, S i, code_buf, changes)
        else
          boundary <- looks_like_section_boundary lines i;;
          if boundary then
            Ok (true, i, code_buf,
                changes ++ [lit "Inserted missing closing fence before heading at line "
                            ++ str_of_int (i + 1)])
          else
            line' <- list_get lines i;;
            collect_block fuel' lines orig_series flen (S i) (code_buf ++ [line']) changes
    end
  else Ok (false, i, code_buf, changes).

(** Truth value of an optional string: [None] and [""] are false. *)
Definition truthy (o : option str) : bool :=
  match o with
  | Some (_ :: _) => true
  | _ => false
  end.

(** [x.lower()] where [x] is a string or [None]. *)
Definition lower_of (x : option str) : result str :=
  match x with
  | Some t => Ok (lower t)
  | None => Raise AttributeError
  end.

(** The part of [fix_code_fences] after a block was collected: the lines
    that replace the block, and the change list. *)
Definition rebuild_block (default_lang : option str) (fch : ascii) (flen : nat)
    (lang : str) (closed : bool) (code_buf changes : list str)
    : result (list str * list str) :=
  let code_text := join NL code_buf in
  let runs := map (fun x => length (group0 code_text x))
                  (finditer code_text (BACKTICKS_RUN_RE fch)) in
  longest <- match runs with
             | [] => Ok 3
             | _ => m <- py_max runs;; Ok (m + 1)
             end;;
  let safe_len := Nat.max 3 longest in
  let norm_lang := lower lang in
  '(norm_lang, changes) <-
    (if is_empty norm_lang then
       let g := guess_lang code_text in
       if truthy g then
         match g with
         | Some g' => Ok (g', changes ++ [lit "Added guessed language tag: " ++ g'])
         | None => Raise TypeError
         end
       else if truthy default_lang then
         d <- lower_of default_lang;;
         Ok (d, changes ++ [lit "Added default language tag: " ++ d])
       else Ok (norm_lang, changes)
     else Ok (norm_lang, changes));;
  let opener := repeat_char fch safe_len
                ++ (if is_empty norm_lang then [] else lit " " ++ norm_lang) in
  let closer := repeat_char fch safe_len in
  let changes :=
    if negb (flen =? safe_len)
    then changes ++ [lit "Adjusted fence length from " ++ str_of_int flen
                     ++ lit " to " ++ str_of_int safe_len]
    else changes in
  let changes :=
    if negb closed
    then changes ++ [lit "Inserted missing closing fence at end of block"]
    else changes in
  let changes :=
    if negb (str_eqb lang norm_lang) && (negb (is_empty lang) || negb (is_empty norm_lang))
    then changes ++ [lit "Normalized language tag from '" ++ lang ++ lit "' to '"
                     ++ norm_lang ++ lit "'"]
    else changes in
  Ok ([opener] ++ (match code_buf with [] => [] | _ => [code_text] end) ++ [closer],
      changes).

(** The outer loop of [fix_code_fences], from line [i] on. *)
Fixpoint fix_loop (fuel : nat) (lines : list str) (default_lang : option str)
    (keep_fence_char : bool) (i : nat) (out changes : list str)
    : result (list str * list str) :=
  if i <? length lines then
    match fuel with
    | 0 => Diverge
    | S fuel' =>
        line <- list_get lines i;;
        match re_match line OPEN_FENCE_RE with
        | None =>
            fix_loop fuel' lines default_lang keep_fence_char (S i) (out ++ [line]) changes
        | Some m =>
            let orig_series := group line m 1 in
            fch <- (if keep_fence_char then getitem orig_series 0 else Ok "`"%char);;
            flen <- len orig_series;;
            let lang := strip (match group line m 2 with Some t => t | None => [] end) in
            '(closed, i', code_buf, changes) <-
              collect_block (length lines) lines orig_series flen (S i) [] changes;;
            '(block, changes) <-
              rebuild_block default_lang fch flen lang closed code_buf changes;;
            fix_loop fuel' lines default_lang keep_fence_char i' (out ++ block) changes
        end
    end
  else Ok (out, changes).

Definition fix_code_fences (text : str) (default_lang : option str)
    (keep_fence_char : bool) : result (str * list str) :=
  let lines := splitlines text in
  '(out, changes) <- fix_loop (length lines) lines default_lang keep_fence_char 0 [] [];;
  Ok (join NL out, changes).

Definition ensure_fenced_code (text : str) (default_lang : option str)
    (keep_fence_char : bool) : result (str * list str) :=
  '(ok, issues) <- validate_code_fences text;;
  if negb ok then
    '(fixed, changes) <- fix_code_fences text default_lang keep_fence_char;;
    '(ok2, _) <- validate_code_fences fixed;;
    Ok (fixed, issues ++ changes
               ++ (if negb ok2 then [lit "Still invalid after fix"] else []))
  else
    '(fixed, changes) <- fix_code_fences text default_lang keep_fence_char;;
    Ok (fixed, changes).

(* ================================================================== *)
(** ** latex.py                                                        *)
(* ================================================================== *)

Inductive edit_kind : Type := Insert | Replace | Delete.

Record Edit : Type := mkEdit {
  kind : edit_kind;
  pos : nat;
  before : str;
  after : str;
  reason : str
}.

Definition not_ch (chars : string) (c : ascii) : bool := negb (one_of chars c).

Definition not_newline (c : ascii) : bool := negb (code c =? 10).

(** The pattern "```.*?```" with re.DOTALL. *)
Definition _code_fence : regex := Seq [Str "```"; LazyStar DotAll; Str "```"].

(** The pattern "`[^`\n]*`". *)
Definition _inline_code : regex :=
  Seq [Chr "`"; Star (Cls (fun c => not_ch "`" c && not_newline c)); Chr "`"].

(** The pattern "(?m)%[^\n]*$". *)
Definition _comment : regex := Seq [Chr "%"; Star (Cls not_newline); Eol true].

(** The pattern "\\begin\{(verbatim|lstlisting|minted)(?:\*?)\b[^\}]*\}". *)
Definition _verb_env_open : regex :=
  Seq [Str "\begin{";
       Grp 1 (Any_of [Str "verbatim"; Str "lstlisting"; Str "minted"]);
       Opt (Chr "*"); WordB; Star (Cls (not_ch "}")); Chr "}"].

(** The pattern built in [_protected_spans] from the environment's name:
    "\\end\{" + re.escape(name) + "\}". *)
Definition end_pat (name : str) : regex := Seq [Str "\end{"; Str_of name; Chr "}"].

(** The pattern "\\verb(?P<d>[^A-Za-z0-9\s])(?:.*?)(?P=d)"; the group d is
    group 1. *)
Definition _verb_inline : regex :=
  Seq [Str "\verb";
       Grp 1 (Cls (fun c => negb (is_ascii_alpha c || in_range 48 57 c || is_space c)));
       LazyStar Dot; Backref 1].

(** The pattern "\$(\d{1,3}(?:[.,]\d{3})*|\d+)(?:[.,]\d+)?" of
    [_looks_like_currency]. *)
Definition currency_re : regex :=
  Seq [Chr "$";
       Grp 1 (Alt (Cat (Rep true 1 (Some 3) Digit)
                       (Star (Cat (Cls (one_of ".,")) (Rep true 3 (Some 3) Digit))))
                  (Plus Digit));
       Opt (Cat (Cls (one_of ".,")) (Plus Digit))].

(** The pattern "\\begin{(align\*?|aligned)}(.*?)\\end{\1}" with re.DOTALL. *)
Definition align_re : regex :=
  Seq [Str "\begin{";
       Grp 1 (Alt (Cat (Str "align") (Opt (Chr "*"))) (Str "aligned"));
       Chr "}"; Grp 2 (LazyStar DotAll); Str "\end{"; Backref 1; Chr "}"].

(** The pattern "\)\s*(\\\w+)". *)
Definition jammed_re : regex :=
  Seq [Chr ")"; Star Space; Grp 1 (Cat (Chr "\") (Plus Word))].

Definition _tokens : list str :=
  [lit "\["; lit "\]"; lit "\("; lit "\)"; lit "$$"; lit "$"].

Definition _openers : list (str * str) :=
  [(lit "\[", lit "\["); (lit "\(", lit "\("); (lit "$$", lit "$$"); (lit "$", lit "$")].

Definition _closers : list (str * str) :=
  [(lit "\]", lit "\]"); (lit "\)", lit "\)"); (lit "$$", lit "$$"); (lit "$", lit "$")].

Definition _matching : list (str * str) :=
  [(lit "\[", lit "\]"); (lit "\(", lit "\)"); (lit "$$", lit "$$"); (lit "$", lit "$")].

(** [k in d]. *)
Definition dict_has (d : list (str * str)) (k : str) : bool :=
  existsb (fun kv => str_eqb (fst kv) k) d.

(** [d[k]]. *)
Definition dict_get (d : list (str * str)) (k : str) : result str :=
  match find (fun kv => str_eqb (fst kv) k) d with
  | Some kv => Ok (snd kv)
  | None => Raise KeyError
  end.

Definition span : Type := (nat * nat)%type.

Definition span_of (m : Match) : span := (m_start m, m_end m).

(** The order of tuples that [list.sort] uses. *)
Definition span_leb (a b : span) : bool :=
  (fst a <? fst b) || ((fst a =? fst b) && (snd a <=? snd b)).

Fixpoint insert_span (x : span) (l : list span) : list span :=
  match l with
  | [] => [x]
  | y :: l' => if span_leb x y then x :: l else y :: insert_span x l'
  end.

(** [spans.sort()]. *)
Fixpoint sort_spans (l : list span) : list span :=
  match l with
  | [] => []
  | x :: l' => insert_span x (sort_spans l')
  end.

(** One turn of the merging loop of [_protected_spans]. *)
Definition merge_step (merged : list span) (sp : span) : list span :=
  let '(st, en) := sp in
  match rev merged with
  | [] => merged ++ [(st, en)]
  | (a, b) :: _ =>
      if b <? st then merged ++ [(st, en)]
      else removelast merged ++ [(a, Nat.max b en)]
  end.

Definition merge_spans (spans : list span) : list span :=
  fold_left merge_step spans [].

(** [re.escape(name)] where [name] is a string of letters or [None]. *)
Definition escape (name : option str) : result str :=
  match name with
  | Some t => Ok t
  | None => Raise TypeError
  end.

Fixpoint map_result {A B : Type} (f : A -> result B) (l : list A) : result (list B) :=
  match l with
  | [] => Ok []
  | x :: l' =>
      y <- f x;;
      ys <- map_result f l';;
      Ok (y :: ys)
  end.

(** The span of one verbatim-like environment opened by the match [m]. *)
Definition verb_env_span (s : str) (m : Match) : result span :=
  name <- escape (group s m 1);;
  match re_search s (end_pat name) (m_end m) with
  | Some close => Ok (m_start m, m_end close)
  | None => Ok (m_start m, length s)
  end.

Definition _protected_spans (s : str) : result (list span) :=
  let fences := map span_of (finditer s _code_fence) in
  let inline := map span_of (finditer s _inline_code) in
  let comments := map span_of (finditer s _comment) in
  envs <- map_result (verb_env_span s) (finditer s _verb_env_open);;
  let verbs := map span_of (finditer s _verb_inline) in
  Ok (merge_spans (sort_spans (fences ++ inline ++ comments ++ envs ++ verbs))).

Definition covers (i : nat) (sp : span) : bool := (fst sp <=? i) && (i <? snd sp).

Definition _in_protected (i : nat) (spans : list span) : bool :=
  existsb (covers i) spans.

Fixpoint count_leading_backslashes (l : str) : nat :=
  match l with
  | c :: l' => if ch_eqb c "\" then S (count_leading_backslashes l') else 0
  | [] => 0
  end.

(** The loop runs over [reversed(prefix)]. *)
Definition _count_trailing_backslashes (prefix : str) : nat :=
  count_leading_backslashes (rev prefix).

Definition _looks_like_currency (s : str) (i : nat) : result bool :=
  let tail := skipn i s in
  match re_match tail currency_re with
  | None => Ok false
  | Some m =>
      let after_ := i + length (group0 tail m) in
      if after_ <? length s then
        c <- list_get s after_;;
        if ch_eqb c "$" then Ok false else Ok true
      else Ok true
  end.

(** An entry of the stack: the opener, [len(out)] and the index in the
    text when it was pushed. *)
Definition entry : Type := (str * nat * nat)%type.

Definition entry_tok (e : entry) : str := fst (fst e).

(** The variables of [_scan_and_fix].  [s_stack] has the top of the Python
    list (its last element) first. *)
Record scan_state : Type := mkScan {
  s_i : nat;
  s_out : list str;
  s_edits : list Edit;
  s_stack : list entry
}.

Definition emit (st : scan_state) (piece : str) (i' : nat) : scan_state :=
  mkScan i' (s_out st ++ [piece]) (s_edits st) (s_stack st).

Definition set_stack (st : scan_state) (stack : list entry) : scan_state :=
  mkScan (s_i st) (s_out st) (s_edits st) stack.

(** The local function [insert_closer]; it reads the current [i]. *)
Definition insert_closer (st : scan_state) (tok_open where_desc : str)
    : result scan_state :=
  closer <- dict_get _matching tok_open;;
  Ok (mkScan (s_i st) (s_out st ++ [closer])
        (s_edits st ++
           [mkEdit Insert (s_i st) [] closer
              (lit "Inserted missing closer " ++ closer ++ lit " for " ++ tok_open
               ++ lit " " ++ where_desc)])
        (s_stack st)).

(** [while stack: tok_open, _, _ = stack.pop(); insert_closer(tok_open, ...)]. *)
Fixpoint close_at_newline (stack : list entry) (st : scan_state) : result scan_state :=
  match stack with
  | [] => Ok (set_stack st [])
  | e :: rest =>
      st' <- insert_closer (set_stack st rest) (entry_tok e) (lit "at end of line");;
      close_at_newline rest st'
  end.

(** The loop after the scan: closes what is still open at the end of the
    text, whose length is [n]. *)
Fixpoint close_at_end (n : nat) (stack : list entry) (st : scan_state) : result scan_state :=
  match stack with
  | [] => Ok (set_stack st [])
  | e :: rest =>
      closer <- dict_get _matching (entry_tok e);;
      close_at_end n rest
        (mkScan (s_i st) (s_out st ++ [closer])
           (s_edits st ++
              [mkEdit Insert n [] closer
                 (lit "Inserted missing closer " ++ closer ++ lit " at end of document")])
           rest)
  end.

(** Whether the token at hand acts as an opener ([is_opener]); otherwise it
    acts as a closer. *)
Definition is_opener (tok : str) (stack : list entry) : bool :=
  if dict_has _openers tok && negb (dict_has _closers tok) then true
  else if dict_has _closers tok && negb (dict_has _openers tok) then false
  else
    match stack with
    | e :: _ => negb (str_eqb (entry_tok e) tok)
    | [] => true
    end.

(** The part of the loop body that handles an unescaped token that is not
    currency. *)
Definition handle_token (st : scan_state) (tok : str) : result scan_state :=
  let i := s_i st in
  if is_opener tok (s_stack st) then
    st1 <- match s_stack st with
           | e :: rest =>
               insert_closer (set_stack st rest) (entry_tok e)
                 (lit "before opening a new math block")
           | [] => Ok st
           end;;
    Ok (mkScan (i + length tok) (s_out st1 ++ [tok]) (s_edits st1)
          ((tok, length (s_out st1), i) :: s_stack st1))
  else
    match s_stack st with
    | [] =>
        Ok (mkScan (i + length tok) (s_out st)
              (s_edits st ++
                 [mkEdit Delete i tok [] (lit "Stray closer " ++ tok ++ lit " removed")])
              [])
    | e :: rest =>
        let open_tok := entry_tok e in
        want_closer <- dict_get _matching open_tok;;
        if str_eqb tok want_closer then
          Ok (mkScan (i + length tok) (s_out st ++ [tok]) (s_edits st) rest)
        else
          Ok (mkScan (i + length tok) (s_out st ++ [want_closer])
                (s_edits st ++
                   [mkEdit Replace i tok want_closer
                      (lit "Mismatched closer: " ++ tok ++ lit " -> " ++ want_closer
                       ++ lit " for opener " ++ open_tok)])
                rest)
    end.

(** One turn of the [while i < n] loop of [_scan_and_fix]. *)
Definition scan_step (s : str) (protected : list span) (close_on_newline : bool)
    (st : scan_state) : result scan_state :=
  let i := s_i st in
  if _in_protected i protected then
    match find (covers i) protected with
    | Some (_, en) => Ok (emit st (slice s i en) en)
    | None => Ok st
    end
  else
    ch <- list_get s i;;
    if (code ch =? 10) && close_on_newline && negb (is_empty_list (s_stack st)) then
      st' <- close_at_newline (s_stack st) st;;
      Ok (emit st' [ch] (i + 1))
    else
      match find (fun t => startswith s t i) _tokens with
      | None => Ok (emit st [ch] (i + 1))
      | Some tok =>
          let bs := _count_trailing_backslashes (firstn i s) in
          if bs mod 2 =? 1 then Ok (emit st tok (i + length tok))
          else
            currency <- (if str_eqb tok (lit "$") && is_empty_list (s_stack st)
                         then _looks_like_currency s i else Ok false);;
            if currency then Ok (emit st (lit "$") (i + 1))
            else handle_token st tok
      end.

Fixpoint scan_loop (fuel : nat) (s : str) (protected : list span)
    (close_on_newline : bool) (st : scan_state) : result scan_state :=
  if s_i st <? length s then
    match fuel with
    | 0 => Diverge
    | S fuel' =>
        st' <- scan_step s protected close_on_newline st;;
        scan_loop fuel' s protected close_on_newline st'
    end
  else Ok st.

Definition scan_init : scan_state := mkScan 0 [] [] [].

Definition _scan_and_fix (s : str) (protected : list span) (close_on_newline : bool)
    : result (str * list Edit) :=
  st <- scan_loop (length s) s protected close_on_newline scan_init;;
  st' <- close_at_end (length s) (s_stack st) st;;
  Ok (concat (s_out st'), s_edits st').

(** [LaTeXFixer(close_on_newline=...).fix(text)]. *)
Definition LaTeXFixer_fix (text : str) (close_on_newline : bool)
    : result (str * list Edit) :=
  protected <- _protected_spans text;;
  _scan_and_fix text protected close_on_newline.

(** [x.replace(...)] etc. on the value of [match.group(2)]. *)
Definition as_str (x : option str) : result str :=
  match x with
  | Some t => Ok t
  | None => Raise AttributeError
  end.

(** The replacement template ") \\\\\1": a group that took no part expands
    to the empty string. *)
Definition jammed_template (content : str) (m : Match) : result str :=
  Ok (lit ") \\" ++ match group content m 1 with Some t => t | None => [] end).

(** The local function [replacer] of [fix_align_environments]. *)
Definition replacer (text : str) (m : Match) : result str :=
  content <- as_str (group text m 2);;
  let content := replace (replace content (lit "$$$$") []) (lit "$$") [] in
  content <- re_sub content jammed_re (jammed_template content);;
  Ok (lit "$$" ++ NL ++ lit "\begin{aligned}" ++ NL ++ strip content ++ NL
      ++ lit "\end{aligned}" ++ NL ++ lit "$$").

Definition fix_align_environments (text : str) : result str :=
  re_sub text align_re (replacer text).

Definition fix_latex_delimiters (text : str) (close_on_newline : bool)
    : result (str * list Edit) :=
  '(fixed, edits) <- LaTeXFixer_fix text close_on_newline;;
  fixed' <- fix_align_environments fixed;;
  Ok (fixed', edits).

(* ================================================================== *)
(** ** What a pattern matches, as a relation                           *)
(* ================================================================== *)

(** [R i g j g']: from index [i] with bindings [g] to index [j] with
    bindings [g']. *)
Definition rel : Type := nat -> groups -> nat -> groups -> Prop.

Fixpoint iter_rel (n : nat) (R : rel) : rel :=
  fun i g j g' =>
    match n with
    | 0 => j = i /\ g' = g
    | S n' => exists m gm, R i g m gm /\ iter_rel n' R m gm j g'
    end.

Definition within (hi : option nat) (n : nat) : Prop :=
  match hi with
  | Some h => n <= h
  | None => True
  end.

(** The matches of [r] in [s], without the priorities of the matcher. *)
Fixpoint sem (s : str) (r : regex) : rel :=
  fun i g j g' =>
    match r with
    | Empty => j = i /\ g' = g
    | Chr c => nth_error s i = Some c /\ j = S i /\ g' = g
    | Cls p => (exists c, nth_error s i = Some c /\ p c = true) /\ j = S i /\ g' = g
    | Cat r1 r2 => exists m gm, sem s r1 i g m gm /\ sem s r2 m gm j g'
    | Alt r1 r2 => sem s r1 i g j g' \/ sem s r2 i g j g'
    | Rep _ lo hi r' =>
        exists n, lo <= n /\ within (bound_minus hi lo) (n - lo)
                  /\ iter_rel n (sem s r') i g j g'
    | Grp n r' => exists g1, sem s r' i g j g1 /\ g' = (n, (i, j)) :: g1
    | Backref n =>
        exists a b, group_span g n = Some (a, b)
                    /\ startswith s (slice s a b) i = true
                    /\ j = i + length (slice s a b) /\ g' = g
    | Bol m => at_bol s m i = true /\ j = i /\ g' = g
    | Eol m => at_eol s m i = true /\ j = i /\ g' = g
    | WordB => at_word_boundary s i = true /\ j = i /\ g' = g
    end.

(** A step of the matcher that only finds what the relation allows. *)
Definition sound_step (step : cont -> cont) (R : rel) : Prop :=
  forall k i g res,
    step k i g = Some res -> exists j g', R i g j g' /\ k j g' = Some res.

(* ================================================================== *)
(** ** Notions used to state the properties                            *)
(* ================================================================== *)

(** A successful match of [r] binds group [n]. *)
Definition binds (s : str) (r : regex) (n : nat) : Prop :=
  forall i g j g', sem s r i g j g' -> exists sp, group_span g' n = Some sp.

(** Every entry of the stack holds an opener, a key of [_matching]. *)
Definition openers_only (stack : list entry) : Prop :=
  Forall (fun e => exists closer, dict_get _matching (entry_tok e) = Ok closer) stack.

(** The states the [while] loop of [_scan_and_fix] goes through. *)
Inductive reachable (s : str) (protected : list span) (close_on_newline : bool)
  : scan_state -> Prop :=
| reach_init : reachable s protected close_on_newline scan_init
| reach_step st st' :
    reachable s protected close_on_newline st ->
    s_i st < length s ->
    scan_step s protected close_on_newline st = Ok st' ->
    reachable s protected close_on_newline st'.

(** The delimiter token that starts at index [i], the longest first. *)
Definition token_at (s : str) (i : nat) : option str :=
  find (fun t => startswith s t i) _tokens.

(** An odd number of backslashes stands right before index [i]. *)
Definition escaped (s : str) (i : nat) : bool :=
  _count_trailing_backslashes (firstn i s) mod 2 =? 1.

(** The dollar at index [i] reads as a currency sign. *)
Definition currency_at (s : str) (i : nat) : bool :=
  match _looks_like_currency s i with
  | Ok b => b
  | _ => false
  end.

(** The closer an opener requires. *)
Definition closer_of (tok_open : str) : str :=
  match dict_get _matching tok_open with
  | Ok c => c
  | _ => []
  end.

Definition is_some {A : Type} (o : option A) : bool :=
  match o with
  | Some _ => true
  | None => false
  end.

(** A text whose math delimiters are balanced, read off section 4.5 of the
    specification: protected spans are skipped; escaped tokens and currency
    dollars are plain text; outside math only an opener may come, and it
    starts math; inside math, opened by [open_tok], the next token must be
    the closer that opener requires, no line may end when [close_on_newline]
    is set, and the text may not end.  [balanced_from] reads the text from
    index [i] on. *)
Fixpoint balanced_from (fuel : nat) (s : str) (spans : list span)
    (close_on_newline : bool) (open_tok : option str) (i : nat) : bool :=
  if length s <=? i then negb (is_some open_tok)
  else
    match fuel with
    | 0 => false
    | S fuel' =>
        match find (covers i) spans with
        | Some (_, en) => balanced_from fuel' s spans close_on_newline open_tok en
        | None =>
            if newline_at s i && close_on_newline && is_some open_tok then false
            else
              match token_at s i with
              | None => balanced_from fuel' s spans close_on_newline open_tok (i + 1)
              | Some tok =>
                  if escaped s i then
                    balanced_from fuel' s spans close_on_newline open_tok (i + length tok)
                  else
                    match open_tok with
                    | None =>
                        if str_eqb tok (lit "$") && currency_at s i then
                          balanced_from fuel' s spans close_on_newline None (i + 1)
                        else if dict_has _matching tok then
                          balanced_from fuel' s spans close_on_newline (Some tok)
                            (i + length tok)
                        else false
                    | Some o =>
                        if str_eqb tok (closer_of o) then
                          balanced_from fuel' s spans close_on_newline None
                            (i + length tok)
                        else false
                    end
              end
        end
    end.

Definition balanced (s : str) (spans : list span) (close_on_newline : bool) : bool :=
  balanced_from (length s) s spans close_on_newline None 0.

(** Every delimiter token of [s] starts inside one of the [regions]. *)
Definition tokens_within (s : str) (regions : list span) : bool :=
  forallb (fun i => negb (is_some (token_at s i)) || existsb (covers i) regions)
          (seq 0 (length s)).

(** The spans matched by the code-fence pattern of latex.py. *)
Definition backtick_fences (s : str) : list span :=
  map span_of (finditer s _code_fence).

(** The span [sp] lies inside one of [spans]. *)
Definition covered_by (spans : list span) (sp : span) : Prop :=
  exists sp', In sp' spans /\ fst sp' <= fst sp /\ snd sp <= snd sp'.

(** The text has no align-family environment for [fix_align_environments]
    to rewrite. *)
Definition no_align_env (s : str) : bool :=
  negb (is_some (re_search s align_re 0)).

(** No line of the list is an opening-fence line. *)
Definition no_fence_lines (lines : list str) : bool :=
  forallb (fun line => negb (matches line OPEN_FENCE_RE)) lines.


(** How the stack of the scan mirrors what is open. *)
Definition stack_for (open_tok : option str) (stack : list entry) : Prop :=
  match open_tok with
  | None => stack = []
  | Some o => exists a b, stack = [(o, a, b)] /\ dict_has _matching o = true
  end.

(** Spans in the order of their starts. *)
Definition starts_le (a b : span) : Prop := fst a <= fst b.

(** The closer and the edit that the end of the text gives an entry left
    open, as the loop after the scan builds them. *)
Definition end_closer (e : entry) : str := closer_of (entry_tok e).

Definition end_edit (n : nat) (e : entry) : Edit :=
  mkEdit Insert n [] (end_closer e)
    (lit "Inserted missing closer " ++ end_closer e ++ lit " at end of document").

(** Sample texts. *)

(** The text of [test_stray_closing_fence]. *)
Definition stray_fence_text : str :=
  lit "some text" ++ NL ++ lit "```" ++ NL ++ lit "print('x')" ++ NL
  ++ lit "```" ++ NL ++ lit "```".

Definition tilde_fenced_text : str := lit "~~~" ++ NL ++ lit "$x" ++ NL ++ lit "~~~".

Definition backtick_fenced_text : str :=
  lit "```python" ++ NL ++ lit "x = '$notmath'" ++ NL ++ lit "```".

Definition align_text : str := lit "\begin{align}x\end{align}".

Definition display_math_text : str := lit "\[" ++ NL ++ lit "x" ++ NL ++ lit "\]".

Definition inline_math_text : str := lit "This is $x+1$ inline math.".

Definition price_text : str := lit "The price is $12.50 today.".

Definition two_lines_text : str := lit "hello" ++ NL ++ lit "world".

(** A character of a number: a digit, a point or a comma. *)
Definition numeral_ch (c : ascii) : bool := is_digit c || one_of ".," c.

(** The length of the longest run of such characters at the start of [t]. *)
Fixpoint numeral_run (t : str) : nat :=
  match t with
  | c :: t' => if numeral_ch c then S (numeral_run t') else 0
  | [] => 0
  end.

(** The dollar at index [i] is followed by a digit, and the number that
    starts there, digits with points and commas, is not followed by another
    dollar. *)
Definition currency_shaped (s : str) (i : nat) : bool :=
  match nth_error s i, nth_error s (i + 1) with
  | Some d, Some c =>
      ch_eqb d "$" && is_digit c
      && negb match nth_error s (i + 1 + numeral_run (skipn (i + 1) s)) with
              | Some x => ch_eqb x "$"
              | None => false
              end
  | _, _ => false
  end.

(** The pattern reads only characters of the class [q] (and has no
    back-reference). *)
Fixpoint only_chars (q : ascii -> bool) (r : regex) : Prop :=
  match r with
  | Chr c => q c = true
  | Cls p => forall c, p c = true -> q c = true
  | Cat r1 r2 | Alt r1 r2 => only_chars q r1 /\ only_chars q r2
  | Rep _ _ _ r' | Grp _ r' => only_chars q r'
  | Backref _ => False
  | _ => True
  end.

(** A continuation that accepts wherever it is called. *)
Definition total_cont (k : cont) : Prop := forall j g, k j g <> None.







(** Notions used by the further properties. *)

(** A character of a closer: a backslash, a dollar, a closing bracket or
    a closing parenthesis. *)
Definition closer_ch (c : ascii) : bool := one_of "\$])" c.

(** The text without the characters of closers. *)
Definition keep_plain (t : str) : str := filter (fun c => negb (closer_ch c)) t.

(** The closers, the values of [_matching]. *)
Definition is_closer_str (t : str) : bool := existsb (str_eqb t) (map snd _matching).

(** The token is one of the two that only close. *)
Definition closes_only (t : str) : bool := str_eqb t (lit "\]") || str_eqb t (lit "\)").

(** The shape of an edit: an insertion adds a closer, a deletion removes
    one of the tokens that only close, and a replacement puts a different
    closer in the place of such a token. *)
Definition edit_shape (e : Edit) : bool :=
  match kind e with
  | Insert => is_empty (before e) && is_closer_str (after e)
  | Delete => closes_only (before e) && is_empty (after e)
  | Replace => closes_only (before e) && is_closer_str (after e)
               && negb (str_eqb (before e) (after e))
  end.

(** An edit of the text [s]: it has the shape above and its [before] is
    what [s] has at its position. *)
Definition edit_of (s : str) (e : Edit) : Prop :=
  edit_shape e = true /\ startswith s (before e) (pos e) = true.

(** The characters that the edits of a list take out and put in. *)
Definition chars_removed (l : list Edit) : nat :=
  list_sum (map (fun e => length (before e)) l).

Definition chars_added (l : list Edit) : nat :=
  list_sum (map (fun e => length (after e)) l).

(** What a piece of the scan of [s] did between the states [st] and [st']:
    the output grew by [piece] up to characters of closers, and the edits
    grew by edits of [s] at the index of [st]; where no edit was added the
    output grew by [piece] itself, and in any case the lengths add up. *)
Definition scan_delta (s : str) (st st' : scan_state) (piece : str) : Prop :=
  keep_plain (concat (s_out st')) = keep_plain (concat (s_out st) ++ piece)
  /\ exists new,
       s_edits st' = s_edits st ++ new
       /\ Forall (fun e => pos e = s_i st /\ edit_of s e) new
       /\ (new = [] -> concat (s_out st') = concat (s_out st) ++ piece)
       /\ length (concat (s_out st')) + chars_removed new
          = length (concat (s_out st)) + length piece + chars_added new.

(** Each span of the list ends before the next one starts. *)
Fixpoint apart (l : list span) : bool :=
  match l with
  | a :: ((b :: _) as rest) => (snd a <? fst b) && apart rest
  | _ => true
  end.

(** A span that is not empty and lies in a text of length [n]. *)
Definition span_within (n : nat) (sp : span) : Prop := fst sp < snd sp <= n.

(** The pattern reads a character before anything else. *)
Fixpoint reads_first (r : regex) : bool :=
  match r with
  | Chr _ | Cls _ => true
  | Cat r1 _ => reads_first r1
  | Grp _ r' => reads_first r'
  | Alt r1 r2 => reads_first r1 && reads_first r2
  | _ => false
  end.

(** The number of characters [c] that [t] starts with. *)
Fixpoint char_run (c : ascii) (t : str) : nat :=
  match t with
  | x :: t' => if ch_eqb c x then S (char_run c t') else 0
  | [] => 0
  end.

(** The text is one line: it has no line feed. *)
Definition one_line (s : str) : bool := forallb (fun c => negb (code c =? 10)) s.

(** Every delimiter token of [s] is escaped or starts inside one of the
    [regions]. *)
Definition tokens_escaped (s : str) (regions : list span) : bool :=
  forallb (fun i => negb (is_some (token_at s i)) || escaped s i
                    || existsb (covers i) regions)
          (seq 0 (length s)).

(** While a block is open, [open_line] is the number, counted from one, of
    a line of [lines] that is an opening fence. *)
Definition open_line_ok (lines : list str) (st : fence_state) : Prop :=
  in_block st = true ->
  exists line,
    1 <= open_line st
    /\ nth_error lines (open_line st - 1) = Some line
    /\ matches line OPEN_FENCE_RE = true.

(* ================================================================== *)
(** ** Properties                                                      *)
(* ================================================================== *)

Section MatcherSound.

Variable s : str.

Lemma rep_opt_sound step R greedy :
  sound_step step R ->
  forall fuel hi k i g res,
    rep_opt step greedy fuel hi k i g = Some res ->
    exists n j g', within hi n /\ iter_rel n R i g j g' /\ k j g' = Some res.
Proof.
  intros Hstep fuel.
  induction fuel as [|fuel IH]; intros hi k i g res H; simpl in H.
  - exists 0, i, g. repeat split; auto. destruct hi; simpl; lia.
  - destruct (bound_reached hi) eqn:Hb.
    + exists 0, i, g. repeat split; auto. destruct hi; simpl; lia.
    + match type of H with
      | context [step ?f i g] => remember (step f i g) as more eqn:Hm
      end.
      assert (Hmore : forall res', more = Some res' ->
                 exists n j g', within hi n /\ iter_rel n R i g j g' /\ k j g' = Some res').
      { intros res' Hs. rewrite Hm in Hs.
        apply Hstep in Hs. destruct Hs as (m & gm & HR & Hk).
        destruct (i <? m); [|discriminate].
        apply IH in Hk. destruct Hk as (n & j & g' & Hw & Hit & Hk).
        exists (S n), j, g'. repeat split; auto.
        - destruct hi as [[|h]|]; simpl in *; try discriminate; lia.
        - simpl. exists m, gm. auto. }
      assert (Hzero : forall res', k i g = Some res' ->
                 exists n j g', within hi n /\ iter_rel n R i g j g' /\ k j g' = Some res').
      { intros res' Hk. exists 0, i, g. repeat split; auto.
        destruct hi; simpl; lia. }
      clear Hm.
      destruct greedy.
      * destruct more as [r0|].
        -- inversion H; subst. apply Hmore. reflexivity.
        -- apply Hzero. exact H.
      * destruct (k i g) as [r0|] eqn:Hk.
        -- inversion H; subst. apply Hzero. reflexivity.
        -- apply Hmore. exact H.
Qed.

Lemma rep_min_sound step R (tail : cont -> cont) (T : rel) :
  sound_step step R -> sound_step tail T ->
  forall lo k i g res,
    rep_min step lo tail k i g = Some res ->
    exists m gm j g', iter_rel lo R i g m gm /\ T m gm j g' /\ k j g' = Some res.
Proof.
  intros Hstep Htail lo.
  induction lo as [|lo IH]; intros k i g res H; simpl in H.
  - apply Htail in H. destruct H as (j & g' & HT & Hk).
    exists i, g, j, g'. simpl. auto.
  - apply Hstep in H. destruct H as (m & gm & HR & Hk).
    apply IH in Hk. destruct Hk as (m' & gm' & j & g' & Hit & HT & Hk).
    exists m', gm', j, g'. repeat split; auto. simpl. exists m, gm. auto.
Qed.

Lemma iter_rel_app (R : rel) a b i g m gm j g' :
  iter_rel a R i g m gm -> iter_rel b R m gm j g' -> iter_rel (a + b) R i g j g'.
Proof.
  revert i g. induction a as [|a IH]; intros i g Ha Hb; simpl in *.
  - destruct Ha; subst. exact Hb.
  - destruct Ha as (m1 & g1 & HR & Ha). exists m1, g1. split; auto.
Qed.

(** Whatever the matcher finds is a match of the pattern. *)
Lemma mtch_sound r : sound_step (mtch s r) (sem s r).
Proof.
  induction r; intros k i g res H; cbn [mtch] in H.
  - exists i, g. simpl. auto.
  - unfold char_at in H. destruct (nth_error s i) as [c'|] eqn:Hc; [|discriminate].
    destruct (ch_eqb c c') eqn:He; [|discriminate].
    apply Ascii.eqb_eq in He. subst c'.
    exists (S i), g. simpl. auto.
  - unfold char_at in H. destruct (nth_error s i) as [c'|] eqn:Hc; [|discriminate].
    destruct (p c') eqn:Hp; [|discriminate].
    exists (S i), g. simpl. repeat split; auto. exists c'. auto.
  - apply IHr1 in H. destruct H as (m & gm & H1 & H).
    apply IHr2 in H. destruct H as (j & g' & H2 & H).
    exists j, g'. split; auto. simpl. exists m, gm. auto.
  - destruct (mtch s r1 k i g) eqn:H1.
    + inversion H; subst. apply IHr1 in H1. destruct H1 as (j & g' & H1 & Hk).
      exists j, g'. simpl. auto.
    + apply IHr2 in H. destruct H as (j & g' & H2 & Hk).
      exists j, g'. simpl. auto.
  - eapply rep_min_sound with (R := sem s r)
      (T := fun i g j g' => exists n, within (bound_minus hi lo) n
                                      /\ iter_rel n (sem s r) i g j g') in H; auto.
    + destruct H as (m & gm & j & g' & Hlo & (n & Hw & Hn) & Hk).
      exists j, g'. split; auto. simpl. exists (lo + n). repeat split.
      * lia.
      * replace (lo + n - lo) with n by lia. exact Hw.
      * eapply iter_rel_app; eauto.
    + intros k' i' g0 res' H'.
      eapply rep_opt_sound in H'; eauto.
      destruct H' as (n & j & g' & Hw & Hit & Hk).
      exists j, g'. split; auto. exists n. auto.
  - apply IHr in H. destruct H as (j & g' & Hr & Hk).
    exists j, ((n, (i, j)) :: g'). split; auto. simpl. exists g'. auto.
  - destruct (group_span g n) as [[a b]|] eqn:Hg; [|discriminate].
    destruct (startswith s (slice s a b) i) eqn:Hs; [|discriminate].
    exists (i + length (slice s a b)), g. split; auto. simpl. exists a, b. auto.
  - destruct (at_bol s multiline i) eqn:Hb; [|discriminate].
    exists i, g. simpl. auto.
  - destruct (at_eol s multiline i) eqn:Hb; [|discriminate].
    exists i, g. simpl. auto.
  - destruct (at_word_boundary s i) eqn:Hb; [|discriminate].
    exists i, g. simpl. auto.
Qed.

End MatcherSound.

(** *** Facts about lists and slices *)

Lemma slice_length (s : str) a b : b <= length s -> length (slice s a b) = b - a.
Proof.
  intros H. unfold slice. rewrite length_firstn, length_skipn. lia.
Qed.

Lemma list_get_ok {A : Type} (xs : list A) i :
  i < length xs -> exists x, list_get xs i = Ok x.
Proof.
  intros H. unfold list_get.
  destruct (nth_error xs i) as [x|] eqn:E.
  - exists x. reflexivity.
  - apply nth_error_None in E. lia.
Qed.

Lemma str_eqb_eq a b : str_eqb a b = true <-> a = b.
Proof.
  revert b. induction a as [|x a IH]; intros [|y b]; simpl; split; intros H;
    try reflexivity; try discriminate.
  - apply andb_true_iff in H. destruct H as [H1 H2].
    apply Ascii.eqb_eq in H1. apply IH in H2. subst. reflexivity.
  - inversion H; subst. apply andb_true_iff. split.
    + apply Ascii.eqb_refl.
    + apply IH. reflexivity.
Qed.

Lemma str_eqb_refl a : str_eqb a a = true.
Proof. apply str_eqb_eq. reflexivity. Qed.

(** *** What the fence patterns capture *)

Ltac break_sem :=
  repeat match goal with
         | H : exists _, _ |- _ => destruct H
         | H : _ /\ _ |- _ => destruct H
         end.

(** Repeating a step that reads one character. *)
Lemma iter_char_inv (s : str) (R : rel) n :
  (forall i g j g', R i g j g' -> j = S i /\ g' = g /\ i < length s) ->
  forall i g j g',
    iter_rel n R i g j g' ->
    j = i + n /\ g' = g /\ (n = 0 \/ j <= length s).
Proof.
  intros HR. induction n as [|n IH]; intros i g j g' H; simpl in H.
  - destruct H; subst. repeat split; auto.
  - destruct H as (m & gm & H1 & Hit). apply HR in H1. destruct H1 as (? & ? & ?).
    subst. apply IH in Hit. destruct Hit as (Hj & Hg & Hb). subst.
    repeat split; auto; lia.
Qed.

Ltac iter_inv s H :=
  apply (iter_char_inv s) in H;
  [ destruct H as (? & ? & ?)
  | let c := fresh "c" in
    let Hc := fresh "Hc" in
    intros ? ? ? ? [[c [Hc _]] [? ?]]; repeat split; auto;
    apply nth_error_Some; congruence ].

(** A match of a pattern that starts as the fence patterns do binds group 1
    to a run of at least three characters of the line. *)
Lemma fence_prefix_inv s rest i g j g' :
  sem s (Cat (Bol false) (Cat (Star Space)
           (Cat (Grp 1 (Rep true 3 None (Cls fence_ch))) rest))) i g j g' ->
  exists a b m,
    a + 3 <= b /\ b <= length s
    /\ sem s rest m ((1, (a, b)) :: g) j g'.
Proof.
  intros H. simpl in H. break_sem. subst.
  repeat match goal with
  | H : iter_rel _ _ _ _ _ _ |- _ => iter_inv s H
  end.
  subst.
  match goal with
  | H : sem s rest ?m ((1, (?a, ?b)) :: _) j g' |- _ =>
      exists a, b, m; repeat split; [| |exact H]
  end.
  - lia.
  - match goal with H : _ \/ _ |- _ <= length s => destruct H; lia end.
Qed.

Lemma open_fence_group1 line m :
  re_match line OPEN_FENCE_RE = Some m ->
  exists a b, group_span (m_groups m) 1 = Some (a, b)
              /\ a + 3 <= b /\ b <= length line.
Proof.
  unfold re_match, match_at. intros H.
  destruct (mtch line OPEN_FENCE_RE _ 0 []) as [[j g]|] eqn:E; [|discriminate].
  inversion H; subst; clear H. simpl.
  apply mtch_sound in E. destruct E as (j' & g' & Hs & Hk).
  inversion Hk; subst; clear Hk.
  apply fence_prefix_inv in Hs. destruct Hs as (a & b & m0 & Hab & Hb & Hs).
  exists a, b. split; [|auto].
  simpl in Hs. break_sem. subst.
  repeat match goal with
  | H : iter_rel _ _ _ _ _ _ |- _ => iter_inv line H
  end.
  subst. reflexivity.
Qed.

Lemma close_fence_group1 line m :
  re_match line CLOSE_FENCE_RE = Some m ->
  exists a b, group_span (m_groups m) 1 = Some (a, b)
              /\ a + 3 <= b /\ b <= length line.
Proof.
  unfold re_match, match_at. intros H.
  destruct (mtch line CLOSE_FENCE_RE _ 0 []) as [[j g]|] eqn:E; [|discriminate].
  inversion H; subst; clear H. simpl.
  apply mtch_sound in E. destruct E as (j' & g' & Hs & Hk).
  inversion Hk; subst; clear Hk.
  apply fence_prefix_inv in Hs. destruct Hs as (a & b & m0 & Hab & Hb & Hs).
  exists a, b. split; [|auto].
  simpl in Hs. break_sem. subst.
  repeat match goal with
  | H : iter_rel _ _ _ _ _ _ |- _ => iter_inv line H
  end.
  subst. reflexivity.
Qed.

(** [m.group(1)[0]] and [len(m.group(1))] never raise on a fence match. *)
Lemma fence_group1_ok line m a b :
  group_span (m_groups m) 1 = Some (a, b) -> a + 3 <= b -> b <= length line ->
  (exists c, getitem (group line m 1) 0 = Ok c)
  /\ len (group line m 1) = Ok (b - a).
Proof.
  intros Hg Hab Hb. unfold group. rewrite Hg. simpl. split.
  - apply list_get_ok. rewrite slice_length; lia.
  - rewrite slice_length; auto.
Qed.

(** *** The code-fence functions return *)

Lemma track_line_ok st i line : exists st', track_line st i line = Ok st'.
Proof.
  unfold track_line. destruct (negb (in_block st)).
  - destruct (re_match line OPEN_FENCE_RE) as [m|] eqn:E; [|eauto].
    destruct (open_fence_group1 _ _ E) as (a & b & Hg & Hab & Hb).
    destruct (fence_group1_ok line m a b Hg Hab Hb) as [[c Hc] Hl].
    rewrite Hc, Hl. simpl. eauto.
  - destruct (re_match line CLOSE_FENCE_RE) as [m|] eqn:E; [|eauto].
    destruct (close_fence_group1 _ _ E) as (a & b & Hg & Hab & Hb).
    destruct (fence_group1_ok line m a b Hg Hab Hb) as [[c Hc] Hl].
    rewrite Hc. cbn [bind]. destruct (opt_ch_eqb c (fence_char st)); [|eauto].
    rewrite Hl. cbn [bind]. destruct (fence_len st <=? b - a); eauto.
Qed.

Lemma track_lines_ok lines : forall st i, exists st', track_lines st i lines = Ok st'.
Proof.
  induction lines as [|line rest IH]; intros st i; simpl.
  - eauto.
  - destruct (track_line_ok st i line) as [st' ->]. cbn [bind]. apply IH.
Qed.

Lemma validate_code_fences_ok text : exists r, validate_code_fences text = Ok r.
Proof.
  unfold validate_code_fences.
  destruct (track_lines_ok (splitlines text) (mkFenceState false None 0 0) 1) as [st ->].
  simpl. destruct (count_lines _ 1 (splitlines text)) as [d issues]. eauto.
Qed.

Lemma looks_like_section_boundary_ok lines idx :
  idx < length lines -> exists b, looks_like_section_boundary lines idx = Ok b.
Proof.
  intros H. unfold looks_like_section_boundary.
  destruct (list_get_ok lines idx H) as [cur ->]. cbn [bind].
  destruct (existsb _ SECTION_MARKERS); [eauto|].
  destruct (matches cur ATX_HEADER_RE); [|eauto].
  unfold _prev_nonblank_is_blank.
  destruct (0 <? idx) eqn:E.
  - assert (Hp : idx - 1 < length lines) by lia.
    destruct (list_get_ok lines (idx - 1) Hp) as [prev ->]. cbn [bind].
    destruct (is_empty (strip prev)); eauto.
  - cbn [bind]. eauto.
Qed.

Lemma closes_block_ok line orig_series flen :
  (exists c, getitem orig_series 0 = Ok c) ->
  exists b, closes_block line orig_series flen = Ok b.
Proof.
  intros [c0 H0]. unfold closes_block.
  destruct (re_match line CLOSE_FENCE_RE) as [m|] eqn:E; [|eauto].
  destruct (close_fence_group1 _ _ E) as (a & b & Hg & Hab & Hb).
  destruct (fence_group1_ok line m a b Hg Hab Hb) as [[c Hc] Hl].
  rewrite Hc, H0. cbn [bind]. destruct (ch_eqb c c0); [|eauto].
  rewrite Hl. cbn [bind]. eauto.
Qed.

(** The inner loop ends within [length lines - i] turns, and never before
    line [i]. *)
Lemma collect_block_ok lines orig_series flen :
  (exists c, getitem orig_series 0 = Ok c) ->
  forall fuel i code_buf changes,
    length lines - i <= fuel ->
    exists closed i' code_buf' changes',
      collect_block fuel lines orig_series flen i code_buf changes
      = Ok (closed, i', code_buf', changes')
      /\ i <= i'.
Proof.
  intros Horig fuel.
  induction fuel as [|fuel IH]; intros i code_buf changes Hf; cbn [collect_block].
  - destruct (i <? length lines) eqn:E.
    + apply Nat.ltb_lt in E. lia.
    + eauto 10.
  - destruct (i <? length lines) eqn:E; [|eauto 10].
    apply Nat.ltb_lt in E.
    destruct (list_get_ok lines i E) as [line ->]. cbn [bind].
    destruct (closes_block_ok line orig_series flen Horig) as [b ->]. cbn [bind].
    destruct b.
    + exists true, (S i), code_buf, changes. split; auto.
    + destruct (looks_like_section_boundary_ok lines i E) as [b' ->]. cbn [bind].
      destruct b'.
      * eauto 10.
      * destruct (IH (S i) (code_buf ++ [line]) changes) as (c & i' & cb & ch & H & Hi).
        { lia. }
        rewrite H. exists c, i', cb, ch. split; auto. lia.
Qed.

Lemma rebuild_block_ok default_lang fch flen lang closed code_buf changes :
  exists r, rebuild_block default_lang fch flen lang closed code_buf changes = Ok r.
Proof.
  unfold rebuild_block.
  set (runs := map _ (finditer _ _)).
  assert (Hl : exists n, match runs with
                         | [] => Ok 3
                         | _ :: _ => m <- py_max runs;; Ok (m + 1)
                         end = Ok n).
  { destruct runs; simpl; eauto. }
  destruct Hl as [n ->]. cbn [bind].
  match goal with
  | |- exists r, bind ?e _ = _ =>
      assert (He : exists p, e = Ok p)
  end.
  { destruct (is_empty (lower lang)); [|eauto].
    destruct (guess_lang (join NL code_buf)) as [[|c g]|] eqn:Eg; simpl.
    - destruct default_lang as [[|d ds]|]; simpl; eauto.
    - eauto.
    - destruct default_lang as [[|d ds]|]; simpl; eauto. }
  destruct He as [[nl ch] ->]. cbn [bind]. eauto.
Qed.

Lemma fix_loop_ok lines default_lang keep :
  forall fuel i out changes,
    length lines - i <= fuel ->
    exists r, fix_loop fuel lines default_lang keep i out changes = Ok r.
Proof.
  intros fuel.
  induction fuel as [|fuel IH]; intros i out changes Hf; cbn [fix_loop].
  - destruct (i <? length lines) eqn:E; [|eauto].
    apply Nat.ltb_lt in E. lia.
  - destruct (i <? length lines) eqn:E; [|eauto].
    apply Nat.ltb_lt in E.
    destruct (list_get_ok lines i E) as [line ->]. cbn [bind].
    destruct (re_match line OPEN_FENCE_RE) as [m|] eqn:Em.
    + destruct (open_fence_group1 _ _ Em) as (a & b & Hg & Hab & Hb).
      destruct (fence_group1_ok line m a b Hg Hab Hb) as [[c Hc] Hl].
      assert (Hfch : exists fch,
                 (if keep then getitem (group line m 1) 0 else Ok "`"%char) = Ok fch).
      { destruct keep; eauto. }
      destruct Hfch as [fch ->]. cbn [bind]. rewrite Hl. cbn [bind].
      destruct (collect_block_ok lines (group line m 1) (b - a) (ex_intro _ c Hc)
                  (length lines) (S i) [] changes)
        as (closed & i' & cb & ch & Hcb & Hi); [lia|].
      rewrite Hcb. cbn [bind].
      destruct (rebuild_block_ok default_lang fch (b - a)
                  (strip match group line m 2 with Some t => t | None => [] end)
                  closed cb ch) as [[block ch'] ->].
      cbn [bind]. apply IH. lia.
    + apply IH. lia.
Qed.

Lemma fix_code_fences_ok text default_lang keep :
  exists r, fix_code_fences text default_lang keep = Ok r.
Proof.
  unfold fix_code_fences.
  destruct (fix_loop_ok (splitlines text) default_lang keep
              (length (splitlines text)) 0 [] []) as [[out ch] ->]; [lia|].
  simpl. eauto.
Qed.

Lemma ensure_fenced_code_ok text default_lang keep :
  exists r, ensure_fenced_code text default_lang keep = Ok r.
Proof.
  unfold ensure_fenced_code.
  destruct (validate_code_fences_ok text) as [[ok issues] ->]. cbn [bind].
  destruct (fix_code_fences_ok text default_lang keep) as [[fixed ch] ->].
  destruct (negb ok); simpl.
  - destruct (validate_code_fences_ok fixed) as [[ok2 i2] ->]. cbn [bind]. eauto.
  - eauto.
Qed.

(** *** Matches found by [search], [finditer] and [sub] *)

Lemma match_at_sem s r i m :
  match_at s r i = Some m ->
  m_start m = i /\ sem s r i [] (m_end m) (m_groups m).
Proof.
  unfold match_at. intros H.
  destruct (mtch s r _ i []) as [[j g]|] eqn:E; [|discriminate].
  inversion H; subst; clear H. simpl. split; auto.
  apply mtch_sound in E. destruct E as (j' & g' & Hs & Hk).
  inversion Hk; subst. exact Hs.
Qed.

Lemma search_from_sem s r : forall fuel i m,
  search_from s r fuel i = Some m ->
  i <= m_start m /\ sem s r (m_start m) [] (m_end m) (m_groups m).
Proof.
  induction fuel as [|fuel IH]; intros i m H; simpl in H.
  - destruct (match_at s r i) as [m'|] eqn:E; [|discriminate].
    inversion H; subst. apply match_at_sem in E. destruct E as [<- E]. auto.
  - destruct (match_at s r i) as [m'|] eqn:E.
    + inversion H; subst. apply match_at_sem in E. destruct E as [<- E]. auto.
    + apply IH in H. destruct H. split; auto. lia.
Qed.

Lemma re_search_sem s r pos m :
  re_search s r pos = Some m ->
  pos <= m_start m /\ sem s r (m_start m) [] (m_end m) (m_groups m).
Proof. apply search_from_sem. Qed.

Lemma finditer_from_sem s r : forall fuel pos m,
  In m (finditer_from s r fuel pos) ->
  sem s r (m_start m) [] (m_end m) (m_groups m).
Proof.
  induction fuel as [|fuel IH]; intros pos m H; simpl in H; [contradiction|].
  destruct (re_search s r pos) as [m'|] eqn:E; [|contradiction].
  destruct H as [<-|H].
  - apply re_search_sem in E. tauto.
  - eapply IH; eauto.
Qed.

Lemma sub_from_ok s r repl :
  (forall pos m, re_search s r pos = Some m -> exists t, repl m = Ok t) ->
  forall fuel pos, exists t, sub_from s r repl fuel pos = Ok t.
Proof.
  intros Hrepl fuel.
  induction fuel as [|fuel IH]; intros pos; simpl; [eauto|].
  destruct (re_search s r pos) as [m|] eqn:E; [|eauto].
  destruct (Hrepl _ _ E) as [t ->]. cbn [bind].
  destruct (IH (next_pos m)) as [t' ->]. cbn [bind]. eauto.
Qed.

(** Nothing to replace: [sub] gives the text back. *)
Lemma re_sub_no_match s r repl :
  re_search s r 0 = None -> re_sub s r repl = Ok s.
Proof.
  intros H. unfold re_sub. simpl. rewrite H. reflexivity.
Qed.

(** *** Groups that a match is sure to bind *)

Lemma iter_keeps_bound (R : rel) n0 :
  (forall i g j g', R i g j g' ->
     (exists sp, group_span g n0 = Some sp) -> exists sp, group_span g' n0 = Some sp) ->
  forall n i g j g',
    iter_rel n R i g j g' ->
    (exists sp, group_span g n0 = Some sp) -> exists sp, group_span g' n0 = Some sp.
Proof.
  intros HR. induction n as [|n IH]; intros i g j g' H Hb; simpl in H.
  - destruct H; subst. exact Hb.
  - destruct H as (m & gm & H1 & H2). eapply IH; eauto.
Qed.

(** Bindings are only added. *)
Lemma sem_keeps_bound s r n0 : forall i g j g',
  sem s r i g j g' ->
  (exists sp, group_span g n0 = Some sp) -> exists sp, group_span g' n0 = Some sp.
Proof.
  induction r; intros i g j g' H Hb; cbn [sem] in H;
    try (destruct H as (_ & _ & ->); exact Hb).
  - destruct H as (_ & ->). exact Hb.
  - destruct H as (m & gm & H1 & H2). eauto.
  - destruct H as [H|H]; eauto.
  - destruct H as (n & _ & _ & Hit). eapply iter_keeps_bound; eauto.
  - destruct H as (g1 & H1 & ->). simpl.
    destruct (n =? n0); eauto.
  - destruct H as (a & b & _ & _ & _ & ->). exact Hb.
Qed.

Lemma binds_grp s n r : binds s (Grp n r) n.
Proof.
  intros i g j g' H. simpl in H. destruct H as (g1 & _ & ->).
  simpl. rewrite Nat.eqb_refl. eauto.
Qed.

Lemma binds_cat_l s r1 r2 n : binds s r1 n -> binds s (Cat r1 r2) n.
Proof.
  intros H1 i g j g' H. simpl in H. destruct H as (m & gm & Ha & Hb).
  eapply sem_keeps_bound; eauto.
Qed.

Lemma binds_cat_r s r1 r2 n : binds s r2 n -> binds s (Cat r1 r2) n.
Proof.
  intros H2 i g j g' H. simpl in H. destruct H as (m & gm & Ha & Hb).
  eapply H2; eauto.
Qed.

Lemma verb_env_open_binds s : binds s _verb_env_open 1.
Proof.
  unfold _verb_env_open. cbn [Seq].
  apply binds_cat_r, binds_cat_l, binds_grp.
Qed.

Lemma align_binds s : binds s align_re 2.
Proof.
  unfold align_re. cbn [Seq].
  apply binds_cat_r, binds_cat_r, binds_cat_r, binds_cat_l, binds_grp.
Qed.

(** *** The LaTeX functions return *)

Lemma map_result_ok {A B : Type} (f : A -> result B) l :
  (forall x, In x l -> exists y, f x = Ok y) ->
  exists ys, map_result f l = Ok ys.
Proof.
  induction l as [|x l IH]; intros H; simpl; [eauto|].
  destruct (H x (or_introl eq_refl)) as [y ->]. cbn [bind].
  destruct IH as [ys ->]; [intros; apply H; right; auto|].
  cbn [bind]. eauto.
Qed.

Lemma _protected_spans_ok s : exists spans, _protected_spans s = Ok spans.
Proof.
  unfold _protected_spans.
  destruct (map_result_ok (verb_env_span s) (finditer s _verb_env_open)) as [envs ->].
  - intros m Hm. apply finditer_from_sem in Hm.
    apply verb_env_open_binds in Hm. destruct Hm as [[a b] Hg].
    unfold verb_env_span, group. rewrite Hg. cbn [escape bind].
    destruct (re_search s _ (m_end m)); eauto.
  - cbn [bind]. eauto.
Qed.

(** *** Tokens *)

Lemma token_at_some s i tok :
  token_at s i = Some tok -> In tok _tokens /\ startswith s tok i = true.
Proof. unfold token_at. apply find_some. Qed.

Ltac each_token H :=
  cbv [_tokens] in H; cbn [In] in H;
  repeat (destruct H as [H|H]; [symmetry in H; subst|]); [ .. | contradiction].

Lemma token_length tok : In tok _tokens -> 1 <= length tok <= 2.
Proof. intros H. each_token H; simpl; lia. Qed.

(** A token that acts as an opener is a key of [_matching]. *)
Lemma opener_has_closer tok stack :
  In tok _tokens -> is_opener tok stack = true ->
  exists closer, dict_get _matching tok = Ok closer.
Proof.
  intros H Ho. each_token H; try (eexists; reflexivity);
    cbv in Ho; discriminate.
Qed.

(** A token that acts as a closer is [\]], [\)], or the opener on top of
    the stack. *)
Lemma closer_cases tok stack :
  In tok _tokens -> is_opener tok stack = false ->
  tok = lit "\]" \/ tok = lit "\)"
  \/ exists e rest, stack = e :: rest /\ entry_tok e = tok.
Proof.
  intros H Ho. each_token H; auto; try (cbv in Ho; discriminate).
  - right; right. unfold is_opener in Ho. cbn in Ho.
    destruct stack as [|e rest]; [discriminate|].
    exists e, rest. split; auto.
    apply negb_false_iff in Ho. apply str_eqb_eq in Ho. exact Ho.
  - right; right. unfold is_opener in Ho. cbn in Ho.
    destruct stack as [|e rest]; [discriminate|].
    exists e, rest. split; auto.
    apply negb_false_iff in Ho. apply str_eqb_eq in Ho. exact Ho.
Qed.

Lemma existsb_find {A : Type} (f : A -> bool) l :
  existsb f l = true -> exists x, find f l = Some x /\ f x = true.
Proof.
  induction l as [|a l IH]; simpl; intros H; [discriminate|].
  destruct (f a) eqn:E; [eauto|]. simpl in H. auto.
Qed.

Lemma find_existsb {A : Type} (f : A -> bool) l :
  existsb f l = false -> find f l = None.
Proof.
  induction l as [|a l IH]; simpl; intros H; [reflexivity|].
  destruct (f a); [discriminate|]. simpl in H. auto.
Qed.

Lemma _looks_like_currency_ok s i : exists b, _looks_like_currency s i = Ok b.
Proof.
  unfold _looks_like_currency.
  destruct (re_match (skipn i s) currency_re) as [m|]; [|eauto].
  destruct (_ <? length s) eqn:E; [|eauto].
  apply Nat.ltb_lt in E. destruct (list_get_ok s _ E) as [c ->]. cbn [bind].
  destruct (ch_eqb c "$"); eauto.
Qed.

Lemma insert_closer_ok st tok_open where_desc closer :
  dict_get _matching tok_open = Ok closer ->
  insert_closer st tok_open where_desc
  = Ok (mkScan (s_i st) (s_out st ++ [closer])
          (s_edits st ++
             [mkEdit Insert (s_i st) [] closer
                (lit "Inserted missing closer " ++ closer ++ lit " for " ++ tok_open
                 ++ lit " " ++ where_desc)])
          (s_stack st)).
Proof. intros H. unfold insert_closer. rewrite H. reflexivity. Qed.

Lemma close_at_newline_ok : forall stack st,
  openers_only stack ->
  exists st', close_at_newline stack st = Ok st'
              /\ s_i st' = s_i st /\ s_stack st' = [].
Proof.
  induction stack as [|e rest IH]; intros st Ho; simpl.
  - eexists. split; [reflexivity|]. auto.
  - inversion Ho as [|e' r' [closer Hc] Hr]; subst.
    rewrite (insert_closer_ok _ _ _ _ Hc). cbn [bind].
    destruct (IH (mkScan (s_i (set_stack st rest)) (s_out (set_stack st rest) ++ [closer])
                    (s_edits (set_stack st rest) ++
                       [mkEdit Insert (s_i (set_stack st rest)) [] closer
                          (lit "Inserted missing closer " ++ closer ++ lit " for "
                           ++ entry_tok e ++ lit " " ++ lit "at end of line")])
                    (s_stack (set_stack st rest))) Hr) as (st' & H & Hi & Hs).
    exists st'. auto.
Qed.

(** The token branch: it returns, moves past the token, keeps only
    openers on the stack and never lets it grow beyond one entry. *)
Lemma handle_token_ok st tok :
  In tok _tokens -> openers_only (s_stack st) ->
  exists st', handle_token st tok = Ok st'
              /\ s_i st' = s_i st + length tok
              /\ openers_only (s_stack st')
              /\ (length (s_stack st) <= 1 -> length (s_stack st') <= 1).
Proof.
  intros Htok Ho. unfold handle_token.
  destruct (is_opener tok (s_stack st)) eqn:Eo.
  - destruct (opener_has_closer _ _ Htok Eo) as [ctok Hctok].
    destruct (s_stack st) as [|e rest] eqn:Es.
    + cbn [bind]. eexists. split; [reflexivity|]. cbn. rewrite ?Es.
      repeat split; auto. constructor; [|constructor].
      exists ctok. exact Hctok.
    + inversion Ho as [|e' r' [closer Hc] Hr]; subst.
      rewrite (insert_closer_ok _ _ _ _ Hc). cbn [bind].
      eexists. split; [reflexivity|]. cbn.
      repeat split; auto; try (simpl; lia).
      constructor; auto. exists ctok. exact Hctok.
  - destruct (s_stack st) as [|e rest] eqn:Es.
    + eexists. split; [reflexivity|]. cbn. repeat split; auto.
    + inversion Ho as [|e' r' [closer Hc] Hr]; subst.
      rewrite Hc. cbn [bind].
      destruct (str_eqb tok closer);
        (eexists; split; [reflexivity|]; cbn; repeat split; auto; simpl; lia).
Qed.

(** One turn of the scan loop returns and moves on. *)
Lemma scan_step_ok s protected cnl st :
  s_i st < length s -> openers_only (s_stack st) ->
  exists st', scan_step s protected cnl st = Ok st'
              /\ s_i st < s_i st'
              /\ openers_only (s_stack st')
              /\ (length (s_stack st) <= 1 -> length (s_stack st') <= 1).
Proof.
  intros Hi Ho. unfold scan_step.
  destruct (_in_protected (s_i st) protected) eqn:Ep.
  - apply existsb_find in Ep. destruct Ep as ([a en] & -> & Hc).
    eexists. split; [reflexivity|]. cbn.
    unfold covers in Hc. apply andb_true_iff in Hc. destruct Hc as [_ Hc].
    apply Nat.ltb_lt in Hc. simpl in Hc. repeat split; auto.
  - destruct (list_get_ok s _ Hi) as [ch ->]. cbn [bind].
    destruct ((code ch =? 10) && cnl && negb (is_empty_list (s_stack st))).
    + destruct (close_at_newline_ok (s_stack st) st Ho) as (st' & -> & Hi' & Hs').
      cbn [bind]. eexists. split; [reflexivity|]. cbn.
      rewrite Hs'. repeat split; auto; try lia. constructor.
    + fold (token_at s (s_i st)).
      destruct (token_at s (s_i st)) as [tok|] eqn:Et.
      * apply token_at_some in Et. destruct Et as [Htok Hsw].
        pose proof (token_length _ Htok) as Hlen.
        destruct (_ mod 2 =? 1).
        -- eexists. split; [reflexivity|]. cbn. repeat split; auto. lia.
        -- match goal with
           | |- exists st', bind ?e _ = _ /\ _ =>
               assert (Hcur : exists b, e = Ok b)
           end.
           { destruct (str_eqb tok (lit "$") && is_empty_list (s_stack st));
               [apply _looks_like_currency_ok|eauto]. }
           destruct Hcur as [cur ->]. cbn [bind].
           destruct cur.
           ++ eexists. split; [reflexivity|]. cbn. repeat split; auto. lia.
           ++ destruct (handle_token_ok st tok Htok Ho) as (st' & -> & Hi' & Ho' & Hd).
              exists st'. repeat split; auto. lia.
      * eexists. split; [reflexivity|]. cbn. repeat split; auto. lia.
Qed.

Lemma scan_loop_ok s protected cnl : forall fuel st,
  length s - s_i st <= fuel -> openers_only (s_stack st) ->
  exists st', scan_loop fuel s protected cnl st = Ok st'
              /\ openers_only (s_stack st').
Proof.
  induction fuel as [|fuel IH]; intros st Hf Ho; cbn [scan_loop].
  - destruct (s_i st <? length s) eqn:E; [|eauto].
    apply Nat.ltb_lt in E. lia.
  - destruct (s_i st <? length s) eqn:E; [|eauto].
    apply Nat.ltb_lt in E.
    destruct (scan_step_ok s protected cnl st E Ho) as (st1 & -> & Hi & Ho1 & _).
    cbn [bind]. apply IH; auto. lia.
Qed.

Lemma close_at_end_ok n : forall stack st,
  openers_only stack -> exists st', close_at_end n stack st = Ok st'.
Proof.
  induction stack as [|e rest IH]; intros st Ho; simpl; [eauto|].
  inversion Ho as [|e' r' [closer Hc] Hr]; subst.
  rewrite Hc. cbn [bind]. apply IH. exact Hr.
Qed.

Lemma _scan_and_fix_ok s protected cnl :
  exists r, _scan_and_fix s protected cnl = Ok r.
Proof.
  unfold _scan_and_fix.
  destruct (scan_loop_ok s protected cnl (length s) scan_init) as (st & -> & Ho).
  - simpl. lia.
  - constructor.
  - cbn [bind]. destruct (close_at_end_ok (length s) (s_stack st) st Ho) as [st' ->].
    cbn [bind]. eauto.
Qed.

Lemma LaTeXFixer_fix_ok text cnl : exists r, LaTeXFixer_fix text cnl = Ok r.
Proof.
  unfold LaTeXFixer_fix.
  destruct (_protected_spans_ok text) as [spans ->]. cbn [bind].
  apply _scan_and_fix_ok.
Qed.

Lemma replacer_ok text pos m :
  re_search text align_re pos = Some m -> exists t, replacer text m = Ok t.
Proof.
  intros H. apply re_search_sem in H. destruct H as [_ H].
  apply align_binds in H. destruct H as [[a b] Hg].
  unfold replacer, group. rewrite Hg. cbn [as_str bind].
  match goal with
  | |- exists t, bind (re_sub ?c ?r ?f) _ = _ =>
      destruct (sub_from_ok c r f) with (fuel := S (length c)) (pos := 0) as [t Ht]
  end.
  - intros. unfold jammed_template. eauto.
  - unfold re_sub. rewrite Ht. cbn [bind]. eauto.
Qed.

Lemma fix_align_environments_ok text : exists t, fix_align_environments text = Ok t.
Proof.
  unfold fix_align_environments, re_sub. apply sub_from_ok.
  intros pos m. apply replacer_ok.
Qed.

Lemma fix_latex_delimiters_ok text cnl : exists r, fix_latex_delimiters text cnl = Ok r.
Proof.
  unfold fix_latex_delimiters.
  destruct (LaTeXFixer_fix_ok text cnl) as [[fixed edits] ->]. cbn [bind].
  destruct (fix_align_environments_ok fixed) as [t ->]. cbn [bind]. eauto.
Qed.

(** *** The scan on a balanced text *)

Lemma firstn_plus {A : Type} a b : forall l : list A,
  firstn (a + b) l = firstn a l ++ firstn b (skipn a l).
Proof.
  induction a as [|a IH]; intros l; simpl; [reflexivity|].
  destruct l as [|x l]; simpl.
  - rewrite firstn_nil. reflexivity.
  - rewrite IH. reflexivity.
Qed.

Lemma firstn_slice (s : str) i j :
  i <= j -> firstn j s = firstn i s ++ slice s i j.
Proof.
  intros H. unfold slice. rewrite <- firstn_plus. f_equal. lia.
Qed.

Lemma firstn_next (s : str) i c :
  nth_error s i = Some c -> firstn (i + 1) s = firstn i s ++ [c].
Proof.
  intros H. rewrite firstn_plus. f_equal.
  pose proof (nth_error_skipn i s 0) as Hs. rewrite Nat.add_0_r, H in Hs.
  destruct (skipn i s) as [|x l]; simpl in *; [discriminate|].
  inversion Hs; subst. reflexivity.
Qed.

Lemma startswith_slice s t i :
  startswith s t i = true -> slice s i (i + length t) = t.
Proof. unfold startswith. apply str_eqb_eq. Qed.

Lemma concat_snoc (out : list str) piece : concat (out ++ [piece]) = concat out ++ piece.
Proof. rewrite concat_app. simpl. rewrite app_nil_r. reflexivity. Qed.

Lemma list_get_nth {A : Type} (xs : list A) i x :
  list_get xs i = Ok x -> nth_error xs i = Some x.
Proof.
  unfold list_get. destruct (nth_error xs i); intros H; inversion H; reflexivity.
Qed.

Lemma matching_keys o :
  dict_has _matching o = true ->
  o = lit "\[" \/ o = lit "\(" \/ o = lit "$$" \/ o = lit "$".
Proof.
  unfold dict_has, _matching. cbn [existsb fst].
  intros H. repeat (apply orb_true_iff in H; destruct H as [H|H]);
    try discriminate; apply str_eqb_eq in H; auto.
Qed.

(** One turn of the scan on a balanced text copies what it reads, records
    no edit, and leaves the rest of the text balanced. *)
Lemma balanced_step s spans cnl fuel st open_tok :
  s_i st < length s ->
  balanced_from (S fuel) s spans cnl open_tok (s_i st) = true ->
  stack_for open_tok (s_stack st) ->
  concat (s_out st) = firstn (s_i st) s ->
  s_edits st = [] ->
  exists st1 open1,
    scan_step s spans cnl st = Ok st1
    /\ balanced_from fuel s spans cnl open1 (s_i st1) = true
    /\ stack_for open1 (s_stack st1)
    /\ concat (s_out st1) = firstn (s_i st1) s
    /\ s_edits st1 = [].
Proof.
  intros Hi Hb Hst Hout Hed.
  cbn [balanced_from] in Hb.
  assert (Hle : (length s <=? s_i st) = false) by (apply Nat.leb_gt; exact Hi).
  rewrite Hle in Hb. unfold scan_step.
  destruct (find (covers (s_i st)) spans) as [[a en]|] eqn:Ef.
  - (* inside a protected span *)
    assert (Hp : _in_protected (s_i st) spans = true).
    { apply find_some in Ef. apply existsb_exists. exists (a, en). exact Ef. }
    rewrite Hp. exists (emit st (slice s (s_i st) en) en), open_tok.
    apply find_some in Ef. destruct Ef as [_ Hc].
    unfold covers in Hc. apply andb_true_iff in Hc. destruct Hc as [_ Hc].
    apply Nat.ltb_lt in Hc. cbn in Hc. cbn.
    repeat split; auto.
    rewrite concat_snoc, Hout. symmetry. apply firstn_slice. lia.
  - assert (Hp : _in_protected (s_i st) spans = false).
    { destruct (_in_protected (s_i st) spans) eqn:E; [|reflexivity].
      apply existsb_find in E. destruct E as (x & E & _). congruence. }
    rewrite Hp.
    destruct (list_get_ok s _ Hi) as [ch Hch]. rewrite Hch. cbn [bind].
    apply list_get_nth in Hch.
    assert (Hnl : newline_at s (s_i st) = (code ch =? 10)).
    { unfold newline_at, char_at. rewrite Hch. reflexivity. }
    rewrite Hnl in Hb.
    assert (Hne : negb (is_empty_list (s_stack st)) = is_some open_tok).
    { destruct open_tok; simpl in Hst.
      - destruct Hst as (a & b & -> & _). reflexivity.
      - rewrite Hst. reflexivity. }
    rewrite Hne.
    destruct ((code ch =? 10) && cnl && is_some open_tok); [discriminate|].
    fold (token_at s (s_i st)).
    destruct (token_at s (s_i st)) as [tok|] eqn:Et.
    + apply token_at_some in Et. destruct Et as [Htok Hsw].
      apply startswith_slice in Hsw.
      assert (Hemit : concat (s_out st ++ [tok]) = firstn (s_i st + length tok) s).
      { rewrite concat_snoc, Hout. rewrite <- Hsw at 1. symmetry.
        apply firstn_slice. lia. }
      unfold escaped in Hb.
      destruct (_ mod 2 =? 1).
      * (* an escaped token *)
        exists (emit st tok (s_i st + length tok)), open_tok. cbn.
        repeat split; auto.
      * destruct open_tok as [o|]; simpl in Hst.
        -- (* inside math: the token closes it *)
           destruct Hst as (a & b & Hstack & Ho).
           rewrite Hstack. cbn [is_empty_list andb]. rewrite andb_false_r.
           cbn [bind].
           destruct (str_eqb tok (closer_of o)) eqn:Ec; [|discriminate].
           apply str_eqb_eq in Ec. subst tok.
           unfold handle_token. rewrite Hstack.
           assert (Hcl : is_opener (closer_of o) [(o, a, b)] = false
                         /\ dict_get _matching (entry_tok (o, a, b)) = Ok (closer_of o)).
           { apply matching_keys in Ho.
             destruct Ho as [ -> | [ -> | [ -> | -> ]]]; split; reflexivity. }
           destruct Hcl as [-> ->]. cbn [bind]. rewrite str_eqb_refl.
           eexists. exists None. split; [reflexivity|]. cbn.
           repeat split; auto.
        -- (* outside math: currency, or an opener *)
           rewrite Hst. cbn [is_empty_list]. rewrite andb_true_r.
           destruct (_looks_like_currency_ok s (s_i st)) as [cur Hcur].
           unfold currency_at in Hb. rewrite Hcur in Hb.
           destruct (str_eqb tok (lit "$")) eqn:Ed.
           ++ rewrite Hcur. cbn [bind]. cbn [andb] in Hb.
              apply str_eqb_eq in Ed. subst tok.
              destruct cur.
              ** exists (emit st (lit "$") (s_i st + 1)), None. cbn.
                 repeat split; auto.
              ** cbn in Hb. unfold handle_token. rewrite Hst. cbn.
                 eexists. exists (Some (lit "$")). split; [reflexivity|]. cbn.
                 rewrite ?Hst. repeat split; auto. exists (length (s_out st)), (s_i st).
                 split; reflexivity.
           ++ cbn [bind andb] in *.
              destruct (dict_has _matching tok) eqn:Eh; [|discriminate].
              unfold handle_token. rewrite Hst.
              assert (Hop : is_opener tok [] = true).
              { apply matching_keys in Eh.
                destruct Eh as [ -> | [ -> | [ -> | -> ]]]; reflexivity. }
              rewrite Hop. cbn [bind].
              eexists. exists (Some tok). split; [reflexivity|]. cbn.
              rewrite ?Hst. repeat split; auto. exists (length (s_out st)), (s_i st).
              split; auto.
    + exists (emit st [ch] (s_i st + 1)), open_tok. cbn.
      repeat split; auto.
      rewrite concat_snoc, Hout. symmetry. apply firstn_next. exact Hch.
Qed.

Lemma balanced_loop s spans cnl : forall fuel st open_tok,
  balanced_from fuel s spans cnl open_tok (s_i st) = true ->
  stack_for open_tok (s_stack st) ->
  concat (s_out st) = firstn (s_i st) s ->
  s_edits st = [] ->
  exists st', scan_loop fuel s spans cnl st = Ok st'
              /\ s_stack st' = [] /\ concat (s_out st') = s /\ s_edits st' = [].
Proof.
  assert (Hend : forall fuel st open_tok,
             (s_i st <? length s) = false ->
             balanced_from fuel s spans cnl open_tok (s_i st) = true ->
             stack_for open_tok (s_stack st) ->
             concat (s_out st) = firstn (s_i st) s ->
             s_out st = s_out st ->
             s_stack st = [] /\ concat (s_out st) = s).
  { intros fuel st open_tok E Hb Hst Hout _.
    apply Nat.ltb_ge in E.
    assert (Hle : (length s <=? s_i st) = true) by (apply Nat.leb_le; exact E).
    destruct fuel; cbn [balanced_from] in Hb; rewrite Hle in Hb;
      (destruct open_tok; [discriminate|]);
      (split; [exact Hst|rewrite Hout; apply firstn_all2; exact E]). }
  induction fuel as [|fuel IH]; intros st open_tok Hb Hst Hout Hed; cbn [scan_loop].
  - destruct (s_i st <? length s) eqn:E.
    + apply Nat.ltb_lt in E. cbn [balanced_from] in Hb.
      assert (Hle : (length s <=? s_i st) = false) by (apply Nat.leb_gt; exact E).
      rewrite Hle in Hb. discriminate.
    + destruct (Hend 0 st open_tok E Hb Hst Hout eq_refl). eauto.
  - destruct (s_i st <? length s) eqn:E.
    + apply Nat.ltb_lt in E.
      destruct (balanced_step s spans cnl fuel st open_tok E Hb Hst Hout Hed)
        as (st1 & open1 & -> & Hb1 & Hst1 & Hout1 & Hed1).
      cbn [bind]. eapply IH; eauto.
    + destruct (Hend (S fuel) st open_tok E Hb Hst Hout eq_refl). eauto.
Qed.

(** The scan gives a balanced text back, without an edit. *)
Lemma scan_balanced_identity s spans cnl :
  balanced s spans cnl = true -> _scan_and_fix s spans cnl = Ok (s, []).
Proof.
  intros H. unfold _scan_and_fix.
  destruct (balanced_loop s spans cnl (length s) scan_init None H)
    as (st & -> & Hs & Ho & He); try reflexivity.
  cbn [bind]. rewrite Hs. cbn [close_at_end bind set_stack s_out s_edits].
  rewrite Ho, He. reflexivity.
Qed.

(** A text whose tokens all start inside the spans is balanced. *)
Lemma no_token_balanced s spans cnl :
  (forall i, i < length s -> find (covers i) spans = None -> token_at s i = None) ->
  forall fuel i, length s - i <= fuel ->
    balanced_from fuel s spans cnl None i = true.
Proof.
  intros Hno. induction fuel as [|fuel IH]; intros i Hf; cbn [balanced_from].
  - assert (Hle : (length s <=? i) = true) by (apply Nat.leb_le; lia).
    rewrite Hle. reflexivity.
  - destruct (length s <=? i) eqn:Hle; [reflexivity|].
    apply Nat.leb_gt in Hle.
    destruct (find (covers i) spans) as [[a en]|] eqn:Ef.
    + apply find_some in Ef. destruct Ef as [_ Hc].
      unfold covers in Hc. apply andb_true_iff in Hc. destruct Hc as [_ Hc].
      apply Nat.ltb_lt in Hc. cbn in Hc. apply IH. lia.
    + rewrite (Hno i Hle Ef). cbn [is_some]. rewrite andb_false_r.
      apply IH. lia.
Qed.

(** *** Sorting and merging the protected spans *)

Lemma insert_span_In x y l : In y (insert_span x l) <-> y = x \/ In y l.
Proof.
  induction l as [|z l IH]; simpl.
  - intuition auto.
  - destruct (span_leb x z); simpl; [intuition auto|].
    rewrite IH. intuition auto.
Qed.

Lemma sort_spans_In y l : In y (sort_spans l) <-> In y l.
Proof.
  induction l as [|x l IH]; simpl; [tauto|].
  rewrite insert_span_In, IH. intuition auto.
Qed.

Lemma span_leb_false x y : span_leb x y = false -> starts_le y x.
Proof.
  unfold span_leb, starts_le. intros H.
  apply orb_false_iff in H. destruct H as [H _].
  apply Nat.ltb_ge in H. exact H.
Qed.

Lemma span_leb_true x y : span_leb x y = true -> starts_le x y.
Proof.
  unfold span_leb, starts_le. intros H.
  apply orb_true_iff in H. destruct H as [H|H].
  - apply Nat.ltb_lt in H. lia.
  - apply andb_true_iff in H. destruct H as [H _]. apply Nat.eqb_eq in H. lia.
Qed.

Lemma insert_span_sorted x l :
  StronglySorted starts_le l -> StronglySorted starts_le (insert_span x l).
Proof.
  induction 1 as [|y l Hs IH Hy]; simpl.
  - constructor; constructor.
  - destruct (span_leb x y) eqn:E.
    + apply span_leb_true in E. constructor.
      * constructor; assumption.
      * constructor; [exact E|].
        eapply Forall_impl; [|exact Hy].
        intros z Hz. unfold starts_le in *. lia.
    + apply span_leb_false in E. constructor; [exact IH|].
      apply Forall_forall. intros z Hz. apply insert_span_In in Hz.
      destruct Hz as [ -> |Hz]; [exact E|].
      rewrite Forall_forall in Hy. auto.
Qed.

Lemma sort_spans_sorted l : StronglySorted starts_le (sort_spans l).
Proof.
  induction l as [|x l IH]; simpl; [constructor|].
  apply insert_span_sorted. exact IH.
Qed.

Lemma covered_by_refl spans sp : In sp spans -> covered_by spans sp.
Proof. intros H. exists sp. auto. Qed.

(** One turn of the merging loop keeps what was covered, covers the new
    span, and starts no span before the starts seen so far. *)
Lemma merge_step_props merged x :
  (forall m, In m merged -> starts_le m x) ->
  (forall m', In m' (merge_step merged x) ->
     exists m, (In m merged \/ m = x) /\ fst m' = fst m)
  /\ (forall sp, covered_by merged sp -> covered_by (merge_step merged x) sp)
  /\ covered_by (merge_step merged x) x.
Proof.
  intros Hle. unfold merge_step. destruct x as [st en].
  destruct (rev merged) as [|[a b] r] eqn:Er.
  - assert (merged = []) by (rewrite <- (rev_involutive merged), Er; reflexivity).
    subst merged. simpl. repeat split.
    + intros m' [<-|[]]. exists (st, en). auto.
    + intros sp (sp' & [] & _).
    + apply covered_by_refl. simpl. auto.
  - assert (Hm : merged = rev r ++ [(a, b)])
      by (rewrite <- (rev_involutive merged), Er; reflexivity).
    destruct (b <? st) eqn:E.
    + repeat split.
      * intros m' Hm'. apply in_app_or in Hm'. destruct Hm' as [Hm'|[<-|[]]].
        -- exists m'. auto.
        -- exists (st, en). auto.
      * intros sp (sp' & Hin & Hc). exists sp'. split; auto.
        apply in_or_app. auto.
      * apply covered_by_refl. apply in_or_app. right. simpl. auto.
    + apply Nat.ltb_ge in E. rewrite Hm, removelast_last. repeat split.
      * intros m' Hm'. apply in_app_or in Hm'. destruct Hm' as [Hm'|[<-|[]]].
        -- exists m'. split; auto. left. apply in_or_app. auto.
        -- exists (a, b). split; auto. left. apply in_or_app. right. simpl. auto.
      * intros sp (sp' & Hin & Hc1 & Hc2).
        apply in_app_or in Hin. destruct Hin as [Hin|[<-|[]]].
        -- exists sp'. split; [apply in_or_app; auto|auto].
        -- exists (a, Nat.max b en). split; [apply in_or_app; right; simpl; auto|].
           simpl in *. lia.
      * exists (a, Nat.max b en). split; [apply in_or_app; right; simpl; auto|].
        assert (Ha : starts_le (a, b) (st, en)).
        { apply Hle. rewrite Hm. apply in_or_app. right. simpl. auto. }
        unfold starts_le in Ha. simpl in *. lia.
Qed.

Lemma merge_fold_cover : forall l merged,
  StronglySorted starts_le l ->
  (forall m x, In m merged -> In x l -> starts_le m x) ->
  forall sp, covered_by merged sp \/ In sp l ->
             covered_by (fold_left merge_step l merged) sp.
Proof.
  induction l as [|x l IH]; intros merged Hs Hle sp Hsp; simpl.
  - destruct Hsp as [H|[]]. exact H.
  - inversion Hs as [|x' l' Hs' Hx]; subst.
    destruct (merge_step_props merged x) as (Hfst & Hkeep & Hnew).
    { intros m Hm. apply Hle; simpl; auto. }
    apply IH; auto.
    + intros m' y Hm' Hy. apply Hfst in Hm'. destruct Hm' as (m & [Hm| -> ] & Hf).
      * unfold starts_le. rewrite Hf. apply Hle; simpl; auto.
      * unfold starts_le. rewrite Hf. rewrite Forall_forall in Hx. apply Hx. exact Hy.
    + destruct Hsp as [H|[<-|H]]; auto.
Qed.

(** Every span found is inside one of the merged spans. *)
Lemma merged_spans_cover spans sp :
  In sp spans -> covered_by (merge_spans (sort_spans spans)) sp.
Proof.
  intros H. unfold merge_spans. apply merge_fold_cover.
  - apply sort_spans_sorted.
  - intros m x [].
  - right. apply sort_spans_In. exact H.
Qed.

(** The spans of the code-fence pattern are protected. *)
Lemma backtick_fences_protected s spans sp :
  _protected_spans s = Ok spans -> In sp (backtick_fences s) -> covered_by spans sp.
Proof.
  unfold _protected_spans. intros H Hin.
  destruct (map_result (verb_env_span s) (finditer s _verb_env_open)) as [envs| |];
    cbn [bind] in H; try discriminate.
  inversion H; subst. apply merged_spans_cover.
  apply in_or_app. left. exact Hin.
Qed.

(** *** The repairer outside fenced blocks *)

(** With enough fuel the outer loop does not depend on it. *)
Lemma fix_loop_fuel lines default_lang keep : forall fuel1 fuel2 i out changes,
  length lines - i <= fuel1 -> length lines - i <= fuel2 ->
  fix_loop fuel1 lines default_lang keep i out changes
  = fix_loop fuel2 lines default_lang keep i out changes.
Proof.
  induction fuel1 as [|fuel1 IH]; intros fuel2 i out changes H1 H2.
  - destruct fuel2; cbn [fix_loop];
      (destruct (i <? length lines) eqn:E; [apply Nat.ltb_lt in E; lia|reflexivity]).
  - destruct fuel2 as [|fuel2]; cbn [fix_loop];
      destruct (i <? length lines) eqn:E; try reflexivity;
      apply Nat.ltb_lt in E; try lia.
    destruct (list_get lines i) as [line| |]; cbn [bind]; try reflexivity.
    destruct (re_match line OPEN_FENCE_RE) as [m|] eqn:Em.
    + destruct (if keep then getitem (group line m 1) 0 else Ok "`"%char)
        as [fch| |]; cbn [bind]; try reflexivity.
      destruct (len (group line m 1)) as [flen| |] eqn:El; cbn [bind]; try reflexivity.
      destruct (open_fence_group1 _ _ Em) as (a & b & Hg & Hab & Hb).
      destruct (fence_group1_ok line m a b Hg Hab Hb) as [[c Hc] _].
      destruct (collect_block_ok lines (group line m 1) flen (ex_intro _ c Hc)
                  (length lines) (S i) [] changes)
        as (closed & i' & cb & ch & Hcb & Hi); [lia|].
      rewrite Hcb. cbn [bind].
      destruct (rebuild_block _ _ _ _ _ _ _) as [[block ch']| |]; cbn [bind];
        try reflexivity.
      apply IH; lia.
    + apply IH; lia.
Qed.

Lemma skipn_nth_cons {A : Type} (l : list A) i x :
  nth_error l i = Some x -> skipn i l = x :: skipn (S i) l.
Proof.
  revert i. induction l as [|y l IH]; intros [|i] H; simpl in *; try discriminate.
  - inversion H; reflexivity.
  - apply IH. exact H.
Qed.

(** Wherever the outer loop stands, a run of [n] lines with no opening
    fence goes to the output as it is, and no change is recorded. *)
Lemma fix_loop_prose lines default_lang keep : forall n fuel i out changes,
  length lines - i <= fuel ->
  i + n <= length lines ->
  no_fence_lines (firstn n (skipn i lines)) = true ->
  fix_loop fuel lines default_lang keep i out changes
  = fix_loop fuel lines default_lang keep (i + n)
      (out ++ firstn n (skipn i lines)) changes.
Proof.
  induction n as [|n IH]; intros fuel i out changes Hf Hn Hno.
  - rewrite Nat.add_0_r. simpl. rewrite app_nil_r. reflexivity.
  - assert (Hi : i < length lines) by lia.
    destruct (list_get_ok lines i Hi) as [line Hline].
    pose proof (list_get_nth _ _ _ Hline) as Hnth.
    rewrite (skipn_nth_cons _ _ _ Hnth) in *. cbn [firstn] in *.
    cbn [no_fence_lines forallb] in Hno. apply andb_true_iff in Hno.
    destruct Hno as [Hm Hrest]. apply negb_true_iff in Hm.
    destruct fuel as [|fuel]; [lia|].
    match goal with |- _ = ?rhs => set (R := rhs) end.
    cbn [fix_loop]. assert (E : (i <? length lines) = true) by (apply Nat.ltb_lt; lia).
    rewrite E, Hline. cbn [bind].
    unfold matches in Hm. destruct (re_match line OPEN_FENCE_RE); [discriminate|].
    rewrite (fix_loop_fuel _ _ _ fuel (S fuel)) by lia.
    rewrite (IH (S fuel) (S i) (out ++ [line]) changes) by (auto; lia).
    subst R. rewrite <- app_assoc. simpl.
    replace (S (i + n)) with (i + S n) by lia. reflexivity.
Qed.

Lemma fix_loop_done lines default_lang keep fuel i out changes :
  length lines <= i ->
  fix_loop fuel lines default_lang keep i out changes = Ok (out, changes).
Proof.
  intros H. assert (E : (i <? length lines) = false) by (apply Nat.ltb_ge; exact H).
  destruct fuel; cbn [fix_loop]; rewrite E; reflexivity.
Qed.

Lemma fix_code_fences_no_fence text default_lang keep :
  no_fence_lines (splitlines text) = true ->
  fix_code_fences text default_lang keep = Ok (join NL (splitlines text), []).
Proof.
  intros H. unfold fix_code_fences.
  rewrite (fix_loop_prose (splitlines text) default_lang keep (length (splitlines text)));
    try lia.
  - simpl. rewrite firstn_all, fix_loop_done by lia. reflexivity.
  - simpl. rewrite firstn_all. exact H.
Qed.




(** *** Single turns of the scan *)

Lemma slice_head (s : str) i j c t :
  slice s i j = c :: t -> nth_error s i = Some c.
Proof.
  unfold slice. intros H. rewrite <- hd_error_skipn.
  destruct (skipn i s) as [|x l]; [rewrite firstn_nil in H; discriminate|].
  destruct (j - i); simpl in H; [discriminate|]. inversion H; reflexivity.
Qed.

(** A token starts with a backslash or a dollar, never with a line feed. *)
Lemma token_first_char s i tok :
  token_at s i = Some tok ->
  exists ch, list_get s i = Ok ch /\ (code ch =? 10) = false.
Proof.
  intros H. apply token_at_some in H. destruct H as [Htok Hsw].
  apply startswith_slice in Hsw.
  each_token Htok; cbn in Hsw; apply slice_head in Hsw;
    unfold list_get; rewrite Hsw; eexists; split; reflexivity.
Qed.

Lemma close_at_end_spec n : forall stack st,
  openers_only stack ->
  close_at_end n stack st
  = Ok (mkScan (s_i st) (s_out st ++ map end_closer stack)
          (s_edits st ++ map (end_edit n) stack) []).
Proof.
  induction stack as [|e rest IH]; intros st Ho; simpl.
  - rewrite !app_nil_r. reflexivity.
  - inversion Ho as [|e' r' [closer Hc] Hr]; subst.
    rewrite Hc. cbn [bind]. rewrite IH by exact Hr. cbn.
    unfold end_edit, end_closer, closer_of. rewrite Hc.
    rewrite <- !app_assoc. reflexivity.
Qed.

(** Every state of the scan holds at most one entry, and only openers. *)
Lemma reachable_invariant s protected cnl st :
  reachable s protected cnl st ->
  length (s_stack st) <= 1 /\ openers_only (s_stack st).
Proof.
  induction 1 as [|st st' Hr [IHd IHo] Hi Hstep].
  - simpl. split; [lia|constructor].
  - destruct (scan_step_ok s protected cnl st Hi IHo) as (st1 & Hs & _ & Ho & Hd).
    rewrite Hs in Hstep. inversion Hstep; subst. auto.
Qed.

(** *** The closing-fence pattern matches nothing the opening one misses *)

(** Repeating a step that reads one character of a class. *)
Lemma iter_cls_chars (s : str) (p : ascii -> bool) (R : rel) n :
  (forall i g j g', R i g j g' ->
     j = S i /\ g' = g /\ exists c, nth_error s i = Some c /\ p c = true) ->
  forall i g j g',
    iter_rel n R i g j g' ->
    j = i + n /\ g' = g
    /\ forall x, i <= x < i + n -> exists c, nth_error s x = Some c /\ p c = true.
Proof.
  intros HR. induction n as [|n IH]; intros i g j g' H; simpl in H.
  - destruct H; subst. repeat split; auto. intros x Hx. lia.
  - destruct H as (m & gm & H1 & Hit). apply HR in H1. destruct H1 as (? & ? & Hc).
    subst. apply IH in Hit. destruct Hit as (Hj & Hg & Hall). subst.
    split; [lia|]. split; [reflexivity|].
    intros x Hx. destruct (Nat.eq_dec x i) as [ -> |Hne]; [exact Hc|].
    apply Hall. lia.
Qed.

Lemma rep_opt_cls_complete s p greedy (k : cont) g : forall n fuel hi i,
  n <= fuel -> within hi n ->
  (forall x, i <= x < i + n -> exists c, nth_error s x = Some c /\ p c = true) ->
  k (i + n) g <> None ->
  rep_opt (mtch s (Cls p)) greedy fuel hi k i g <> None.
Proof.
  induction n as [|n IH]; intros fuel hi i Hf Hw Hch Hk.
  - rewrite Nat.add_0_r in Hk.
    destruct fuel as [|fuel]; cbn [rep_opt]; [exact Hk|].
    destruct (bound_reached hi); [exact Hk|].
    destruct greedy.
    + destruct (mtch s (Cls p) _ i g); [discriminate|exact Hk].
    + destruct (k i g); [discriminate|congruence].
  - destruct fuel as [|fuel]; [lia|]. cbn [rep_opt].
    assert (Hb : bound_reached hi = false).
    { destruct hi as [[|h]|]; simpl in *; auto; lia. }
    rewrite Hb.
    assert (Hmore : mtch s (Cls p)
                      (fun j g' => if i <? j
                                   then rep_opt (mtch s (Cls p)) greedy fuel
                                          (dec_bound hi) k j g'
                                   else None) i g <> None).
    { cbn [mtch]. unfold char_at.
      destruct (Hch i) as (c & -> & ->); [lia|].
      assert (E : (i <? S i) = true) by (apply Nat.ltb_lt; lia). rewrite E.
      apply IH.
      - lia.
      - destruct hi as [[|h]|]; simpl in *; auto; lia.
      - intros x Hx. apply Hch. lia.
      - replace (S i + n) with (i + S n) by lia. exact Hk. }
    destruct greedy.
    + destruct (mtch s (Cls p) _ i g); [discriminate|congruence].
    + destruct (k i g); [discriminate|exact Hmore].
Qed.

Lemma rep_min_cls_complete s p (tail : cont -> cont) (k : cont) g : forall lo i,
  (forall x, i <= x < i + lo -> exists c, nth_error s x = Some c /\ p c = true) ->
  tail k (i + lo) g <> None ->
  rep_min (mtch s (Cls p)) lo tail k i g <> None.
Proof.
  induction lo as [|lo IH]; intros i Hch Hk; cbn [rep_min].
  - rewrite Nat.add_0_r in Hk. exact Hk.
  - cbn [mtch]. unfold char_at. destruct (Hch i) as (c & -> & ->); [lia|].
    apply IH.
    + intros x Hx. apply Hch. lia.
    + replace (S i + lo) with (i + S lo) by lia. exact Hk.
Qed.

(** A repeated class matches any run of [n] of its characters, provided
    the rest of the pattern matches after the run. *)
Lemma mtch_rep_cls_complete s p greedy lo hi (k : cont) g i n :
  lo <= n -> within (bound_minus hi lo) (n - lo) -> i + n <= length s ->
  (forall x, i <= x < i + n -> exists c, nth_error s x = Some c /\ p c = true) ->
  k (i + n) g <> None ->
  mtch s (Rep greedy lo hi (Cls p)) k i g <> None.
Proof.
  intros Hlo Hw Hlen Hch Hk. cbn [mtch].
  apply rep_min_cls_complete.
  - intros x Hx. apply Hch. lia.
  - apply rep_opt_cls_complete with (n := n - lo).
    + lia.
    + exact Hw.
    + intros x Hx. apply Hch. lia.
    + replace (i + lo + (n - lo)) with (i + n) by lia. exact Hk.
Qed.

Lemma mtch_cat_eq s r1 r2 k i g :
  mtch s (Cat r1 r2) k i g = mtch s r1 (mtch s r2 k) i g.
Proof. reflexivity. Qed.

Lemma mtch_grp_eq s n r k i g :
  mtch s (Grp n r) k i g = mtch s r (fun j g' => k j ((n, (i, j)) :: g')) i g.
Proof. reflexivity. Qed.

Lemma mtch_bol_eq s m k i g :
  mtch s (Bol m) k i g = if at_bol s m i then k i g else None.
Proof. reflexivity. Qed.

(** Every line that matches [CLOSE_FENCE_RE] matches [OPEN_FENCE_RE]. *)
Lemma close_fence_is_open_fence line :
  matches line CLOSE_FENCE_RE = true -> matches line OPEN_FENCE_RE = true.
Proof.
  unfold matches, re_match, match_at. intros H.
  destruct (mtch line CLOSE_FENCE_RE _ 0 []) as [[j g]|] eqn:E; [clear H|discriminate].
  apply mtch_sound in E. destruct E as (j' & g' & Hs & _).
  unfold CLOSE_FENCE_RE in Hs. cbn [Seq] in Hs.
  cbn [sem Star] in Hs.
  destruct Hs as (i1 & g1 & (Hbol & -> & ->) & i2 & g2 & (n1 & _ & _ & Hws1)
                  & i3 & g3 & (g4 & (n2 & Hn2 & _ & Hf) & ->)
                  & i4 & g5 & (n3 & _ & _ & Hws2) & Heol & _ & _).
  apply (iter_cls_chars line is_space) in Hws1;
    [|intros ? ? ? ? (Hc & ? & ?); auto].
  apply (iter_cls_chars line fence_ch) in Hf;
    [|intros ? ? ? ? (Hc & ? & ?); auto].
  apply (iter_cls_chars line is_space) in Hws2;
    [|intros ? ? ? ? (Hc & ? & ?); auto].
  destruct Hws1 as (-> & -> & Hc1). destruct Hf as (-> & -> & Hc2).
  destruct Hws2 as (-> & -> & Hc3).
  assert (Hin : forall n x, (forall y, x <= y < x + n ->
                               exists c, nth_error line y = Some c /\ True) ->
                            n = 0 \/ x + n <= length line).
  { intros n x Hall. destruct n as [|n]; [auto|right].
    destruct (Hall (x + n)) as (c & Hc & _); [lia|].
    assert (x + n < length line) by (apply nth_error_Some; congruence). lia. }
  assert (Hlen2 : 0 + n1 + n2 <= length line).
  { destruct (Hin n2 (0 + n1)) as [->|Hl]; [|lia|exact Hl].
    intros y Hy. destruct (Hc2 y Hy) as (c & Hc & _). eauto. }
  assert (Hlen3 : n3 = 0 \/ 0 + n1 + n2 + n3 <= length line).
  { apply Hin. intros y Hy. destruct (Hc3 y Hy) as (c & Hc & _). eauto. }
  assert (Hgoal : mtch line OPEN_FENCE_RE (fun j g => Some (j, g)) 0 [] <> None).
  { unfold OPEN_FENCE_RE. cbn [Seq].
    rewrite mtch_cat_eq, mtch_bol_eq, Hbol, mtch_cat_eq.
    unfold Star, Space.
    apply mtch_rep_cls_complete with (n := n1);
      [lia | exact I | lia | exact Hc1 |].
    rewrite mtch_cat_eq, mtch_grp_eq.
    apply mtch_rep_cls_complete with (n := n2);
      [lia | exact I | lia | exact Hc2 |].
    cbv beta. rewrite mtch_cat_eq.
    apply mtch_rep_cls_complete with (n := n3);
      [lia | exact I | lia | exact Hc3 |].
    rewrite mtch_cat_eq, mtch_grp_eq.
    apply mtch_rep_cls_complete with (n := 0);
      [lia | exact I | lia | intros x Hx; lia |].
    cbv beta. rewrite mtch_cat_eq.
    apply mtch_rep_cls_complete with (n := 0);
      [lia | exact I | lia | intros x Hx; lia |].
    cbn [mtch]. rewrite !Nat.add_0_r in *. rewrite Heol. discriminate. }
  destruct (mtch line OPEN_FENCE_RE _ 0 []) as [[? ?]|]; [reflexivity|congruence].
Qed.

(** The sweep for stray closing fences never adds an issue. *)
Lemma count_lines_no_issue lines : forall acc i,
  snd (count_lines acc i lines) = snd acc.
Proof.
  induction lines as [|line rest IH]; intros [depth issues] i; simpl; [reflexivity|].
  rewrite IH. destruct (matches line OPEN_FENCE_RE) eqn:Eo; [reflexivity|].
  destruct (matches line CLOSE_FENCE_RE) eqn:Ec; [|reflexivity].
  apply close_fence_is_open_fence in Ec. congruence.
Qed.

(** So the only issue [validate_code_fences] can report is an unclosed
    fence. *)
Lemma validate_code_fences_issues text ok issues :
  validate_code_fences text = Ok (ok, issues) ->
  issues = []
  \/ exists n, issues = [lit "Unclosed code fence started on line " ++ str_of_int n].
Proof.
  unfold validate_code_fences. intros H.
  destruct (track_lines _ 1 (splitlines text)) as [st| |]; cbn [bind] in H;
    try discriminate.
  match type of H with
  | context [count_lines ?acc 1 ?l] =>
      pose proof (count_lines_no_issue l acc 1) as Hc;
      destruct (count_lines acc 1 l) as [d issues']
  end.
  simpl in Hc. inversion H; subst.
  destruct (in_block st); [right; eexists; reflexivity|left; reflexivity].
Qed.

(** *** The currency pattern *)

Lemma iter_only_chars (s : str) (q : ascii -> bool) (R : rel) n :
  (forall i g j g', R i g j g' ->
     i <= j /\ forall x, i <= x < j -> exists c, nth_error s x = Some c /\ q c = true) ->
  forall i g j g',
    iter_rel n R i g j g' ->
    i <= j /\ forall x, i <= x < j -> exists c, nth_error s x = Some c /\ q c = true.
Proof.
  intros HR. induction n as [|n IH]; intros i g j g' H; simpl in H.
  - destruct H; subst. split; [lia|]. intros x Hx. lia.
  - destruct H as (m & gm & H1 & Hit). apply HR in H1. apply IH in Hit.
    destruct H1 as [Hle1 Hc1]. destruct Hit as [Hle2 Hc2].
    split; [lia|]. intros x Hx.
    destruct (Nat.lt_ge_cases x m); [apply Hc1|apply Hc2]; lia.
Qed.

(** A match of a pattern that reads only characters of a class covers
    only such characters. *)
Lemma sem_only_chars s q r : only_chars q r ->
  forall i g j g',
    sem s r i g j g' ->
    i <= j /\ forall x, i <= x < j -> exists c, nth_error s x = Some c /\ q c = true.
Proof.
  induction r; intros Ho i g j g' H; cbn [sem only_chars] in *;
    try (destruct H as (_ & -> & _); split; [lia|intros x Hx; lia]).
  - destruct H as (-> & _). split; [lia|intros x Hx; lia].
  - destruct H as (Hc & -> & _). split; [lia|].
    intros x Hx. assert (x = i) by lia. subst. eauto.
  - destruct H as ((c' & Hc & Hp) & -> & _). split; [lia|].
    intros x Hx. assert (x = i) by lia. subst. eauto.
  - destruct Ho as [Ho1 Ho2]. destruct H as (m & gm & H1 & H2).
    apply (IHr1 Ho1) in H1. apply (IHr2 Ho2) in H2.
    destruct H1 as [Hle1 Hc1]. destruct H2 as [Hle2 Hc2].
    split; [lia|]. intros x Hx.
    destruct (Nat.lt_ge_cases x m); [apply Hc1|apply Hc2]; lia.
  - destruct Ho as [Ho1 Ho2]. destruct H as [H|H]; eauto.
  - destruct H as (n & _ & _ & Hit).
    eapply iter_only_chars; [|exact Hit]. intros. eapply IHr; eauto.
  - destruct H as (g1 & H & _). eapply IHr; eauto.
  - contradiction.
Qed.

Lemma rep_opt_total step greedy (k : cont) :
  total_cont k -> forall fuel hi i g, rep_opt step greedy fuel hi k i g <> None.
Proof.
  intros Hk fuel hi i g. destruct fuel as [|fuel]; cbn [rep_opt]; [apply Hk|].
  destruct (bound_reached hi); [apply Hk|].
  destruct greedy.
  - destruct (step _ i g); [discriminate|apply Hk].
  - specialize (Hk i g). destruct (k i g); [discriminate|congruence].
Qed.

(** A repetition that may be empty never fails before a continuation that
    never fails. *)
Lemma mtch_rep0_total s greedy hi r (k : cont) :
  total_cont k -> total_cont (mtch s (Rep greedy 0 hi r) k).
Proof.
  intros Hk j g. cbn [mtch rep_min]. apply rep_opt_total. exact Hk.
Qed.

Lemma numeral_run_spec : forall (u : str) x,
  x < numeral_run u -> exists c, nth_error u x = Some c /\ numeral_ch c = true.
Proof.
  induction u as [|c u IH]; intros x Hx; simpl in Hx; [lia|].
  destruct (numeral_ch c) eqn:E; [|lia].
  destruct x as [|x]; simpl; [eauto|]. apply IH. lia.
Qed.

Lemma numeral_run_ge : forall (u : str) n,
  (forall x, x < n -> exists c, nth_error u x = Some c /\ numeral_ch c = true) ->
  n <= numeral_run u.
Proof.
  induction u as [|c u IH]; intros n H.
  - destruct n as [|n]; [lia|]. destruct (H 0) as (c & Hc & _); [lia|discriminate].
  - destruct n as [|n]; [lia|]. simpl.
    destruct (H 0) as (c0 & Hc0 & Hq); [lia|]. simpl in Hc0. inversion Hc0; subst.
    rewrite Hq. apply le_n_S. apply IH.
    intros x Hx. destruct (H (S x)) as (c1 & Hc1 & Hq1); [lia|]. eauto.
Qed.

Lemma currency_re_only_chars :
  only_chars numeral_ch
    (Seq [Grp 1 (Alt (Cat (Rep true 1 (Some 3) Digit)
                          (Star (Cat (Cls (one_of ".,")) (Rep true 3 (Some 3) Digit))))
                     (Plus Digit));
          Opt (Cat (Cls (one_of ".,")) (Plus Digit))]).
Proof.
  unfold numeral_ch. cbn. repeat split; intros c Hc; rewrite ?Hc;
    auto using orb_true_r.
Qed.

Lemma mtch_chr_eq s c k i g :
  mtch s (Chr c) k i g
  = match char_at s i with
    | Some c' => if ch_eqb c c' then k (S i) g else None
    | None => None
    end.
Proof. reflexivity. Qed.

Lemma mtch_alt_l s r1 r2 k i g :
  mtch s r1 k i g <> None -> mtch s (Alt r1 r2) k i g <> None.
Proof.
  intros H. cbn [mtch]. destruct (mtch s r1 k i g); [discriminate|congruence].
Qed.

(** After a dollar and a digit the currency pattern matches. *)
Lemma currency_re_matches (t : str) d :
  nth_error t 0 = Some "$"%char -> nth_error t 1 = Some d -> is_digit d = true ->
  mtch t currency_re (fun j g => Some (j, g)) 0 [] <> None.
Proof.
  intros H0 H1 Hd. unfold currency_re. cbn [Seq].
  rewrite mtch_cat_eq, mtch_chr_eq. unfold char_at, ch_eqb.
  rewrite H0, Ascii.eqb_refl.
  rewrite mtch_cat_eq, mtch_grp_eq. apply mtch_alt_l.
  rewrite mtch_cat_eq. unfold Digit.
  apply mtch_rep_cls_complete with (n := 1).
  - lia.
  - simpl. lia.
  - assert (1 < length t) by (apply nth_error_Some; congruence). lia.
  - intros x Hx. assert (x = 1) by lia. subst. eauto.
  - unfold Star. apply mtch_rep0_total. intros j g. cbv beta.
    unfold Opt. apply mtch_rep0_total. intros j' g'. discriminate.
Qed.

(** A dollar that is followed by a digit, and whose number is not followed
    by another dollar, is taken for currency. *)
Lemma currency_shaped_accepted s i :
  currency_shaped s i = true -> _looks_like_currency s i = Ok true.
Proof.
  unfold currency_shaped. intros H.
  destruct (nth_error s i) as [c0|] eqn:E0; [|discriminate].
  destruct (nth_error s (i + 1)) as [d|] eqn:E1; [|discriminate].
  apply andb_true_iff in H. destruct H as [H Hnext].
  apply andb_true_iff in H. destruct H as [Hc0 Hd].
  apply Ascii.eqb_eq in Hc0. subst c0.
  apply negb_true_iff in Hnext.
  unfold _looks_like_currency, re_match, match_at.
  set (t := skipn i s).
  assert (Ht : forall x, nth_error t x = nth_error s (i + x)).
  { intros x. apply nth_error_skipn. }
  pose proof (currency_re_matches t d) as Hm.
  rewrite !Ht, Nat.add_0_r in Hm. specialize (Hm E0 E1 Hd).
  destruct (mtch t currency_re _ 0 []) as [[j g]|] eqn:Em; [clear Hm|congruence].
  apply mtch_sound in Em. destruct Em as (j' & g' & Hs & Hk).
  inversion Hk; subst j' g'; clear Hk.
  unfold currency_re in Hs. cbn [Seq] in Hs.
  change (Cat (Chr "$") ?r) with (Cat (Chr "$") r) in Hs.
  destruct Hs as (m & gm & (_ & -> & ->) & Hrest).
  apply (sem_only_chars t numeral_ch _ currency_re_only_chars) in Hrest.
  destruct Hrest as [Hle Hch].
  assert (Hj : j <= length t).
  { destruct (Nat.eq_dec j 1) as [->|Hne].
    - assert (1 < length t) by (apply nth_error_Some; rewrite Ht; congruence). lia.
    - destruct (Hch (j - 1)) as (c & Hc & _); [lia|].
      assert (j - 1 < length t) by (apply nth_error_Some; congruence). lia. }
  unfold group0. cbn [m_start m_end]. rewrite slice_length by exact Hj.
  rewrite Nat.sub_0_r.
  destruct (i + j <? length s) eqn:El; [|reflexivity].
  apply Nat.ltb_lt in El. destruct (list_get_ok s _ El) as [c Hc]. rewrite Hc.
  cbn [bind]. apply list_get_nth in Hc.
  assert (Hrun : j - 1 <= numeral_run (skipn (i + 1) s)).
  { apply numeral_run_ge. intros x Hx.
    rewrite nth_error_skipn. destruct (Hch (1 + x)) as (c' & Hc' & Hq); [lia|].
    rewrite Ht in Hc'. replace (i + 1 + x) with (i + (1 + x)) by lia. eauto. }
  destruct (ch_eqb c "$") eqn:Ec; [|reflexivity].
  apply Ascii.eqb_eq in Ec. subst c. exfalso.
  destruct (Nat.eq_dec (j - 1) (numeral_run (skipn (i + 1) s))) as [Heq|Hne].
  - rewrite <- Heq in Hnext. replace (i + 1 + (j - 1)) with (i + j) in Hnext by lia.
    rewrite Hc in Hnext. discriminate.
  - destruct (numeral_run_spec (skipn (i + 1) s) (j - 1)) as (c' & Hc' & Hq); [lia|].
    rewrite nth_error_skipn in Hc'.
    replace (i + 1 + (j - 1)) with (i + j) in Hc' by lia.
    rewrite Hc in Hc'. inversion Hc'; subst. discriminate.
Qed.

(** With a digit after it, a dollar is the token [$]. *)
Lemma currency_shaped_token s i :
  currency_shaped s i = true -> token_at s i = Some (lit "$").
Proof.
  unfold currency_shaped. intros H.
  destruct (nth_error s i) as [c0|] eqn:E0; [|discriminate].
  destruct (nth_error s (i + 1)) as [d|] eqn:E1; [|discriminate].
  apply andb_true_iff in H. destruct H as [H _].
  apply andb_true_iff in H. destruct H as [Hc0 Hd].
  apply Ascii.eqb_eq in Hc0. subst c0.
  assert (Hs : skipn i s = "$"%char :: d :: skipn (i + 2) s).
  { rewrite (skipn_nth_cons _ _ _ E0). f_equal.
    replace (S i) with (i + 1) by lia. rewrite (skipn_nth_cons _ _ _ E1).
    f_equal. f_equal. lia. }
  unfold token_at, _tokens, startswith, slice. cbn [find lit list_ascii_of_string length].
  replace (i + 2 - i) with 2 by lia. replace (i + 1 - i) with 1 by lia.
  rewrite Hs. cbn [firstn str_eqb]. cbn.
  destruct d as [b0 b1 b2 b3 b4 b5 b6 b7].
  destruct b0, b1, b2, b3, b4, b5, b6, b7; try reflexivity; discriminate Hd.
Qed.

(** The two passes of [fix_latex_delimiters] on a balanced text without an
    align-family environment. *)
Lemma balanced_then_align_identity text cnl spans :
  _protected_spans text = Ok spans ->
  balanced text spans cnl = true ->
  no_align_env text = true ->
  fix_latex_delimiters text cnl = Ok (text, []).
Proof.
  intros Hs Hb Ha. unfold fix_latex_delimiters, LaTeXFixer_fix.
  rewrite Hs. cbn [bind]. rewrite (scan_balanced_identity _ _ _ Hb). cbn [bind].
  unfold fix_align_environments. rewrite re_sub_no_match; [reflexivity|].
  unfold no_align_env in Ha. destruct (re_search text align_re 0); [discriminate|].
  reflexivity.
Qed.

(* ================================================================== *)
(** ** The claims                                                      *)
(* ================================================================== *)

(** C1 (the code departs from the claim).  On the text of the repository's
    own test for a stray closing fence, a closed block followed by one more
    fence line on line 5, [validate_code_fences] answers [false] with the
    single issue "Unclosed code fence started on line 5": the issue
    "Closing fence without opening on line 5" is not reported.  No text
    makes it report that issue: every line that [CLOSE_FENCE_RE] matches is
    matched by [OPEN_FENCE_RE] first, so the sweep for stray closers adds
    nothing, and the issue list is empty or holds the one message about an
    unclosed fence. *)
Theorem validate_stray_closing_fence :
  validate_code_fences stray_fence_text
  = Ok (false, [lit "Unclosed code fence started on line 5"])
  /\ forall text,
       exists ok issues,
         validate_code_fences text = Ok (ok, issues)
         /\ (issues = []
             \/ exists n,
                  issues = [lit "Unclosed code fence started on line " ++ str_of_int n]).
Proof.
  split; [vm_compute; reflexivity|].
  intros text. destruct (validate_code_fences_ok text) as [[ok issues] H].
  exists ok, issues. split; [exact H|].
  eapply validate_code_fences_issues. exact H.
Qed.

(** C2, counterexample.  Two texts with no unbalanced delimiter are changed
    all the same: one without any delimiter token, whose align environment
    is rewritten, and one display formula that runs over three lines, which
    is closed at the end of its first line. *)
Lemma balanced_text_changed :
  (tokens_within align_text [] = true
   /\ fix_latex_delimiters align_text true
      = Ok (lit "$$" ++ NL ++ lit "\begin{aligned}" ++ NL ++ lit "x" ++ NL
            ++ lit "\end{aligned}" ++ NL ++ lit "$$", [])
   /\ fix_latex_delimiters align_text true <> Ok (align_text, []))
  /\ (balanced display_math_text [] false = true
      /\ fix_latex_delimiters display_math_text true
         = Ok (lit "\[\]" ++ NL ++ lit "x" ++ NL,
               [mkEdit Insert 2 [] (lit "\]")
                  (lit "Inserted missing closer \] for \[ at end of line");
                mkEdit Delete 5 (lit "\]") [] (lit "Stray closer \] removed")])
      /\ fix_latex_delimiters display_math_text true <> Ok (display_math_text, [])).
Proof.
  repeat split; try (vm_compute; reflexivity);
    intros H; vm_compute in H; discriminate H.
Qed.

(** C2, amended.  For either value of [close_on_newline]: a text whose
    delimiters outside the protected spans are balanced, each opener closed
    by its own closer as the next token and, when [close_on_newline] is
    set, on the same line, and which holds no align-family environment,
    comes back unchanged with an empty edit list. *)
Theorem fix_latex_delimiters_balanced_unchanged text close_on_newline spans :
  _protected_spans text = Ok spans ->
  balanced text spans close_on_newline = true ->
  no_align_env text = true ->
  fix_latex_delimiters text close_on_newline = Ok (text, []).
Proof.
  intros Hs Hb Ha. apply (balanced_then_align_identity text close_on_newline spans Hs Hb Ha).
Qed.

Lemma fix_latex_delimiters_balanced_unchanged_witness :
  fix_latex_delimiters inline_math_text true = Ok (inline_math_text, []).
Proof.
  apply (fix_latex_delimiters_balanced_unchanged inline_math_text true []);
    vm_compute; reflexivity.
Defined.

(** C3, counterexample.  A block fenced by tildes is not protected: the
    text has no protected span at all, and the dollar inside the block is
    taken for an opener and closed at the end of its line. *)
Lemma tilde_fence_not_protected :
  _protected_spans tilde_fenced_text = Ok []
  /\ fix_latex_delimiters tilde_fenced_text true
     = Ok (lit "~~~" ++ NL ++ lit "$x$" ++ NL ++ lit "~~~",
           [mkEdit Insert 6 [] (lit "$")
              (lit "Inserted missing closer $ for $ at end of line")])
  /\ fix_latex_delimiters tilde_fenced_text true <> Ok (tilde_fenced_text, []).
Proof.
  repeat split; try (vm_compute; reflexivity).
  intros H; vm_compute in H; discriminate H.
Qed.

(** C3, amended.  The protected spans include every span matched by the
    triple-backtick pattern (tilde fences are not looked for).  So for a
    text whose delimiter tokens all start inside such spans the delimiter
    pass, [LaTeXFixer.fix], copies the text and makes no edit, and so does
    [fix_latex_delimiters] when the text holds no align-family
    environment. *)
Theorem backtick_fenced_tokens_untouched text close_on_newline :
  tokens_within text (backtick_fences text) = true ->
  (exists spans, _protected_spans text = Ok spans
                 /\ forall sp, In sp (backtick_fences text) -> covered_by spans sp)
  /\ LaTeXFixer_fix text close_on_newline = Ok (text, [])
  /\ (no_align_env text = true ->
      fix_latex_delimiters text close_on_newline = Ok (text, [])).
Proof.
  intros Hin.
  destruct (_protected_spans_ok text) as [spans Hs].
  assert (Hcov : forall sp, In sp (backtick_fences text) -> covered_by spans sp).
  { intros sp. apply backtick_fences_protected. exact Hs. }
  assert (Hb : balanced text spans close_on_newline = true).
  { apply no_token_balanced; [|lia].
    intros i Hi Hf.
    unfold tokens_within in Hin. rewrite forallb_forall in Hin.
    specialize (Hin i). rewrite in_seq in Hin.
    destruct (token_at text i) as [tok|] eqn:Et; [|reflexivity].
    exfalso. assert (Hex : existsb (covers i) (backtick_fences text) = true).
    { assert (H0 : 0 <= i < 0 + length text) by lia.
      apply Hin in H0. cbn in H0. exact H0. }
    apply existsb_exists in Hex. destruct Hex as (sp & Hsp & Hc).
    destruct (Hcov sp Hsp) as (sp' & Hsp' & Hl & Hr).
    apply (find_none _ _ Hf) in Hsp'.
    unfold covers in *. apply andb_true_iff in Hc. destruct Hc as [Hc1 Hc2].
    apply Nat.leb_le in Hc1. apply Nat.ltb_lt in Hc2.
    apply andb_false_iff in Hsp'. destruct Hsp' as [Hx|Hx].
    - apply Nat.leb_gt in Hx. lia.
    - apply Nat.ltb_ge in Hx. lia. }
  split; [eauto|]. split.
  - unfold LaTeXFixer_fix. rewrite Hs. cbn [bind].
    apply scan_balanced_identity. exact Hb.
  - intros Ha. eapply balanced_then_align_identity; eauto.
Qed.

Lemma backtick_fenced_tokens_untouched_witness :
  (exists spans, _protected_spans backtick_fenced_text = Ok spans
                 /\ forall sp, In sp (backtick_fences backtick_fenced_text) ->
                               covered_by spans sp)
  /\ LaTeXFixer_fix backtick_fenced_text true = Ok (backtick_fenced_text, [])
  /\ (no_align_env backtick_fenced_text = true ->
      fix_latex_delimiters backtick_fenced_text true = Ok (backtick_fenced_text, [])).
Proof.
  apply (backtick_fenced_tokens_untouched backtick_fenced_text true).
  vm_compute. reflexivity.
Defined.

(** *** Lines outside fenced blocks *)







(** C5.  [fix_latex_delimiters] on "\(x+1\]" returns "\(x+1\)" and exactly
    one edit, a replacement whose reason mentions "Mismatched closer".  In
    general, a turn of the scan that meets, outside the protected spans, an
    unescaped token acting as a closer that differs from the closer [want]
    required by the top entry emits [want] in its place, records one
    replace edit and pops the entry. *)
Theorem mismatched_closer_replaced :
  (fix_latex_delimiters (lit "\(x+1\]") true
   = Ok (lit "\(x+1\)",
         [mkEdit Replace 5 (lit "\]") (lit "\)")
            (lit "Mismatched closer: \] -> \) for opener \(")])
   /\ contains (lit "Mismatched closer: \] -> \) for opener \(")
               (lit "Mismatched closer") = true)
  /\ (forall s protected close_on_newline st tok e rest want,
         _in_protected (s_i st) protected = false ->
         token_at s (s_i st) = Some tok ->
         escaped s (s_i st) = false ->
         s_stack st = e :: rest ->
         is_opener tok (s_stack st) = false ->
         dict_get _matching (entry_tok e) = Ok want ->
         tok <> want ->
         scan_step s protected close_on_newline st
         = Ok (mkScan (s_i st + length tok) (s_out st ++ [want])
                 (s_edits st ++
                    [mkEdit Replace (s_i st) tok want
                       (lit "Mismatched closer: " ++ tok ++ lit " -> " ++ want
                        ++ lit " for opener " ++ entry_tok e)])
                 rest)).
Proof.
  split; [split; vm_compute; reflexivity|].
  intros s protected cnl st tok e rest want Hp Ht He Hs Ho Hw Hne.
  unfold scan_step. rewrite Hp.
  destruct (token_first_char _ _ _ Ht) as (ch & -> & Hnl). cbn [bind].
  rewrite Hnl. cbn [andb]. fold (token_at s (s_i st)). rewrite Ht.
  unfold escaped in He. rewrite He.
  rewrite Hs at 1. cbn [is_empty_list]. rewrite andb_false_r. cbn [bind].
  unfold handle_token. rewrite Ho, Hs, Hw. cbn [bind].
  destruct (str_eqb tok want) eqn:E; [apply str_eqb_eq in E; contradiction|].
  reflexivity.
Qed.

Lemma mismatched_closer_replaced_witness :
  scan_step (lit "\(x+1\]") [] true
    (mkScan 5 [lit "\("; lit "x"; lit "+"; lit "1"] [] [(lit "\(", 0, 0)])
  = Ok (mkScan 7 [lit "\("; lit "x"; lit "+"; lit "1"; lit "\)"]
          [mkEdit Replace 5 (lit "\]") (lit "\)")
             (lit "Mismatched closer: \] -> \) for opener \(")]
          []).
Proof.
  apply (proj2 mismatched_closer_replaced (lit "\(x+1\]") [] true
           (mkScan 5 [lit "\("; lit "x"; lit "+"; lit "1"] [] [(lit "\(", 0, 0)])
           (lit "\]") (lit "\(", 0, 0) [] (lit "\)"));
    try reflexivity.
  intros H. vm_compute in H. discriminate H.
Defined.

(** C6.  [fix_latex_delimiters] on "Equation: $x+1" returns
    "Equation: $x+1$" and exactly one edit, an insertion whose reason
    mentions "missing closer".  In general, when the scan of a text ends in
    the state [st], the result of [_scan_and_fix] is the output of [st]
    followed by the required closer of every entry still on the stack, the
    last opened first, and the edits of [st] followed by one insert edit
    per entry, in the same order. *)
Theorem open_math_closed_at_end :
  (fix_latex_delimiters (lit "Equation: $x+1") true
   = Ok (lit "Equation: $x+1$",
         [mkEdit Insert 14 [] (lit "$")
            (lit "Inserted missing closer $ at end of document")])
   /\ contains (lit "Equation: $x+1$") (lit "$x+1$") = true
   /\ contains (lit "Inserted missing closer $ at end of document")
               (lit "missing closer") = true)
  /\ (forall s protected close_on_newline,
         exists st,
           scan_loop (length s) s protected close_on_newline scan_init = Ok st
           /\ _scan_and_fix s protected close_on_newline
              = Ok (concat (s_out st ++ map end_closer (s_stack st)),
                    s_edits st ++ map (end_edit (length s)) (s_stack st))).
Proof.
  split; [repeat split; vm_compute; reflexivity|].
  intros s protected cnl.
  destruct (scan_loop_ok s protected cnl (length s) scan_init) as (st & Hst & Ho).
  - simpl. lia.
  - constructor.
  - exists st. split; [exact Hst|].
    unfold _scan_and_fix. rewrite Hst. cbn [bind].
    rewrite close_at_end_spec by exact Ho. reflexivity.
Qed.

(** C7.  [fix_latex_delimiters] on "The price is $12.50 today." returns
    the text unchanged and no edit.  In general, a turn of the scan that
    meets, outside the protected spans and with an empty stack, a bare
    dollar that [_looks_like_currency] accepts emits the dollar, moves one
    character on and leaves the stack and the edits as they are; and
    [_looks_like_currency] accepts every dollar that is followed by a digit
    and whose number, digits with points and commas, is not followed by
    another dollar. *)
Theorem currency_dollar_verbatim :
  fix_latex_delimiters price_text true = Ok (price_text, [])
  /\ (forall s protected close_on_newline st,
         _in_protected (s_i st) protected = false ->
         token_at s (s_i st) = Some (lit "$") ->
         s_stack st = [] ->
         _looks_like_currency s (s_i st) = Ok true ->
         scan_step s protected close_on_newline st
         = Ok (mkScan (s_i st + 1) (s_out st ++ [lit "$"]) (s_edits st) (s_stack st)))
  /\ (forall s protected close_on_newline st,
         _in_protected (s_i st) protected = false ->
         s_stack st = [] ->
         currency_shaped s (s_i st) = true ->
         scan_step s protected close_on_newline st
         = Ok (mkScan (s_i st + 1) (s_out st ++ [lit "$"]) (s_edits st) (s_stack st))).
Proof.
  assert (Hstep : forall s protected cnl st,
             _in_protected (s_i st) protected = false ->
             token_at s (s_i st) = Some (lit "$") ->
             s_stack st = [] ->
             _looks_like_currency s (s_i st) = Ok true ->
             scan_step s protected cnl st
             = Ok (mkScan (s_i st + 1) (s_out st ++ [lit "$"]) (s_edits st) (s_stack st))).
  { intros s protected cnl st Hp Ht Hs Hc.
    unfold scan_step. rewrite Hp.
    destruct (token_first_char _ _ _ Ht) as (ch & -> & Hnl). cbn [bind].
    rewrite Hnl. cbn [andb]. fold (token_at s (s_i st)). rewrite Ht.
    destruct (_ mod 2 =? 1); [reflexivity|].
    rewrite Hs at 1. cbn [is_empty_list str_eqb lit list_ascii_of_string].
    rewrite Ascii.eqb_refl. cbn [andb]. rewrite Hc. reflexivity. }
  split; [vm_compute; reflexivity|]. split; [exact Hstep|].
  intros s protected cnl st Hp Hs Hc. apply Hstep; auto.
  - apply currency_shaped_token. exact Hc.
  - apply currency_shaped_accepted. exact Hc.
Qed.

Lemma currency_dollar_verbatim_witness :
  scan_step price_text [] true
    (mkScan 13 [lit "The price is "] [] [])
  = Ok (mkScan 14 [lit "The price is "; lit "$"] [] []).
Proof.
  apply (proj2 (proj2 currency_dollar_verbatim) price_text [] true
           (mkScan 13 [lit "The price is "] [] []));
    vm_compute; reflexivity.
Defined.

(** C8.  For every text, every list of protected spans and both values of
    [close_on_newline], the stack of open math entries holds at most one
    entry in every state the scan loop goes through, and every entry is an
    opener.  When, in such a state, a token acts as an opener while an
    entry [e] is open, [e] is popped and its closer is emitted and recorded
    as an insert edit before the token is pushed: the stack then holds the
    new entry alone. *)
Theorem math_stack_depth_at_most_one s protected close_on_newline st :
  reachable s protected close_on_newline st ->
  length (s_stack st) <= 1
  /\ openers_only (s_stack st)
  /\ forall tok e rest,
       s_stack st = e :: rest ->
       is_opener tok (s_stack st) = true ->
       exists closer,
         dict_get _matching (entry_tok e) = Ok closer
         /\ handle_token st tok
            = Ok (mkScan (s_i st + length tok) ((s_out st ++ [closer]) ++ [tok])
                    (s_edits st ++
                       [mkEdit Insert (s_i st) [] closer
                          (lit "Inserted missing closer " ++ closer ++ lit " for "
                           ++ entry_tok e ++ lit " "
                           ++ lit "before opening a new math block")])
                    [(tok, length (s_out st ++ [closer]), s_i st)]).
Proof.
  intros Hr. destruct (reachable_invariant _ _ _ _ Hr) as [Hd Ho].
  split; [exact Hd|]. split; [exact Ho|].
  intros tok e rest Hs Hop.
  rewrite Hs in Hd, Ho. inversion Ho as [|e' r' [closer Hc] Hrest]; subst.
  assert (rest = []) by (destruct rest; [reflexivity|simpl in Hd; lia]). subst rest.
  exists closer. split; [exact Hc|].
  unfold handle_token. rewrite Hop, Hs.
  rewrite (insert_closer_ok _ _ _ _ Hc). reflexivity.
Qed.

Lemma math_stack_depth_at_most_one_witness :
  length (s_stack (mkScan 1 [lit "$"] [] [(lit "$", 0, 0)])) <= 1
  /\ openers_only (s_stack (mkScan 1 [lit "$"] [] [(lit "$", 0, 0)]))
  /\ forall tok e rest,
       s_stack (mkScan 1 [lit "$"] [] [(lit "$", 0, 0)]) = e :: rest ->
       is_opener tok (s_stack (mkScan 1 [lit "$"] [] [(lit "$", 0, 0)])) = true ->
       exists closer,
         dict_get _matching (entry_tok e) = Ok closer
         /\ handle_token (mkScan 1 [lit "$"] [] [(lit "$", 0, 0)]) tok
            = Ok (mkScan (1 + length tok) (([lit "$"] ++ [closer]) ++ [tok])
                    ([] ++
                       [mkEdit Insert 1 [] closer
                          (lit "Inserted missing closer " ++ closer ++ lit " for "
                           ++ entry_tok e ++ lit " "
                           ++ lit "before opening a new math block")])
                    [(tok, length ([lit "$"] ++ [closer]), 1)]).
Proof.
  apply (math_stack_depth_at_most_one (lit "$x") [] true).
  apply (reach_step _ _ _ scan_init).
  - apply reach_init.
  - simpl. lia.
  - reflexivity.
Defined.

(** C9.  For every text and every value of the options, the four entry
    points return a result: none raises, and none runs without end. *)
Theorem entry_points_return text default_lang keep_fence_char close_on_newline :
  (exists r, validate_code_fences text = Ok r)
  /\ (exists r, fix_code_fences text default_lang keep_fence_char = Ok r)
  /\ (exists r, ensure_fenced_code text default_lang keep_fence_char = Ok r)
  /\ (exists r, fix_latex_delimiters text close_on_newline = Ok r).
Proof.
  repeat split.
  - apply validate_code_fences_ok.
  - apply fix_code_fences_ok.
  - apply ensure_fenced_code_ok.
  - apply fix_latex_delimiters_ok.
Qed.

(** C10.  For every text and every value of the options,
    [ensure_fenced_code] returns the text that one call of
    [fix_code_fences] with the same arguments returns, whether the input
    validates or not; only the messages differ: the changes of the repair
    when the input validates, and otherwise the issues found, the changes,
    and "Still invalid after fix" when the repaired text does not
    validate. *)
Theorem ensure_fenced_code_text text default_lang keep_fence_char :
  exists ok issues fixed changes,
    validate_code_fences text = Ok (ok, issues)
    /\ fix_code_fences text default_lang keep_fence_char = Ok (fixed, changes)
    /\ exists msgs,
         ensure_fenced_code text default_lang keep_fence_char = Ok (fixed, msgs)
         /\ (ok = true -> msgs = changes)
         /\ (ok = false ->
             exists ok2 issues2,
               validate_code_fences fixed = Ok (ok2, issues2)
               /\ msgs = issues ++ changes
                         ++ (if negb ok2 then [lit "Still invalid after fix"] else [])).
Proof.
  destruct (validate_code_fences_ok text) as [[ok issues] Hv].
  destruct (fix_code_fences_ok text default_lang keep_fence_char) as [[fixed changes] Hf].
  exists ok, issues, fixed, changes. split; [exact Hv|]. split; [exact Hf|].
  unfold ensure_fenced_code. rewrite Hv. cbn [bind]. rewrite Hf.
  destruct ok; cbn [negb bind].
  - exists changes. repeat split; auto. discriminate.
  - destruct (validate_code_fences_ok fixed) as [[ok2 issues2] Hv2].
    rewrite Hv2. cbn [bind]. eexists. split; [reflexivity|].
    split; [discriminate|]. intros _. exists ok2, issues2. auto.
Qed.

(* ================================================================== *)
(** ** Further properties                                              *)
(* ================================================================== *)

(** *** What the scan changes *)

Ltac tally :=
  unfold chars_removed, chars_added; simpl; rewrite ?length_app; simpl; lia.

Lemma keep_plain_app a b : keep_plain (a ++ b) = keep_plain a ++ keep_plain b.
Proof. apply filter_app. Qed.

Lemma matching_value_plain o closer :
  dict_get _matching o = Ok closer -> keep_plain closer = [].
Proof.
  unfold dict_get, _matching. cbn [find fst snd].
  repeat (destruct (str_eqb _ o); [intros H; inversion H; reflexivity|]).
  discriminate.
Qed.

Lemma closer_token_plain tok stack :
  In tok _tokens -> is_opener tok stack = false -> keep_plain tok = [].
Proof.
  intros H Ho. each_token H; try reflexivity; cbv in Ho; discriminate.
Qed.

Lemma slice_app (s : str) i j k :
  i <= j -> j <= k -> slice s i k = slice s i j ++ slice s j k.
Proof.
  intros Hij Hjk. unfold slice.
  replace (k - i) with ((j - i) + (k - j)) by lia.
  rewrite firstn_plus, skipn_skipn.
  replace (j - i + i) with j by lia. reflexivity.
Qed.

Lemma slice_all (s : str) n : length s <= n -> slice s 0 n = s.
Proof.
  intros H. unfold slice. rewrite Nat.sub_0_r. simpl. apply firstn_all2. exact H.
Qed.

Lemma slice_one (s : str) i c : nth_error s i = Some c -> slice s i (i + 1) = [c].
Proof.
  intros H. unfold slice. replace (i + 1 - i) with 1 by lia.
  rewrite (skipn_nth_cons _ _ _ H). reflexivity.
Qed.

Lemma slice_nil (s : str) i : slice s i i = [].
Proof. unfold slice. rewrite Nat.sub_diag. reflexivity. Qed.

Lemma startswith_nil (s : str) i : startswith s [] i = true.
Proof. unfold startswith. simpl. rewrite Nat.add_0_r, slice_nil. reflexivity. Qed.

Lemma matching_value_closer o closer :
  dict_get _matching o = Ok closer -> is_closer_str closer = true.
Proof.
  unfold dict_get, _matching. cbn [find fst snd].
  repeat (destruct (str_eqb _ o); [intros H; inversion H; reflexivity|]).
  discriminate.
Qed.

(** The edit that [insert_closer] and the closing at the end record. *)
Lemma insert_edit_of s o closer i why :
  dict_get _matching o = Ok closer -> edit_of s (mkEdit Insert i [] closer why).
Proof.
  intros H. split; [|apply startswith_nil].
  unfold edit_shape. simpl. exact (matching_value_closer _ _ H).
Qed.

(** A token that acts as a closer and is not the closer wanted is one of
    the two that only close. *)
Lemma mismatched_closes_only tok e rest closer :
  In tok _tokens -> is_opener tok (e :: rest) = false ->
  dict_get _matching (entry_tok e) = Ok closer ->
  str_eqb tok closer = false -> closes_only tok = true.
Proof.
  intros Htok Ho Hc Hne.
  destruct (closer_cases _ _ Htok Ho) as [ -> | [ -> | (e0 & r0 & Hst & Het)]];
    try reflexivity.
  inversion Hst; subst e0 r0. rewrite Het in Hc.
  each_token Htok; try reflexivity; try (cbv in Ho; discriminate);
    cbv in Hc; inversion Hc; subst closer; cbv in Hne; discriminate.
Qed.

Lemma close_at_newline_delta s : forall stack st st',
  openers_only stack ->
  close_at_newline stack st = Ok st' ->
  s_i st' = s_i st
  /\ keep_plain (concat (s_out st')) = keep_plain (concat (s_out st))
  /\ exists new,
       s_edits st' = s_edits st ++ new
       /\ Forall (fun e => pos e = s_i st /\ edit_of s e) new
       /\ (stack <> [] -> new <> [])
       /\ chars_removed new = 0
       /\ length (concat (s_out st')) = length (concat (s_out st)) + chars_added new.
Proof.
  induction stack as [|e rest IH]; intros st st' Ho H; simpl in H.
  - inversion H; subst. cbn. repeat split; auto.
    exists []. rewrite app_nil_r. repeat split; auto.
  - inversion Ho as [|e' r' [closer Hc] Hr]; subst.
    rewrite (insert_closer_ok _ _ _ _ Hc) in H. cbn [bind] in H.
    apply IH in H; [|exact Hr]. cbn in H.
    destruct H as (Hi & Hk & new & He & Hp & _ & Hr0 & Hlen).
    split; [exact Hi|]. split.
    + rewrite Hk, concat_snoc, keep_plain_app, (matching_value_plain _ _ Hc).
      apply app_nil_r.
    + eexists. split; [rewrite He, <- app_assoc; reflexivity|].
      split; [constructor; auto|].
      * split; [reflexivity|]. eapply insert_edit_of; eauto.
      * split; [intros _; discriminate|]. split.
        -- unfold chars_removed in *. simpl. exact Hr0.
        -- rewrite Hlen, concat_snoc, length_app. unfold chars_added. simpl. lia.
Qed.

Lemma handle_token_delta s st st' tok :
  In tok _tokens -> openers_only (s_stack st) ->
  startswith s tok (s_i st) = true ->
  handle_token st tok = Ok st' ->
  scan_delta s st st' tok.
Proof.
  intros Htok Ho Hsw H. unfold handle_token in H. unfold scan_delta.
  destruct (is_opener tok (s_stack st)) eqn:Eo.
  - destruct (s_stack st) as [|e rest] eqn:Es.
    + cbn [bind] in H. inversion H; subst; clear H. cbn.
      rewrite concat_snoc. split; [reflexivity|].
      exists []. rewrite app_nil_r. repeat split; auto.
      tally.
    + inversion Ho as [|e' r' [closer Hc] Hr]; subst.
      rewrite (insert_closer_ok _ _ _ _ Hc) in H. cbn [bind] in H.
      inversion H; subst; clear H. cbn.
      rewrite !concat_snoc, !keep_plain_app, (matching_value_plain _ _ Hc).
      split; [rewrite app_nil_r; reflexivity|].
      eexists. split; [reflexivity|]. split; [|split; [discriminate|]].
      * constructor; auto. split; [reflexivity|]. eapply insert_edit_of; eauto.
      * tally.
  - pose proof (closer_token_plain _ _ Htok Eo) as Hplain.
    destruct (s_stack st) as [|e rest] eqn:Es.
    + inversion H; subst; clear H. cbn.
      rewrite keep_plain_app, Hplain, app_nil_r. split; [reflexivity|].
      eexists. split; [reflexivity|]. split; [|split; [discriminate|]].
      * constructor; auto. split; [reflexivity|]. split; [|exact Hsw].
        unfold edit_shape. simpl. rewrite andb_true_r.
        destruct (closer_cases _ _ Htok Eo) as [ -> | [ -> | (e0 & r0 & Hst & _)]];
          try reflexivity. discriminate.
      * tally.
    + inversion Ho as [|e' r' [closer Hc] Hr]; subst.
      rewrite Hc in H. cbn [bind] in H.
      destruct (str_eqb tok closer) eqn:Eq; inversion H; subst; clear H; cbn.
      * rewrite concat_snoc. split; [reflexivity|].
        exists []. rewrite app_nil_r. repeat split; auto.
        tally.
      * rewrite concat_snoc, !keep_plain_app, Hplain, (matching_value_plain _ _ Hc).
        split; [reflexivity|].
        eexists. split; [reflexivity|]. split; [|split; [discriminate|]].
        -- constructor; auto. split; [reflexivity|]. split; [|exact Hsw].
           unfold edit_shape. simpl.
           rewrite (mismatched_closes_only _ _ _ _ Htok Eo Hc Eq),
             (matching_value_closer _ _ Hc), Eq. reflexivity.
        -- tally.
Qed.

Lemma emit_delta s st piece i' : scan_delta s st (emit st piece i') piece.
Proof.
  unfold scan_delta. cbn [emit s_out s_edits s_i]. rewrite concat_snoc.
  split; [reflexivity|]. exists []. rewrite app_nil_r. repeat split; auto.
  tally.
Qed.

Lemma scan_step_delta s protected cnl st st' :
  s_i st < length s -> openers_only (s_stack st) ->
  scan_step s protected cnl st = Ok st' ->
  s_i st < s_i st' /\ scan_delta s st st' (slice s (s_i st) (s_i st')).
Proof.
  intros Hi Ho H. unfold scan_step in H.
  assert (Hplainstep : forall piece i',
            s_i st < i' -> slice s (s_i st) i' = piece ->
            s_i st < s_i (emit st piece i')
            /\ scan_delta s st (emit st piece i')
                 (slice s (s_i st) (s_i (emit st piece i')))).
  { intros piece i' Hlt Hs. cbn [emit s_i]. split; [exact Hlt|].
    rewrite Hs. apply emit_delta. }
  destruct (_in_protected (s_i st) protected) eqn:Ep.
  - apply existsb_find in Ep. destruct Ep as ([a en] & Hf & Hc). rewrite Hf in H.
    inversion H; subst; clear H.
    unfold covers in Hc. apply andb_true_iff in Hc. destruct Hc as [_ Hc].
    apply Nat.ltb_lt in Hc. simpl in Hc. apply Hplainstep; auto.
  - destruct (list_get_ok s _ Hi) as [ch Hch]. rewrite Hch in H. cbn [bind] in H.
    pose proof (slice_one _ _ _ (list_get_nth _ _ _ Hch)) as Hone.
    destruct ((code ch =? 10) && cnl && negb (is_empty_list (s_stack st))) eqn:Enl.
    + destruct (close_at_newline_ok (s_stack st) st Ho) as (st1 & H1 & _).
      rewrite H1 in H. cbn [bind] in H. inversion H; subst; clear H.
      destruct (close_at_newline_delta s _ _ _ Ho H1)
        as (Hi1 & Hk & new & He & Hp & Hne & Hr0 & Hlen).
      cbn [emit s_i]. split; [lia|]. unfold scan_delta. cbn [emit s_out s_edits s_i].
      rewrite Hone, concat_snoc, !keep_plain_app, Hk. split; [reflexivity|].
      exists new. split; [exact He|]. split; [exact Hp|]. split.
      * intros Hnil. exfalso. apply Hne; [|exact Hnil].
        apply andb_true_iff in Enl. destruct Enl as [_ Enl].
        destruct (s_stack st); [discriminate|discriminate].
      * rewrite length_app, Hlen, Hr0. simpl. lia.
    + fold (token_at s (s_i st)) in H.
      destruct (token_at s (s_i st)) as [tok|] eqn:Et.
      * apply token_at_some in Et. destruct Et as [Htok Hsw].
        pose proof (token_length _ Htok) as Hlen.
        pose proof (startswith_slice _ _ _ Hsw) as Hsl.
        destruct (_ mod 2 =? 1).
        -- inversion H; subst; clear H. apply Hplainstep; auto. lia.
        -- destruct (str_eqb tok (lit "$") && is_empty_list (s_stack st)) eqn:Ec.
           ++ destruct (_looks_like_currency_ok s (s_i st)) as [cur Hcur].
              rewrite Hcur in H. cbn [bind] in H. destruct cur.
              ** inversion H; subst; clear H.
                 apply andb_true_iff in Ec. destruct Ec as [Ec _].
                 apply str_eqb_eq in Ec. subst tok.
                 apply Hplainstep; [lia|exact Hsl].
              ** destruct (handle_token_ok st tok Htok Ho) as (st2 & H2 & Hi2 & _).
                 rewrite H2 in H. inversion H; subst st2; clear H.
                 split; [lia|]. rewrite Hi2, Hsl.
                 apply handle_token_delta; auto.
           ++ cbn [bind] in H.
              destruct (handle_token_ok st tok Htok Ho) as (st2 & H2 & Hi2 & _).
              rewrite H2 in H. inversion H; subst st2; clear H.
              split; [lia|]. rewrite Hi2, Hsl.
              apply handle_token_delta; auto.
      * inversion H; subst; clear H. apply Hplainstep; [lia|exact Hone].
Qed.

Lemma sorted_app (l1 l2 : list nat) :
  StronglySorted le l1 -> StronglySorted le l2 ->
  (forall a b, In a l1 -> In b l2 -> a <= b) ->
  StronglySorted le (l1 ++ l2).
Proof.
  induction l1 as [|x l1 IH]; intros H1 H2 H; simpl; [exact H2|].
  inversion H1 as [|x' l' Hs Hf]; subst. constructor.
  - apply IH; auto. intros a b Ha Hb. apply H; simpl; auto.
  - apply Forall_app. split; [exact Hf|].
    apply Forall_forall. intros b Hb. apply H; simpl; auto.
Qed.

Lemma same_pos_sorted i (l : list Edit) :
  Forall (fun e => pos e = i) l -> StronglySorted le (map pos l).
Proof.
  induction 1 as [|e l He Hl IH]; simpl; constructor; auto.
  apply Forall_forall. intros b Hb. apply in_map_iff in Hb.
  destruct Hb as (e' & <- & He'). rewrite Forall_forall in Hl.
  rewrite He, (Hl _ He'). auto.
Qed.

(** The whole loop: what it writes is the text it read up to characters
    of closers, and its edits come in the order of the text. *)
Lemma scan_loop_delta s protected cnl : forall fuel st st',
  openers_only (s_stack st) ->
  scan_loop fuel s protected cnl st = Ok st' ->
  s_i st <= s_i st' /\ length s <= s_i st'
  /\ openers_only (s_stack st')
  /\ keep_plain (concat (s_out st'))
     = keep_plain (concat (s_out st) ++ slice s (s_i st) (s_i st'))
  /\ exists new,
       s_edits st' = s_edits st ++ new
       /\ Forall (fun e => s_i st <= pos e < length s /\ edit_of s e) new
       /\ StronglySorted le (map pos new)
       /\ (new = [] ->
           concat (s_out st') = concat (s_out st) ++ slice s (s_i st) (s_i st'))
       /\ length (concat (s_out st')) + chars_removed new
          = length (concat (s_out st)) + length (slice s (s_i st) (s_i st'))
            + chars_added new.
Proof.
  induction fuel as [|fuel IH]; intros st st' Ho H; cbn [scan_loop] in H;
    destruct (s_i st <? length s) eqn:E; try discriminate.
  - apply Nat.ltb_ge in E. inversion H; subst; clear H.
    rewrite slice_nil, app_nil_r. repeat split; auto.
    exists []. rewrite app_nil_r. repeat split; auto; try constructor; tally.
  - apply Nat.ltb_lt in E.
    destruct (scan_step_ok s protected cnl st E Ho) as (st1 & H1 & _ & Ho1 & _).
    rewrite H1 in H. cbn [bind] in H.
    destruct (scan_step_delta _ _ _ _ _ E Ho H1)
      as (Hlt & Hk1 & new1 & He1 & Hp1 & Hn1 & Hl1).
    destruct (IH _ _ Ho1 H)
      as (Hle & Hend & Ho' & Hk2 & new2 & He2 & Hp2 & Hs2 & Hn2 & Hl2).
    split; [lia|]. split; [exact Hend|]. split; [exact Ho'|]. split.
    + rewrite Hk2, keep_plain_app, Hk1, <- keep_plain_app, <- app_assoc.
      rewrite <- slice_app by lia. reflexivity.
    + exists (new1 ++ new2). split; [rewrite He2, He1, app_assoc; reflexivity|].
      split; [|split; [|split]].
      * apply Forall_app. split.
        -- eapply Forall_impl; [|exact Hp1]. simpl. intros e [-> He]. split; [lia|auto].
        -- eapply Forall_impl; [|exact Hp2]. simpl. intros e [He He']. split; [lia|auto].
      * rewrite map_app. apply sorted_app; [|exact Hs2|].
        -- apply (same_pos_sorted (s_i st)).
           eapply Forall_impl; [|exact Hp1]. simpl. intros e [He _]. exact He.
        -- intros a b Ha Hb. apply in_map_iff in Ha, Hb.
           destruct Ha as (ea & <- & Ha). destruct Hb as (eb & <- & Hb).
           rewrite Forall_forall in Hp1, Hp2.
           destruct (Hp1 _ Ha) as [-> _]. destruct (Hp2 _ Hb) as [Hb' _]. lia.
      * intros Hnil. apply app_eq_nil in Hnil. destruct Hnil as [N1 N2].
        rewrite (Hn2 N2), (Hn1 N1), <- app_assoc, <- slice_app by lia. reflexivity.
      * rewrite (slice_app s (s_i st) (s_i st1) (s_i st')) by lia.
        unfold chars_removed, chars_added in *.
        rewrite !map_app, !list_sum_app, length_app. lia.
  - apply Nat.ltb_ge in E. inversion H; subst; clear H.
    rewrite slice_nil, app_nil_r. repeat split; auto.
    exists []. rewrite app_nil_r. repeat split; auto; try constructor; tally.
Qed.

Lemma end_closers_plain stack :
  openers_only stack -> keep_plain (concat (map end_closer stack)) = [].
Proof.
  induction 1 as [|e rest [closer Hc] Hr IH]; simpl; [reflexivity|].
  rewrite keep_plain_app, IH. unfold end_closer, closer_of. rewrite Hc.
  rewrite (matching_value_plain _ _ Hc). reflexivity.
Qed.

Lemma end_edits_tally n stack :
  chars_removed (map (end_edit n) stack) = 0
  /\ chars_added (map (end_edit n) stack) = length (concat (map end_closer stack)).
Proof.
  unfold chars_removed, chars_added.
  induction stack as [|x l [IH1 IH2]]; simpl; [auto|].
  rewrite IH1, IH2, length_app. auto.
Qed.

(** The scan and the closing of what is left open, together. *)
Lemma _scan_and_fix_summary s protected cnl :
  exists out edits,
    _scan_and_fix s protected cnl = Ok (out, edits)
    /\ keep_plain out = keep_plain s
    /\ StronglySorted le (map pos edits)
    /\ Forall (fun e => pos e <= length s /\ edit_of s e) edits
    /\ (edits = [] -> out = s)
    /\ length out + chars_removed edits = length s + chars_added edits.
Proof.
  unfold _scan_and_fix.
  destruct (scan_loop_ok s protected cnl (length s) scan_init) as (st & Hl & _);
    [simpl; lia|constructor|].
  rewrite Hl. cbn [bind].
  assert (Ho0 : openers_only (s_stack scan_init)) by constructor.
  destruct (scan_loop_delta _ _ _ _ _ _ Ho0 Hl)
    as (_ & Hend & Ho & Hk & new & He & Hp & Hs & Hn & Hlen).
  cbn [scan_init s_i s_out s_edits concat app] in *.
  rewrite (slice_all _ _ Hend) in *.
  rewrite (close_at_end_spec _ _ _ Ho). cbn [bind s_out s_edits].
  do 2 eexists. split; [reflexivity|]. rewrite He. split; [|split; [|split; [|split]]].
  - rewrite concat_app, keep_plain_app, Hk, (end_closers_plain _ Ho). apply app_nil_r.
  - rewrite map_app. apply sorted_app; [exact Hs| |].
    + apply (same_pos_sorted (length s)). apply Forall_forall.
      intros e Hin. apply in_map_iff in Hin. destruct Hin as (x & <- & _). reflexivity.
    + intros a b Ha Hb. apply in_map_iff in Ha, Hb.
      destruct Ha as (ea & <- & Ha). destruct Hb as (eb & <- & Hb).
      apply in_map_iff in Hb. destruct Hb as (x & <- & _).
      rewrite Forall_forall in Hp. destruct (Hp _ Ha) as [Ha' _]. simpl in *. lia.
  - apply Forall_app. split.
    + eapply Forall_impl; [|exact Hp]. simpl. intros e [H He']. split; [lia|auto].
    + apply Forall_forall. intros e Hin. apply in_map_iff in Hin.
      destruct Hin as (x & <- & Hx). split; [simpl; lia|].
      unfold openers_only in Ho. rewrite Forall_forall in Ho.
      destruct (Ho _ Hx) as [closer Hc].
      unfold end_edit, end_closer, closer_of. rewrite Hc.
      eapply insert_edit_of; eauto.
  - intros Hnil. apply app_eq_nil in Hnil. destruct Hnil as [N1 N2].
    apply map_eq_nil in N2. rewrite N2. simpl. rewrite app_nil_r. auto.
  - destruct (end_edits_tally (length s) (s_stack st)) as [Hz Hc].
    rewrite concat_app, length_app. unfold chars_removed, chars_added in *.
    rewrite !map_app, !list_sum_app, Hz, Hc. simpl in Hlen. lia.
Qed.

(** *** Where matches lie *)

Lemma iter_bounds (s : str) (R : rel) n :
  (forall i g j g', R i g j g' -> i <= j /\ (i <= length s -> j <= length s)) ->
  forall i g j g',
    iter_rel n R i g j g' -> i <= j /\ (i <= length s -> j <= length s).
Proof.
  intros HR. induction n as [|n IH]; intros i g j g' H; simpl in H.
  - destruct H as [-> _]. auto.
  - destruct H as (m & gm & H1 & H2). apply HR in H1. apply IH in H2. lia.
Qed.

(** A match never goes backwards and never leaves the text. *)
Lemma sem_bounds s r : forall i g j g',
  sem s r i g j g' -> i <= j /\ (i <= length s -> j <= length s).
Proof.
  induction r; intros i g j g' H; cbn [sem] in H.
  - destruct H as [-> _]. auto.
  - destruct H as (Hc & -> & _). split; [lia|]. intros _.
    apply Nat.le_succ_l. apply nth_error_Some. congruence.
  - destruct H as ((c & Hc & _) & -> & _). split; [lia|]. intros _.
    apply Nat.le_succ_l. apply nth_error_Some. congruence.
  - destruct H as (m & gm & H1 & H2). apply IHr1 in H1. apply IHr2 in H2. lia.
  - destruct H as [H|H]; [apply IHr1 in H|apply IHr2 in H]; exact H.
  - destruct H as (n & _ & _ & H). revert H. apply iter_bounds. exact IHr.
  - destruct H as (g1 & H & _). apply IHr in H. exact H.
  - destruct H as (a & b & _ & Hsw & -> & _). split; [lia|]. intros Hi.
    apply startswith_slice in Hsw. apply (f_equal (@length ascii)) in Hsw.
    unfold slice at 1 in Hsw. rewrite length_firstn, length_skipn in Hsw. lia.
  - destruct H as (_ & -> & _). auto.
  - destruct H as (_ & -> & _). auto.
  - destruct H as (_ & -> & _). auto.
Qed.

(** A match of a pattern that reads a character first is not empty and
    lies in the text. *)
Lemma sem_reads_first s r : reads_first r = true ->
  forall i g j g', sem s r i g j g' -> i < j <= length s.
Proof.
  induction r; intros Hr i g j g' H; cbn [reads_first] in Hr; try discriminate;
    cbn [sem] in H.
  - destruct H as (Hc & -> & _). split; [lia|].
    apply Nat.le_succ_l. apply nth_error_Some. congruence.
  - destruct H as ((c & Hc & _) & -> & _). split; [lia|].
    apply Nat.le_succ_l. apply nth_error_Some. congruence.
  - destruct H as (m & gm & H1 & H2). apply (IHr1 Hr) in H1.
    apply sem_bounds in H2. lia.
  - apply andb_true_iff in Hr. destruct Hr as [Hr1 Hr2].
    destruct H as [H|H]; [apply (IHr1 Hr1) in H|apply (IHr2 Hr2) in H]; exact H.
  - destruct H as (g1 & H & _). apply (IHr Hr) in H. exact H.
Qed.

Lemma finditer_span_within s r sp :
  reads_first r = true -> In sp (map span_of (finditer s r)) ->
  span_within (length s) sp.
Proof.
  intros Hr Hin. apply in_map_iff in Hin. destruct Hin as (m & <- & Hm).
  apply finditer_from_sem in Hm. apply (sem_reads_first _ _ Hr) in Hm. exact Hm.
Qed.

Lemma map_result_In {A B : Type} (f : A -> result B) : forall l ys y,
  map_result f l = Ok ys -> In y ys -> exists x, In x l /\ f x = Ok y.
Proof.
  induction l as [|x l IH]; intros ys y H Hin; simpl in H.
  - inversion H; subst. destruct Hin.
  - destruct (f x) as [y0| |] eqn:Ef; try discriminate. cbn [bind] in H.
    destruct (map_result f l) as [ys0| |] eqn:El; try discriminate. cbn [bind] in H.
    inversion H; subst. destruct Hin as [<-|Hin].
    + exists x. simpl; auto.
    + destruct (IH _ _ eq_refl Hin) as (x' & Hx & Hf). exists x'. simpl; auto.
Qed.

Lemma verb_env_span_within s m sp :
  In m (finditer s _verb_env_open) -> verb_env_span s m = Ok sp ->
  span_within (length s) sp.
Proof.
  intros Hm H. apply finditer_from_sem in Hm.
  apply (sem_reads_first s _verb_env_open eq_refl) in Hm.
  unfold verb_env_span in H.
  destruct (escape (group s m 1)) as [name| |]; try discriminate. cbn [bind] in H.
  destruct (re_search s (end_pat name) (m_end m)) as [close|] eqn:Ec;
    inversion H; subst; clear H; unfold span_within; simpl.
  - apply re_search_sem in Ec. destruct Ec as [Hpos Hsem].
    apply (sem_reads_first s (end_pat name) eq_refl) in Hsem. lia.
  - lia.
Qed.

(** *** The merged spans *)

Lemma apart_snoc : forall l a b,
  apart (l ++ [a]) = true -> snd a < fst b -> apart (l ++ [a; b]) = true.
Proof.
  induction l as [|x l IH]; intros a b H Hab.
  - simpl. rewrite andb_true_r. apply Nat.ltb_lt. exact Hab.
  - destruct l as [|y l].
    + simpl in *. apply andb_true_iff in H. destruct H as [H _].
      rewrite H. simpl. rewrite andb_true_r. apply Nat.ltb_lt. exact Hab.
    + change (apart ((x :: y :: l) ++ [a]))
        with ((snd x <? fst y) && apart ((y :: l) ++ [a])) in H.
      change (apart ((x :: y :: l) ++ [a; b]))
        with ((snd x <? fst y) && apart ((y :: l) ++ [a; b])).
      apply andb_true_iff in H. destruct H as [H1 H2].
      rewrite H1. simpl andb. apply IH; auto.
Qed.

Lemma apart_last : forall l (a a' : span),
  apart (l ++ [a]) = true -> fst a' = fst a -> apart (l ++ [a']) = true.
Proof.
  induction l as [|x l IH]; intros a a' H Ha; [reflexivity|].
  destruct l as [|y l].
  - simpl in *. rewrite Ha. exact H.
  - change (apart ((x :: y :: l) ++ [a]))
      with ((snd x <? fst y) && apart ((y :: l) ++ [a])) in H.
    change (apart ((x :: y :: l) ++ [a']))
      with ((snd x <? fst y) && apart ((y :: l) ++ [a'])).
    apply andb_true_iff in H. destruct H as [H1 H2].
    rewrite H1. simpl andb. eapply IH; eauto.
Qed.

(** One turn of the merging loop keeps the gaps and the bounds. *)
Lemma merge_step_apart n merged x :
  apart merged = true -> Forall (span_within n) merged -> span_within n x ->
  apart (merge_step merged x) = true
  /\ Forall (span_within n) (merge_step merged x).
Proof.
  intros Ha Hw Hx. unfold merge_step. destruct x as [st en].
  destruct (rev merged) as [|[a b] r] eqn:Er.
  - assert (merged = []) by (rewrite <- (rev_involutive merged), Er; reflexivity).
    subst merged. simpl. split; [reflexivity|]. constructor; auto.
  - assert (Hm : merged = rev r ++ [(a, b)])
      by (rewrite <- (rev_involutive merged), Er; reflexivity).
    rewrite Hm in Ha, Hw. apply Forall_app in Hw. destruct Hw as [Hw1 Hw2].
    inversion Hw2 as [|? ? Hab _]; subst.
    destruct (b <? st) eqn:E.
    + apply Nat.ltb_lt in E. rewrite <- app_assoc. simpl. split.
      * apply apart_snoc; auto.
      * apply Forall_app. split; auto.
    + rewrite removelast_last. split.
      * eapply apart_last; eauto.
      * apply Forall_app. split; auto. constructor; auto.
        unfold span_within in *. simpl in *. lia.
Qed.

Lemma merge_spans_apart n : forall l merged,
  apart merged = true -> Forall (span_within n) merged -> Forall (span_within n) l ->
  apart (fold_left merge_step l merged) = true
  /\ Forall (span_within n) (fold_left merge_step l merged).
Proof.
  induction l as [|x l IH]; intros merged Ha Hw Hl; simpl; [auto|].
  inversion Hl; subst.
  destruct (merge_step_apart n merged x) as [Ha' Hw']; auto.
Qed.

Lemma covers_merge i a b st en :
  a <= st -> st <= b ->
  covers i (a, Nat.max b en) = covers i (a, b) || covers i (st, en).
Proof.
  intros H1 H2. unfold covers. simpl. apply eq_iff_eq_true.
  rewrite orb_true_iff, !andb_true_iff, !Nat.leb_le, !Nat.ltb_lt. lia.
Qed.

(** One turn of the merging loop protects what was protected and what the
    new span covers, and nothing else. *)
Lemma merge_step_covers i merged x :
  (forall m, In m merged -> starts_le m x) ->
  existsb (covers i) (merge_step merged x) = existsb (covers i) merged || covers i x.
Proof.
  intros Hle. unfold merge_step. destruct x as [st en].
  destruct (rev merged) as [|[a b] r] eqn:Er.
  - assert (merged = []) by (rewrite <- (rev_involutive merged), Er; reflexivity).
    subst merged. simpl. apply orb_false_r.
  - assert (Hm : merged = rev r ++ [(a, b)])
      by (rewrite <- (rev_involutive merged), Er; reflexivity).
    destruct (b <? st) eqn:E.
    + rewrite existsb_app. simpl. rewrite orb_false_r. reflexivity.
    + apply Nat.ltb_ge in E. rewrite Hm, removelast_last, !existsb_app. simpl.
      rewrite !orb_false_r, <- orb_assoc. f_equal. apply covers_merge; auto.
      assert (Ha : starts_le (a, b) (st, en)).
      { apply Hle. rewrite Hm. apply in_or_app. right. simpl. auto. }
      exact Ha.
Qed.

Lemma merge_fold_covers i : forall l merged,
  StronglySorted starts_le l ->
  (forall m x, In m merged -> In x l -> starts_le m x) ->
  existsb (covers i) (fold_left merge_step l merged)
  = existsb (covers i) merged || existsb (covers i) l.
Proof.
  induction l as [|x l IH]; intros merged Hs Hle; simpl.
  - symmetry. apply orb_false_r.
  - inversion Hs as [|x' l' Hs' Hx]; subst.
    destruct (merge_step_props merged x) as (Hfst & _ & _).
    { intros m Hm. apply Hle; simpl; auto. }
    rewrite IH; auto.
    + rewrite merge_step_covers, orb_assoc; [reflexivity|].
      intros m Hm. apply Hle; simpl; auto.
    + intros m' y Hm' Hy. apply Hfst in Hm'. destruct Hm' as (m & [Hm| -> ] & Hf).
      * unfold starts_le. rewrite Hf. apply Hle; simpl; auto.
      * unfold starts_le. rewrite Hf. rewrite Forall_forall in Hx. apply Hx. exact Hy.
Qed.

Lemma existsb_sort_spans (f : span -> bool) l :
  existsb f (sort_spans l) = existsb f l.
Proof.
  apply eq_iff_eq_true. rewrite !existsb_exists.
  split; intros (x & Hx & Hf); exists x; split; auto; apply sort_spans_In; auto.
Qed.

(** *** Properties of the protected spans *)

(** X1.  For every text, [_protected_spans] returns spans that are not
    empty, lie in the text, and come in ascending order with a gap between
    one and the next: each span ends before the next one starts, so no
    two of them overlap or touch. *)
Theorem protected_spans_separated s :
  exists spans,
    _protected_spans s = Ok spans
    /\ apart spans = true
    /\ Forall (span_within (length s)) spans.
Proof.
  unfold _protected_spans.
  destruct (map_result (verb_env_span s) (finditer s _verb_env_open))
    as [envs| |] eqn:Ee.
  - cbn [bind]. eexists. split; [reflexivity|].
    apply merge_spans_apart; [reflexivity|constructor|].
    apply Forall_forall. intros sp Hin. apply (proj1 (sort_spans_In _ _)) in Hin.
    apply in_app_or in Hin. destruct Hin as [Hin|Hin];
      [revert Hin; apply finditer_span_within; reflexivity|].
    apply in_app_or in Hin. destruct Hin as [Hin|Hin];
      [revert Hin; apply finditer_span_within; reflexivity|].
    apply in_app_or in Hin. destruct Hin as [Hin|Hin];
      [revert Hin; apply finditer_span_within; reflexivity|].
    apply in_app_or in Hin. destruct Hin as [Hin|Hin];
      [|revert Hin; apply finditer_span_within; reflexivity].
    destruct (map_result_In _ _ _ _ Ee Hin) as (m & Hm & Hsp).
    eapply verb_env_span_within; eauto.
  - destruct (_protected_spans_ok s) as [spans H]. unfold _protected_spans in H.
    rewrite Ee in H. discriminate.
  - destruct (_protected_spans_ok s) as [spans H]. unfold _protected_spans in H.
    rewrite Ee in H. discriminate.
Qed.

(** X2.  Sorting and merging a list of spans does not change which
    indices are protected: an index lies in one of the merged spans exactly
    when it lies in one of the spans of the list. *)
Theorem merged_spans_protect_same_indices (spans : list span) (i : nat) :
  _in_protected i (merge_spans (sort_spans spans)) = _in_protected i spans.
Proof.
  unfold _in_protected, merge_spans.
  rewrite merge_fold_covers.
  - simpl. apply existsb_sort_spans.
  - apply sort_spans_sorted.
  - intros m x [].
Qed.

(** *** Properties of the repair of delimiters *)

(** X3.  [LaTeXFixer.fix] adds, removes and replaces nothing but
    characters of closers: with every backslash, dollar, closing bracket
    and closing parenthesis left out, the text it returns is the text it
    was given. *)
Theorem fix_keeps_other_characters text close_on_newline :
  exists out edits,
    LaTeXFixer_fix text close_on_newline = Ok (out, edits)
    /\ keep_plain out = keep_plain text.
Proof.
  unfold LaTeXFixer_fix.
  destruct (_protected_spans_ok text) as [spans ->]. cbn [bind].
  destruct (_scan_and_fix_summary text spans close_on_newline)
    as (out & edits & H & Hk & _).
  exists out, edits. auto.
Qed.

(** X4.  The edits that [fix_latex_delimiters] returns are in the order of
    the text: their positions never decrease along the list, and none is
    beyond the length of the text. *)
Theorem fix_latex_delimiters_edits_ordered text close_on_newline :
  exists fixed edits,
    fix_latex_delimiters text close_on_newline = Ok (fixed, edits)
    /\ StronglySorted le (map pos edits)
    /\ Forall (fun e => pos e <= length text) edits.
Proof.
  unfold fix_latex_delimiters, LaTeXFixer_fix.
  destruct (_protected_spans_ok text) as [spans ->]. cbn [bind].
  destruct (_scan_and_fix_summary text spans close_on_newline)
    as (out & edits & -> & _ & Hs & Hp & _).
  cbn [bind]. destruct (fix_align_environments_ok out) as [fixed ->]. cbn [bind].
  exists fixed, edits. split; [reflexivity|]. split; [exact Hs|].
  eapply Forall_impl; [|exact Hp]. simpl. intros e [He _]. exact He.
Qed.

(** X5.  Every edit that [fix_latex_delimiters] returns has one of three
    shapes: an insertion of a closer with an empty [before]; a deletion,
    with an empty [after], of a token that only closes; or a replacement
    of such a token by a different closer.  So no dollar and no opener is
    ever deleted or replaced, and no opener is ever inserted.  The
    [before] of every edit is what the text has at the position of the
    edit. *)
Theorem fix_latex_delimiters_edit_shapes text close_on_newline :
  exists fixed edits,
    fix_latex_delimiters text close_on_newline = Ok (fixed, edits)
    /\ Forall (fun e => edit_shape e = true
                       /\ startswith text (before e) (pos e) = true) edits.
Proof.
  unfold fix_latex_delimiters, LaTeXFixer_fix.
  destruct (_protected_spans_ok text) as [spans ->]. cbn [bind].
  destruct (_scan_and_fix_summary text spans close_on_newline)
    as (out & edits & -> & _ & _ & Hp & _).
  cbn [bind]. destruct (fix_align_environments_ok out) as [fixed ->]. cbn [bind].
  exists fixed, edits. split; [reflexivity|].
  eapply Forall_impl; [|exact Hp]. simpl. intros e [_ He]. exact He.
Qed.

(** X6.  When [LaTeXFixer.fix] returns an empty list of edits, the text it
    returns is the text it was given. *)
Theorem fix_without_edits_unchanged text close_on_newline out :
  LaTeXFixer_fix text close_on_newline = Ok (out, []) -> out = text.
Proof.
  unfold LaTeXFixer_fix.
  destruct (_protected_spans_ok text) as [spans ->]. cbn [bind].
  destruct (_scan_and_fix_summary text spans close_on_newline)
    as (out' & edits & H & _ & _ & _ & Hn & _).
  rewrite H. intros E. inversion E; subst. auto.
Qed.

Lemma fix_without_edits_unchanged_witness :
  LaTeXFixer_fix price_text false = Ok (price_text, [])
  /\ price_text = price_text.
Proof.
  assert (H : LaTeXFixer_fix price_text false = Ok (price_text, []))
    by (vm_compute; reflexivity).
  split; [exact H|]. exact (fix_without_edits_unchanged _ _ _ H).
Defined.

(** X7.  The edits account for every change of length: the length of the
    text that [LaTeXFixer.fix] returns, plus the lengths of the [before]
    of its edits, is the length of the text it was given plus the lengths
    of the [after] of its edits. *)
Theorem fix_edits_account_for_length text close_on_newline :
  exists out edits,
    LaTeXFixer_fix text close_on_newline = Ok (out, edits)
    /\ length out + chars_removed edits = length text + chars_added edits.
Proof.
  unfold LaTeXFixer_fix.
  destruct (_protected_spans_ok text) as [spans ->]. cbn [bind].
  destruct (_scan_and_fix_summary text spans close_on_newline)
    as (out & edits & H & _ & _ & _ & _ & Hl).
  exists out, edits. auto.
Qed.

(** *** Literal text in patterns *)

Lemma startswith_firstn (s t : str) i :
  startswith s t i = true <-> firstn (length t) (skipn i s) = t.
Proof.
  unfold startswith, slice. replace (i + length t - i) with (length t) by lia.
  apply str_eqb_eq.
Qed.

Lemma startswith_app (s a b : str) i :
  startswith s (a ++ b) i = true
  <-> startswith s a i = true /\ startswith s b (i + length a) = true.
Proof.
  rewrite !startswith_firstn, length_app, firstn_plus, skipn_skipn.
  replace (length a + i) with (i + length a) by lia.
  split.
  - intros H.
    assert (Hl : length (firstn (length a) (skipn i s)) = length a).
    { apply (f_equal (@length ascii)) in H. rewrite !length_app in H.
      pose proof (firstn_le_length (length a) (skipn i s)).
      pose proof (firstn_le_length (length b) (skipn (i + length a) s)). lia. }
    pose proof (f_equal (firstn (length a)) H) as H1.
    rewrite !firstn_app, Hl, Nat.sub_diag, !firstn_O, !app_nil_r in H1.
    rewrite firstn_firstn, Nat.min_id, firstn_all in H1.
    split; [exact H1|]. rewrite H1 in H. apply app_inv_head in H. exact H.
  - intros [-> ->]. reflexivity.
Qed.

Lemma startswith_contains : forall (s t : str) i,
  startswith s t i = true -> contains s t = true.
Proof.
  induction s as [|c s IH]; intros t i H.
  - apply startswith_firstn in H. rewrite skipn_nil, firstn_nil in H. subst t.
    reflexivity.
  - destruct i as [|i]; cbn [contains].
    + rewrite H. reflexivity.
    + apply orb_true_iff. right. apply (IH t i).
      apply startswith_firstn. apply startswith_firstn in H. exact H.
Qed.

(** A match of a literal is the literal, standing in the text. *)
Lemma sem_str_of s : forall t i g j g',
  sem s (Str_of t) i g j g' ->
  startswith s t i = true /\ j = i + length t /\ g' = g.
Proof.
  induction t as [|c t IH]; intros i g j g' H.
  - destruct H as [-> ->]. rewrite startswith_nil. simpl. auto.
  - destruct t as [|c' t].
    + destruct H as (Hc & -> & ->). split; [|simpl; split; [lia|reflexivity]].
      unfold startswith. simpl length. rewrite (slice_one _ _ _ Hc).
      apply str_eqb_refl.
    + destruct H as (m & gm & (Hc & -> & ->) & H). apply IH in H.
      destruct H as (Hsw & -> & ->). split; [|simpl; split; [lia|reflexivity]].
      change (c :: c' :: t) with ([c] ++ c' :: t). apply startswith_app. split.
      * unfold startswith. simpl length. rewrite (slice_one _ _ _ Hc).
        apply str_eqb_refl.
      * simpl length. replace (i + 1) with (S i) by lia. exact Hsw.
Qed.

(** Every match of the align pattern starts with the text "\begin{align". *)
Lemma align_match_literal s i g j g' :
  sem s align_re i g j g' -> startswith s (lit "\begin{align") i = true.
Proof.
  intros H. unfold align_re in H. cbn [Seq] in H.
  destruct H as (m1 & g1 & H1 & m2 & g2 & (g3 & HA & _) & _).
  apply (sem_str_of s (lit "\begin{")) in H1. destruct H1 as (Hb & -> & ->).
  change (lit "\begin{align") with (lit "\begin{" ++ lit "align").
  apply startswith_app. split; [exact Hb|].
  destruct HA as [(m3 & g4 & Ha & _)|Ha].
  - apply (sem_str_of s (lit "align")) in Ha. apply Ha.
  - apply (sem_str_of s (lit "aligned")) in Ha. destruct Ha as [Ha _].
    change (lit "aligned") with (lit "align" ++ lit "ed") in Ha.
    apply startswith_app in Ha. apply Ha.
Qed.

Lemma no_begin_align_no_env text :
  contains text (lit "\begin{align") = false -> re_search text align_re 0 = None.
Proof.
  intros H. destruct (re_search text align_re 0) as [m|] eqn:E; [|reflexivity].
  apply re_search_sem in E. destruct E as [_ E].
  apply align_match_literal in E. apply startswith_contains in E. congruence.
Qed.

(** *** Properties of the normalising of align environments *)

(** X8.  [fix_align_environments] returns a text that does not contain
    "\begin{align" as it is. *)
Theorem fix_align_environments_without_align text :
  contains text (lit "\begin{align") = false ->
  fix_align_environments text = Ok text.
Proof.
  intros H. unfold fix_align_environments. apply re_sub_no_match.
  apply no_begin_align_no_env. exact H.
Qed.

Lemma fix_align_environments_without_align_witness :
  contains price_text (lit "\begin{align") = false
  /\ fix_align_environments price_text = Ok price_text.
Proof.
  assert (H : contains price_text (lit "\begin{align") = false) by reflexivity.
  split; [exact H|]. exact (fix_align_environments_without_align _ H).
Defined.

(** X9.  When [fix_latex_delimiters] returns no edits for a text that does
    not contain "\begin{align", the text it returns is the text it was
    given. *)
Theorem fix_latex_delimiters_no_edits_unchanged text close_on_newline fixed :
  contains text (lit "\begin{align") = false ->
  fix_latex_delimiters text close_on_newline = Ok (fixed, []) ->
  fixed = text.
Proof.
  intros Ha. unfold fix_latex_delimiters, LaTeXFixer_fix.
  destruct (_protected_spans_ok text) as [spans ->]. cbn [bind].
  destruct (_scan_and_fix_summary text spans close_on_newline)
    as (out & edits & -> & _ & _ & _ & Hn & _).
  cbn [bind]. destruct (fix_align_environments out) as [fixed'| |] eqn:Ef;
    cbn [bind]; try discriminate.
  intros E. inversion E; subst. rewrite (Hn eq_refl) in Ef.
  unfold fix_align_environments in Ef.
  rewrite (re_sub_no_match _ _ _ (no_begin_align_no_env _ Ha)) in Ef. congruence.
Qed.

Lemma fix_latex_delimiters_no_edits_unchanged_witness :
  contains inline_math_text (lit "\begin{align") = false
  /\ fix_latex_delimiters inline_math_text true = Ok (inline_math_text, [])
  /\ inline_math_text = inline_math_text.
Proof.
  assert (Ha : contains inline_math_text (lit "\begin{align") = false) by reflexivity.
  assert (H : fix_latex_delimiters inline_math_text true = Ok (inline_math_text, []))
    by (vm_compute; reflexivity).
  split; [exact Ha|]. split; [exact H|].
  exact (fix_latex_delimiters_no_edits_unchanged _ _ _ Ha H).
Defined.

(** *** The first characters of a match *)

Lemma iter_first (R : rel) n i g j g' :
  1 <= n -> iter_rel n R i g j g' -> exists m gm, R i g m gm.
Proof.
  intros Hn H. destruct n as [|n]; [lia|]. cbn [iter_rel] in H.
  destruct H as (m & gm & H & _). eauto.
Qed.

(** *** Lines without fences *)

Lemma track_lines_no_fence : forall lines st i,
  in_block st = false -> no_fence_lines lines = true ->
  track_lines st i lines = Ok st.
Proof.
  induction lines as [|line rest IH]; intros st i Hb Hn; simpl; [reflexivity|].
  simpl in Hn. apply andb_true_iff in Hn. destruct Hn as [Hl Hr].
  unfold track_line. rewrite Hb. cbn [negb].
  unfold matches in Hl. destruct (re_match line OPEN_FENCE_RE); [discriminate|].
  cbn [bind]. apply IH; auto.
Qed.

(** *** Leading white space *)

Lemma lstrip_skipn : forall n (s : str),
  (forall x, x < n -> exists c, nth_error s x = Some c /\ is_space c = true) ->
  (exists c, nth_error s n = Some c /\ is_space c = false) ->
  lstrip s = skipn n s.
Proof.
  induction n as [|n IH]; intros s Hsp Hc.
  - destruct Hc as (c & Hc & Hns). destruct s as [|c0 s]; [discriminate|].
    simpl in Hc. inversion Hc; subst. simpl. rewrite Hns. reflexivity.
  - destruct s as [|c0 s].
    + destruct Hc as (c & Hc & _). discriminate.
    + destruct (Hsp 0) as (c & Hc0 & Hs0); [lia|]. simpl in Hc0. inversion Hc0; subst.
      simpl. rewrite Hs0. apply IH.
      * intros x Hx. apply (Hsp (S x)). lia.
      * exact Hc.
Qed.

Lemma blank_is_space c : blank_ch c = true -> is_space c = true.
Proof.
  unfold blank_ch, is_space, in_range. intros H.
  apply orb_true_iff in H. destruct H as [H|H]; apply Nat.eqb_eq in H; rewrite H;
    reflexivity.
Qed.

Lemma ch_eqb_eq a b : ch_eqb a b = true -> a = b.
Proof. apply Ascii.eqb_eq. Qed.

(** *** Closing at a line break *)

Lemma close_at_newline_spec : forall stack st,
  openers_only stack ->
  exists st', close_at_newline stack st = Ok st'
              /\ s_i st' = s_i st /\ s_stack st' = []
              /\ s_out st' = s_out st ++ map end_closer stack.
Proof.
  induction stack as [|e rest IH]; intros st Ho; simpl.
  - eexists. split; [reflexivity|]. cbn. rewrite app_nil_r. auto.
  - inversion Ho as [|e' r' [closer Hc] Hr]; subst.
    rewrite (insert_closer_ok _ _ _ _ Hc). cbn [bind].
    match goal with
    | |- exists st', close_at_newline rest ?st1 = _ /\ _ =>
        destruct (IH st1 Hr) as (st' & H & Hi & Hs & Hout)
    end.
    exists st'. split; [exact H|]. cbn in Hi, Hout. rewrite Hout, <- app_assoc.
    unfold end_closer, closer_of. rewrite Hc. auto.
Qed.

(** *** Further properties of the scan *)

(** X10.  A dollar that [_looks_like_currency] accepts is a dollar sign
    followed by a decimal digit. *)
Theorem currency_is_dollar_then_digit s i :
  _looks_like_currency s i = Ok true ->
  nth_error s i = Some "$"%char
  /\ exists d, nth_error s (i + 1) = Some d /\ is_digit d = true.
Proof.
  unfold _looks_like_currency.
  destruct (re_match (skipn i s) currency_re) as [m|] eqn:E; [|discriminate].
  intros _. unfold re_match in E. apply match_at_sem in E. destruct E as [_ E].
  unfold currency_re in E. cbn [Seq] in E.
  destruct E as (m1 & g1 & (Hc & -> & ->) & m2 & g2 & (g3 & HA & _) & _).
  rewrite nth_error_skipn, Nat.add_0_r in Hc. split; [exact Hc|].
  assert (Hd : exists m gm, sem (skipn i s) Digit 1 [] m gm).
  { destruct HA as [(m3 & g4 & (n & Hn & _ & Hit) & _)|(n & Hn & _ & Hit)];
      eapply iter_first; eauto. }
  destruct Hd as (m5 & g5 & (d & Hd & Hp) & _).
  rewrite nth_error_skipn in Hd. eauto.
Qed.

Lemma currency_is_dollar_then_digit_witness :
  _looks_like_currency price_text 13 = Ok true
  /\ nth_error price_text 13 = Some "$"%char
  /\ exists d, nth_error price_text (13 + 1) = Some d /\ is_digit d = true.
Proof.
  assert (H : _looks_like_currency price_text 13 = Ok true) by (vm_compute; reflexivity).
  split; [exact H|]. exact (currency_is_dollar_then_digit _ _ H).
Defined.

(** X11.  With [close_on_newline], a line feed outside the protected spans
    closes all the math that is open: the closers of the entries of the
    stack are written, the innermost first, then the line feed, and the
    stack is empty afterwards. *)
Theorem newline_closes_open_math s protected st :
  openers_only (s_stack st) ->
  _in_protected (s_i st) protected = false ->
  list_get s (s_i st) = Ok (chr 10) ->
  exists st',
    scan_step s protected true st = Ok st'
    /\ s_stack st' = []
    /\ s_i st' = s_i st + 1
    /\ s_out st' = s_out st ++ map end_closer (s_stack st) ++ [NL].
Proof.
  intros Ho Hp Hc. unfold scan_step. rewrite Hp, Hc. cbn [bind].
  change (code (chr 10) =? 10) with true. cbn [andb].
  destruct (s_stack st) as [|e rest] eqn:Es.
  - cbn [is_empty_list negb].
    fold (token_at s (s_i st)).
    destruct (token_at s (s_i st)) as [tok|] eqn:Et.
    + apply token_first_char in Et. destruct Et as (ch & Hch & Hne).
      rewrite Hc in Hch. inversion Hch; subst ch. discriminate.
    + eexists. split; [reflexivity|]. cbn. rewrite Es. auto.
  - cbn [is_empty_list negb].
    destruct (close_at_newline_spec (e :: rest) st Ho) as (st1 & H1 & Hi & Hs & Hout).
    rewrite H1. cbn [bind]. eexists. split; [reflexivity|]. cbn.
    rewrite Hout, <- app_assoc. auto.
Qed.

Lemma newline_closes_open_math_witness :
  exists st',
    scan_step tilde_fenced_text [] true (mkScan 6 [lit "~~~"; NL; lit "$"; lit "x"] []
                                           [(lit "$", 2, 4)]) = Ok st'
    /\ s_stack st' = []
    /\ s_i st' = 6 + 1
    /\ s_out st' = [lit "~~~"; NL; lit "$"; lit "x"]
                   ++ map end_closer [(lit "$", 2, 4)] ++ [NL].
Proof.
  apply (newline_closes_open_math tilde_fenced_text []
           (mkScan 6 [lit "~~~"; NL; lit "$"; lit "x"] [] [(lit "$", 2, 4)])).
  - constructor; [|constructor]. exists (lit "$"). reflexivity.
  - reflexivity.
  - reflexivity.
Defined.

(** X12.  [_count_trailing_backslashes] counts the backslashes that end
    the prefix: [k] backslashes after a prefix add [k] to the count of the
    prefix, a prefix that ends with another character counts zero, and the
    count is never more than the length of the prefix. *)
Theorem trailing_backslashes_counted (p : str) (c : ascii) (k : nat) :
  _count_trailing_backslashes (p ++ repeat_char "\" k)
  = k + _count_trailing_backslashes p
  /\ _count_trailing_backslashes (p ++ [c])
     = (if ch_eqb c "\" then S (_count_trailing_backslashes p) else 0)
  /\ _count_trailing_backslashes p <= length p.
Proof.
  unfold _count_trailing_backslashes, repeat_char. split; [|split].
  - rewrite rev_app_distr, rev_repeat.
    induction k as [|k IH]; simpl; [reflexivity|]. rewrite IH. reflexivity.
  - rewrite rev_app_distr. reflexivity.
  - rewrite <- length_rev. induction (rev p) as [|x l IH]; simpl; [lia|].
    destruct (ch_eqb x "\"); lia.
Qed.

(** *** Section boundaries *)

Lemma atx_header_hashes line i g j g' :
  sem line ATX_HEADER_RE i g j g' ->
  exists n,
    (forall x, i <= x < i + n ->
       exists c, nth_error line x = Some c /\ blank_ch c = true)
    /\ nth_error line (i + n) = Some "#"%char
    /\ nth_error line (i + n + 1) = Some "#"%char
    /\ nth_error line (i + n + 2) = Some "#"%char.
Proof.
  intros H. unfold ATX_HEADER_RE in H. cbn [Seq] in H.
  destruct H as (m1 & g1 & (_ & -> & ->) & m2 & g2 & (n & _ & _ & Hb)
                 & m3 & g3 & (k & Hk & _ & Hh) & _).
  apply (iter_cls_chars line blank_ch) in Hb.
  2:{ intros a b c d [Hc (-> & ->)]. auto. }
  destruct Hb as (-> & -> & Hb).
  apply (iter_cls_chars line (fun c => ch_eqb "#" c)) in Hh.
  2:{ intros a b c d (Hc & -> & ->). repeat split; auto.
      exists "#"%char. split; [exact Hc|reflexivity]. }
  destruct Hh as (_ & _ & Hh).
  exists n. split; [exact Hb|].
  assert (Hx : forall x, x < 3 -> nth_error line (i + n + x) = Some "#"%char).
  { intros x Hx. destruct (Hh (i + n + x)) as (c & Hc & Hp); [lia|].
    apply ch_eqb_eq in Hp. subst c. exact Hc. }
  rewrite <- (Nat.add_0_r (i + n)) at 1. repeat split; apply Hx; lia.
Qed.

(** *** Properties of the checks on lines *)

(** X13.  A line that [looks_like_section_boundary] accepts starts, after
    its leading white space, with three hashes: only a heading of level
    three or deeper can end a code block that has no closing fence. *)
Theorem section_boundary_starts_with_hashes lines idx :
  looks_like_section_boundary lines idx = Ok true ->
  exists cur,
    nth_error lines idx = Some cur
    /\ startswith (lstrip cur) (lit "###") 0 = true.
Proof.
  unfold looks_like_section_boundary.
  destruct (list_get lines idx) as [cur| |] eqn:Ec; try discriminate. cbn [bind].
  intros H. exists cur. split; [apply list_get_nth; exact Ec|].
  destruct (existsb (fun m => startswith (lstrip cur) m 0) SECTION_MARKERS) eqn:Em.
  - apply existsb_exists in Em. destruct Em as (m & Hin & Hsw).
    cbv [SECTION_MARKERS] in Hin. cbn [In] in Hin.
    destruct Hin as [<-|[<-|[<-|[]]]].
    + change (lit "### Improvements") with (lit "###" ++ lit " Improvements") in Hsw.
      apply startswith_app in Hsw. apply Hsw.
    + change (lit "### Revised Answer") with (lit "###" ++ lit " Revised Answer") in Hsw.
      apply startswith_app in Hsw. apply Hsw.
    + change (lit "### Comments") with (lit "###" ++ lit " Comments") in Hsw.
      apply startswith_app in Hsw. apply Hsw.
  - unfold matches in H.
    destruct (re_match cur ATX_HEADER_RE) as [m|] eqn:Ea; [|discriminate].
    unfold re_match in Ea. apply match_at_sem in Ea. destruct Ea as [_ Ea].
    apply atx_header_hashes in Ea. destruct Ea as (n & Hb & H0 & H1 & H2).
    simpl in Hb, H0, H1, H2.
    rewrite (lstrip_skipn n).
    + apply startswith_firstn. simpl skipn.
      rewrite (skipn_nth_cons _ _ _ H0).
      replace (n + 1) with (S n) in H1 by lia.
      rewrite (skipn_nth_cons _ _ _ H1).
      replace (n + 2) with (S (S n)) in H2 by lia.
      rewrite (skipn_nth_cons _ _ _ H2). reflexivity.
    + intros x Hx. destruct (Hb x) as (c & Hc & Hp); [lia|].
      exists c. split; [exact Hc|apply blank_is_space; exact Hp].
    + exists "#"%char. split; [exact H0|reflexivity].
Qed.

Lemma section_boundary_starts_with_hashes_witness :
  looks_like_section_boundary [lit "x = 1"; lit "  ### Comments"] 1 = Ok true
  /\ exists cur,
       nth_error [lit "x = 1"; lit "  ### Comments"] 1 = Some cur
       /\ startswith (lstrip cur) (lit "###") 0 = true.
Proof.
  assert (H : looks_like_section_boundary [lit "x = 1"; lit "  ### Comments"] 1
              = Ok true) by (vm_compute; reflexivity).
  split; [exact H|]. exact (section_boundary_starts_with_hashes _ _ H).
Defined.

(** X14.  A text none of whose lines is a fence line validates without
    issues, and [ensure_fenced_code] returns its lines joined by line
    feeds, with no messages. *)
Theorem fence_free_text_is_valid text default_lang keep_fence_char :
  no_fence_lines (splitlines text) = true ->
  validate_code_fences text = Ok (true, [])
  /\ ensure_fenced_code text default_lang keep_fence_char
     = Ok (join NL (splitlines text), []).
Proof.
  intros Hn.
  assert (Hv : validate_code_fences text = Ok (true, [])).
  { unfold validate_code_fences.
    rewrite track_lines_no_fence by auto. cbv beta iota zeta delta [bind in_block].
    match goal with
    | |- context [count_lines ?a ?b ?c] =>
        pose proof (count_lines_no_issue c a b) as Hc;
        destruct (count_lines a b c) as [d issues]
    end.
    simpl in Hc. subst issues. reflexivity. }
  split; [exact Hv|].
  unfold ensure_fenced_code. rewrite Hv. cbn [bind negb].
  rewrite (fix_code_fences_no_fence _ _ _ Hn). reflexivity.
Qed.

Lemma fence_free_text_is_valid_witness :
  no_fence_lines (splitlines two_lines_text) = true
  /\ validate_code_fences two_lines_text = Ok (true, [])
  /\ ensure_fenced_code two_lines_text None true
     = Ok (join NL (splitlines two_lines_text), []).
Proof.
  assert (H : no_fence_lines (splitlines two_lines_text) = true) by reflexivity.
  split; [exact H|]. exact (fence_free_text_is_valid _ None true H).
Defined.

(** *** Runs of one character *)

Lemma char_run_skipn c (s : str) i :
  char_run c (skipn i s)
  = match nth_error s i with
    | Some x => if ch_eqb c x then S (char_run c (skipn (S i) s)) else 0
    | None => 0
    end.
Proof.
  destruct (nth_error s i) as [x|] eqn:E.
  - rewrite (skipn_nth_cons _ _ _ E). reflexivity.
  - apply nth_error_None in E. rewrite skipn_all2 by exact E. reflexivity.
Qed.

Lemma char_run_le c : forall t : str, char_run c t <= length t.
Proof.
  induction t as [|x t IH]; simpl; [lia|]. destruct (ch_eqb c x); lia.
Qed.

Lemma char_run_ge c : forall (t : str) n,
  (forall x, x < n -> nth_error t x = Some c) -> n <= char_run c t.
Proof.
  induction t as [|y t IH]; intros n H.
  - destruct n; [lia|]. specialize (H 0 ltac:(lia)). discriminate.
  - destruct n as [|n]; [lia|]. simpl.
    pose proof (H 0 ltac:(lia)) as H0. simpl in H0. inversion H0; subst.
    unfold ch_eqb. rewrite Ascii.eqb_refl. apply le_n_S. apply IH.
    intros x Hx. apply (H (S x)). lia.
Qed.

Lemma char_run_spec c : forall (t : str) x,
  x < char_run c t -> nth_error t x = Some c.
Proof.
  induction t as [|y t IH]; intros x H; simpl in H; [lia|].
  destruct (ch_eqb c y) eqn:E; [|lia]. apply ch_eqb_eq in E. subst y.
  destruct x as [|x]; [reflexivity|]. simpl. apply IH. lia.
Qed.

(** The greedy repetition of one character reads the whole run. *)
Lemma rep_opt_chr_run s c g : forall fuel i,
  char_run c (skipn i s) <= fuel ->
  rep_opt (mtch s (Chr c)) true fuel None (fun j g' => Some (j, g')) i g
  = Some (i + char_run c (skipn i s), g).
Proof.
  induction fuel as [|fuel IH]; intros i Hf.
  - simpl. replace (char_run c (skipn i s)) with 0 by lia.
    rewrite Nat.add_0_r. reflexivity.
  - cbn [rep_opt bound_reached dec_bound]. rewrite mtch_chr_eq.
    rewrite char_run_skipn in Hf |- *. unfold char_at.
    destruct (nth_error s i) as [x|]; [|rewrite Nat.add_0_r; reflexivity].
    destruct (ch_eqb c x); [|rewrite Nat.add_0_r; reflexivity].
    replace (i <? S i) with true by (symmetry; apply Nat.ltb_lt; lia).
    rewrite IH by lia. f_equal. f_equal. lia.
Qed.

Lemma mtch_rep_eq s greedy lo hi r k i g :
  mtch s (Rep greedy lo hi r) k i g
  = rep_min (mtch s r) lo
      (rep_opt (mtch s r) greedy (S (length s)) (bound_minus hi lo)) k i g.
Proof. reflexivity. Qed.

Lemma match_at_run s c i :
  match_at s (BACKTICKS_RUN_RE c) i
  = match nth_error s i with
    | Some x =>
        if ch_eqb c x
        then Some (mkMatch i (i + char_run c (skipn i s)) [])
        else None
    | None => None
    end.
Proof.
  unfold match_at, BACKTICKS_RUN_RE, Plus. rewrite mtch_rep_eq.
  cbn [rep_min bound_minus]. rewrite mtch_chr_eq. unfold char_at.
  rewrite (char_run_skipn c s i).
  destruct (nth_error s i) as [x|]; [|reflexivity].
  destruct (ch_eqb c x); [|reflexivity].
  rewrite rep_opt_chr_run.
  - replace (S i + char_run c (skipn (S i) s))
      with (i + S (char_run c (skipn (S i) s))) by lia. reflexivity.
  - pose proof (char_run_le c (skipn (S i) s)). rewrite length_skipn in H. lia.
Qed.

(** The search finds the run that holds a given occurrence, or one
    before it. *)
Lemma search_from_run s c : forall fuel i y,
  i <= y -> y <= i + fuel -> nth_error s y = Some c ->
  exists m,
    search_from s (BACKTICKS_RUN_RE c) fuel i = Some m
    /\ i <= m_start m <= y
    /\ m_start m < m_end m
    /\ m_end m = m_start m + char_run c (skipn (m_start m) s).
Proof.
  induction fuel as [|fuel IH]; intros i y Hiy Hy Hc; cbn [search_from];
    rewrite match_at_run.
  - assert (y = i) by lia. subst y. rewrite Hc. unfold ch_eqb.
    rewrite Ascii.eqb_refl. eexists. split; [reflexivity|]. simpl.
    rewrite (char_run_skipn c s i), Hc. unfold ch_eqb. rewrite Ascii.eqb_refl. lia.
  - destruct (nth_error s i) as [x|] eqn:Ex.
    + destruct (ch_eqb c x) eqn:E.
      * eexists. split; [reflexivity|]. simpl.
        rewrite (char_run_skipn c s i), Ex, E. lia.
      * assert (i <> y).
        { intros ->. rewrite Hc in Ex. inversion Ex; subst.
          unfold ch_eqb in E. rewrite Ascii.eqb_refl in E. discriminate. }
        destruct (IH (S i) y) as (m & Hm & Hs & Hr); try lia; auto.
        exists m. split; [exact Hm|]. split; [lia|exact Hr].
    + assert (i <> y) by (intros ->; congruence).
      destruct (IH (S i) y) as (m & Hm & Hs & Hr); try lia; auto.
      exists m. split; [exact Hm|]. split; [lia|exact Hr].
Qed.

(** Every occurrence of the character lies in one of the runs that
    [finditer] returns. *)
Lemma finditer_from_run s c : forall fuel pos y,
  length s - pos < fuel -> pos <= y -> nth_error s y = Some c ->
  exists m,
    In m (finditer_from s (BACKTICKS_RUN_RE c) fuel pos)
    /\ m_start m <= y < m_end m
    /\ m_end m = m_start m + char_run c (skipn (m_start m) s).
Proof.
  induction fuel as [|fuel IH]; intros pos y Hf Hy Hc; [lia|].
  cbn [finditer_from]. unfold re_search.
  assert (Hlen : y < length s) by (apply nth_error_Some; congruence).
  destruct (search_from_run s c (length s - pos) pos y) as (m & Hm & Hs & Hne & He);
    try lia; auto.
  rewrite Hm. destruct (Nat.lt_ge_cases y (m_end m)) as [Hlt|Hge].
  - exists m. split; [left; reflexivity|]. split; [lia|exact He].
  - destruct (IH (next_pos m) y) as (m' & Hin & Hr).
    + unfold next_pos. replace (m_start m <? m_end m) with true
        by (symmetry; apply Nat.ltb_lt; lia). lia.
    + unfold next_pos. replace (m_start m <? m_end m) with true
        by (symmetry; apply Nat.ltb_lt; lia). lia.
    + exact Hc.
    + exists m'. split; [right; exact Hin|exact Hr].
Qed.

Lemma contains_startswith : forall (s t : str),
  contains s t = true -> exists i, startswith s t i = true.
Proof.
  induction s as [|c s IH]; intros t H; cbn [contains] in H.
  - rewrite orb_false_r in H. exists 0. exact H.
  - apply orb_true_iff in H. destruct H as [H|H]; [exists 0; exact H|].
    destruct (IH _ H) as [i Hi]. exists (S i).
    apply startswith_firstn. apply startswith_firstn in Hi. exact Hi.
Qed.

(** A text that holds [n] characters [c] in a row has a run of at least
    [n] among those that [finditer] returns. *)
Lemma run_found s c n :
  1 <= n -> contains s (repeat_char c n) = true ->
  exists m, In m (finditer s (BACKTICKS_RUN_RE c)) /\ n <= length (group0 s m).
Proof.
  intros Hn H. apply contains_startswith in H. destruct H as [i H].
  apply startswith_firstn in H. unfold repeat_char in H. rewrite repeat_length in H.
  assert (Hc : forall x, x < n -> nth_error s (i + x) = Some c).
  { intros x Hx. rewrite <- nth_error_skipn.
    pose proof (f_equal (fun l => nth_error l x) H) as Hx'. simpl in Hx'.
    rewrite nth_error_firstn in Hx'.
    replace (x <? n) with true in Hx' by (symmetry; apply Nat.ltb_lt; exact Hx).
    rewrite Hx'. apply nth_error_repeat. exact Hx. }
  destruct (finditer_from_run s c (S (length s)) 0 i) as (m & Hin & Hr & He);
    try lia.
  { rewrite <- (Nat.add_0_r i). apply Hc. lia. }
  exists m. split; [exact Hin|].
  unfold group0. rewrite slice_length.
  - rewrite He. assert (i + n - m_start m <= char_run c (skipn (m_start m) s)); [|lia].
    apply char_run_ge. intros x Hx. rewrite nth_error_skipn.
    destruct (Nat.lt_ge_cases (m_start m + x) i) as [Hlt|Hge].
    + rewrite <- nth_error_skipn. apply char_run_spec. lia.
    + replace (m_start m + x) with (i + (m_start m + x - i)) by lia.
      apply Hc. lia.
  - rewrite He. pose proof (char_run_le c (skipn (m_start m) s)) as Hle.
    rewrite length_skipn in Hle.
    assert (m_start m < length s); [|lia].
    assert (i < length s) by (apply nth_error_Some; rewrite <- (Nat.add_0_r i), Hc by lia;
                              discriminate).
    lia.
Qed.

Lemma fold_max_ge : forall (l : list nat) a x,
  x = a \/ In x l -> x <= fold_left Nat.max l a.
Proof.
  induction l as [|y l IH]; intros a x H; simpl.
  - destruct H as [->|[]]. lia.
  - destruct H as [Hx|[Hx|H]].
    + transitivity (Nat.max a y); [lia|]. apply IH. auto.
    + transitivity (Nat.max a y); [lia|]. apply IH. auto.
    + apply IH. auto.
Qed.

(** *** Properties of the rebuilt block *)

(** X15.  The block that [fix_code_fences] writes for a fenced block has an
    opening line, the body joined by line feeds when there is one, and a
    closing line.  Both fence lines carry the same run of [n >= 3] fence
    characters; the closing line has nothing else, and the opening line
    has after the run either nothing or a space and a language tag.  The
    body does not contain [n] fence characters in a row. *)
Theorem rebuilt_fence_longer_than_runs default_lang fch flen lang closed code_buf changes :
  exists n tag changes',
    rebuild_block default_lang fch flen lang closed code_buf changes
    = Ok ([repeat_char fch n ++ tag]
          ++ (match code_buf with [] => [] | _ => [join NL code_buf] end)
          ++ [repeat_char fch n], changes')
    /\ 3 <= n
    /\ (tag = [] \/ exists t, t <> [] /\ tag = lit " " ++ t)
    /\ contains (join NL code_buf) (repeat_char fch n) = false.
Proof.
  unfold rebuild_block.
  set (code_text := join NL code_buf).
  set (runs := map _ (finditer _ _)).
  assert (Hl : exists n, match runs with
                         | [] => Ok 3
                         | _ :: _ => m <- py_max runs;; Ok (m + 1)
                         end = Ok n
                         /\ forall x, In x runs -> x < n).
  { destruct runs as [|r0 rs]; simpl.
    - eexists. split; [reflexivity|]. intros x [].
    - eexists. split; [reflexivity|]. intros x Hx.
      assert (x <= fold_left Nat.max rs r0); [|lia].
      apply fold_max_ge. destruct Hx; auto. }
  destruct Hl as (longest & -> & Hruns). cbn [bind].
  match goal with
  | |- exists n tag changes', bind ?e _ = _ /\ _ =>
      assert (He : exists p, e = Ok p)
  end.
  { destruct (is_empty (lower lang)); [|eauto].
    destruct (guess_lang code_text) as [[|c g]|] eqn:Eg; simpl.
    - destruct default_lang as [[|d ds]|]; simpl; eauto.
    - eauto.
    - destruct default_lang as [[|d ds]|]; simpl; eauto. }
  destruct He as [[nl ch] ->]. cbn [bind].
  do 3 eexists. split; [reflexivity|]. split; [lia|]. split.
  { destruct nl as [|x nl]; simpl; [left; reflexivity|].
    right. eexists. split; [|reflexivity]. discriminate. }
  destruct (contains code_text (repeat_char fch (Nat.max 3 longest))) eqn:Ec;
    [exfalso|reflexivity].
  apply run_found in Ec; [|lia]. destruct Ec as (m & Hin & Hlen).
  assert (Hlt : length (group0 code_text m) < longest).
  { apply Hruns. unfold runs. apply in_map_iff. exists m. auto. }
  lia.
Qed.

(** *** White space *)

Lemma lstrip_all_space : forall s : str, forallb is_space s = true -> lstrip s = [].
Proof.
  induction s as [|c s IH]; intros H; [reflexivity|].
  simpl in H. apply andb_true_iff in H. destruct H as [Hc Hs].
  simpl. rewrite Hc. apply IH. exact Hs.
Qed.

(** *** Properties of the collecting of a block *)



(** *** Properties of the guessing of a language *)

(** X17.  [guess_lang] returns no language for code that is empty or holds
    white space only. *)
Theorem guess_lang_blank_code code_text :
  forallb is_space code_text = true -> guess_lang code_text = None.
Proof.
  intros H. unfold guess_lang, strip. rewrite (lstrip_all_space _ H). reflexivity.
Qed.

Lemma guess_lang_blank_code_witness :
  forallb is_space (lit "  " ++ NL) = true /\ guess_lang (lit "  " ++ NL) = None.
Proof.
  assert (H : forallb is_space (lit "  " ++ NL) = true) by reflexivity.
  split; [exact H|]. exact (guess_lang_blank_code _ H).
Defined.

(** *** The option close_on_newline *)

Lemma scan_step_one_line s protected st :
  one_line s = true ->
  scan_step s protected true st = scan_step s protected false st.
Proof.
  intros H1. unfold scan_step.
  destruct (_in_protected (s_i st) protected); [reflexivity|].
  destruct (list_get s (s_i st)) as [ch| |] eqn:Ec; try reflexivity. cbn [bind].
  assert (Hch : (code ch =? 10) = false).
  { apply list_get_nth in Ec. apply nth_error_In in Ec.
    unfold one_line in H1. rewrite forallb_forall in H1.
    apply H1 in Ec. apply negb_true_iff in Ec. exact Ec. }
  rewrite Hch. reflexivity.
Qed.

Lemma scan_loop_one_line s protected : forall fuel st,
  one_line s = true ->
  scan_loop fuel s protected true st = scan_loop fuel s protected false st.
Proof.
  induction fuel as [|fuel IH]; intros st H1; cbn [scan_loop]; [reflexivity|].
  destruct (s_i st <? length s); [|reflexivity].
  rewrite (scan_step_one_line _ _ _ H1).
  destruct (scan_step s protected false st); cbn [bind]; auto.
Qed.

(** X18.  For a text of one line, without a line feed, [close_on_newline]
    makes no difference: [fix_latex_delimiters] returns the same text and
    the same edits with the option on and off. *)
Theorem close_on_newline_needs_line_feed text :
  one_line text = true ->
  fix_latex_delimiters text true = fix_latex_delimiters text false.
Proof.
  intros H1. unfold fix_latex_delimiters, LaTeXFixer_fix.
  destruct (_protected_spans text) as [spans| |]; try reflexivity. cbn [bind].
  unfold _scan_and_fix. rewrite (scan_loop_one_line _ _ _ _ H1). reflexivity.
Qed.

Lemma close_on_newline_needs_line_feed_witness :
  one_line (lit "the area is \(x") = true
  /\ fix_latex_delimiters (lit "the area is \(x") true
     = fix_latex_delimiters (lit "the area is \(x") false.
Proof.
  assert (H : one_line (lit "the area is \(x") = true) by reflexivity.
  split; [exact H|]. exact (close_on_newline_needs_line_feed _ H).
Defined.

(** *** Escaped tokens *)

Lemma escaped_tokens_balanced s spans cnl :
  (forall i, i < length s -> find (covers i) spans = None ->
             token_at s i = None \/ escaped s i = true) ->
  forall fuel i, length s - i <= fuel ->
    balanced_from fuel s spans cnl None i = true.
Proof.
  intros Hno. induction fuel as [|fuel IH]; intros i Hf; cbn [balanced_from].
  - assert (Hle : (length s <=? i) = true) by (apply Nat.leb_le; lia).
    rewrite Hle. reflexivity.
  - destruct (length s <=? i) eqn:Hle; [reflexivity|].
    apply Nat.leb_gt in Hle.
    destruct (find (covers i) spans) as [[a en]|] eqn:Ef.
    + apply find_some in Ef. destruct Ef as [_ Hc].
      unfold covers in Hc. apply andb_true_iff in Hc. destruct Hc as [_ Hc].
      apply Nat.ltb_lt in Hc. cbn in Hc. apply IH. lia.
    + cbn [is_some]. rewrite andb_false_r.
      destruct (token_at s i) as [tok|] eqn:Et; [|apply IH; lia].
      destruct (Hno i Hle Ef) as [H|H]; [congruence|]. rewrite H.
      apply token_at_some in Et. destruct Et as [Htok _].
      pose proof (token_length _ Htok). apply IH. lia.
Qed.

(** X19.  A text in which every delimiter token is escaped, with an odd
    number of backslashes right before it, or starts inside a protected
    span, comes back from [LaTeXFixer.fix] unchanged and without edits. *)
Theorem escaped_tokens_untouched text close_on_newline spans :
  _protected_spans text = Ok spans ->
  tokens_escaped text spans = true ->
  LaTeXFixer_fix text close_on_newline = Ok (text, []).
Proof.
  intros Hp He. unfold LaTeXFixer_fix. rewrite Hp. cbn [bind].
  apply scan_balanced_identity. unfold balanced.
  apply escaped_tokens_balanced; [|lia].
  intros i Hi Hf. unfold tokens_escaped in He. rewrite forallb_forall in He.
  specialize (He i). rewrite in_seq in He. specialize (He ltac:(lia)).
  apply orb_true_iff in He. destruct He as [He|He].
  - apply orb_true_iff in He. destruct He as [He|He]; [|auto].
    left. destruct (token_at text i); [discriminate|reflexivity].
  - apply existsb_find in He. destruct He as (x & Hx & _). congruence.
Qed.

Lemma escaped_tokens_untouched_witness :
  _protected_spans (lit "pay \$5 or \\[x") = Ok []
  /\ tokens_escaped (lit "pay \$5 or \\[x") [] = true
  /\ LaTeXFixer_fix (lit "pay \$5 or \\[x") true = Ok (lit "pay \$5 or \\[x", []).
Proof.
  assert (Hp : _protected_spans (lit "pay \$5 or \\[x") = Ok [])
    by (vm_compute; reflexivity).
  assert (He : tokens_escaped (lit "pay \$5 or \\[x") [] = true)
    by (vm_compute; reflexivity).
  split; [exact Hp|]. split; [exact He|].
  exact (escaped_tokens_untouched _ true _ Hp He).
Defined.

(** *** The line of an unclosed fence *)

Lemma skipn_cons_next {A : Type} (l : list A) k x rest :
  skipn k l = x :: rest -> nth_error l k = Some x /\ skipn (S k) l = rest.
Proof.
  revert l. induction k as [|k IH]; intros l H.
  - destruct l; inversion H; subst. auto.
  - destruct l as [|y l]; [discriminate|]. simpl in H. apply IH in H. exact H.
Qed.

Lemma track_line_open_line lines st i line st' :
  1 <= i -> nth_error lines (i - 1) = Some line ->
  open_line_ok lines st ->
  track_line st i line = Ok st' ->
  open_line_ok lines st'.
Proof.
  intros Hi Hl Hinv H. unfold track_line in H.
  destruct (in_block st) eqn:Eb; cbn [negb] in H.
  - destruct (re_match line CLOSE_FENCE_RE) as [m2|]; [|inversion H; subst; exact Hinv].
    destruct (getitem (group line m2 1) 0) as [c| |]; try discriminate. cbn [bind] in H.
    destruct (opt_ch_eqb c (fence_char st)); [|inversion H; subst; exact Hinv].
    destruct (len (group line m2 1)) as [n| |]; try discriminate. cbn [bind] in H.
    destruct (fence_len st <=? n); inversion H; subst; [|exact Hinv].
    intros Hb. discriminate.
  - destruct (re_match line OPEN_FENCE_RE) as [m|] eqn:Em;
      [|inversion H; subst; exact Hinv].
    assert (Hm : matches line OPEN_FENCE_RE = true)
      by (unfold matches; rewrite Em; reflexivity).
    destruct (getitem (group line m 1) 0) as [c| |]; try discriminate. cbn [bind] in H.
    destruct (len (group line m 1)) as [n| |]; try discriminate. cbn [bind] in H.
    inversion H; subst. intros _. exists line. cbn [open_line].
    split; [exact Hi|]. split; [exact Hl|exact Hm].
Qed.

Lemma track_lines_open_line lines : forall rest st i st',
  1 <= i -> skipn (i - 1) lines = rest ->
  open_line_ok lines st ->
  track_lines st i rest = Ok st' ->
  open_line_ok lines st'.
Proof.
  induction rest as [|line rest IH]; intros st i st' Hi Hs Hinv H; simpl in H.
  - inversion H; subst. exact Hinv.
  - destruct (track_line st i line) as [st1| |] eqn:E1; try discriminate.
    cbn [bind] in H. apply skipn_cons_next in Hs. destruct Hs as [Hn Hs].
    apply (IH st1 (S i) st'); auto.
    + replace (S i - 1) with (S (i - 1)) by lia. exact Hs.
    + eapply track_line_open_line; eauto.
Qed.

(** *** Properties of the validation *)

(** X20.  When [validate_code_fences] finds a text invalid, its one issue
    names the line, counted from one, of an opening fence of the text: the
    fence that is still open at the end. *)
Theorem unclosed_fence_line_reported text issues :
  validate_code_fences text = Ok (false, issues) ->
  exists n line,
    issues = [lit "Unclosed code fence started on line " ++ str_of_int n]
    /\ 1 <= n
    /\ nth_error (splitlines text) (n - 1) = Some line
    /\ matches line OPEN_FENCE_RE = true.
Proof.
  unfold validate_code_fences. intros H.
  destruct (track_lines (mkFenceState false None 0 0) 1 (splitlines text))
    as [st| |] eqn:Et; try discriminate.
  cbn [bind] in H.
  assert (Hinv : open_line_ok (splitlines text) st).
  { apply (track_lines_open_line _ _ _ 1 _ (le_n 1) eq_refl) in Et; [exact Et|].
    intros Hb. discriminate. }
  match type of H with
  | context [count_lines ?a ?b ?c] =>
      pose proof (count_lines_no_issue c a b) as Hc;
      destruct (count_lines a b c) as [d issues']
  end.
  simpl in Hc. subst issues'.
  destruct (in_block st) eqn:Eb.
  - inversion H; subst. destruct (Hinv Eb) as (line & H1 & Hn & Hm).
    exists (open_line st), line. auto.
  - inversion H.
Qed.

Lemma unclosed_fence_line_reported_witness :
  validate_code_fences stray_fence_text
  = Ok (false, [lit "Unclosed code fence started on line 5"])
  /\ exists n line,
       [lit "Unclosed code fence started on line 5"]
       = [lit "Unclosed code fence started on line " ++ str_of_int n]
       /\ 1 <= n
       /\ nth_error (splitlines stray_fence_text) (n - 1) = Some line
       /\ matches line OPEN_FENCE_RE = true.
Proof.
  assert (H : validate_code_fences stray_fence_text
              = Ok (false, [lit "Unclosed code fence started on line 5"]))
    by (vm_compute; reflexivity).
  split; [exact H|]. exact (unclosed_fence_line_reported _ _ H).
Defined.
